(** * leapmiledocbuilder: asset store, backup utility and auth retry loop

    A shallow embedding of the client-side persistence helpers of the
    documentation builder, and the properties its specification states
    about them:

    - [AssetStore]: the IndexedDB wrapper ([openDatabase],
      [runTransaction], [saveAsset], [getAsset], ...);
    - [DataUrl]: the blob <-> data-URL conversion;
    - [Backup]: JSON import, restore and the auto-backup retention;
    - [Auth]: the bounded retry loop of [signIn] / [signUp].

    Browser primitives (IndexedDB, FileReader, atob, localStorage, the
    auth backend) are not code of the application.  Their answers are
    inputs of the model: an operation reads them from the [World] it
    runs in, so the theorems quantify over every behaviour of the
    platform. *)

From stdpp Require Import gmap strings list fin_maps sorting pretty.
From Stdlib Require Import ZArith Strings.Ascii Strings.Byte.
From Stdlib Require PrimFloat.

(** ** JavaScript values shared by the modules *)

Module JS.

(** Error objects.  The constructor records where the object was made:
    [NewError] is a [new Error(message)] evaluated by the application,
    [PlatformError] is an object raised by a browser API (a
    [DOMException], a [TypeError], a [SyntaxError]).  Two error objects
    are the same object only when they agree on all of it. *)
Inductive Error : Type :=
| NewError (message : string)
| PlatformError (name : string) (message : string).

#[global] Instance Error_eq_dec : EqDecision Error.
Proof. solve_decision. Defined.

(** The result of evaluating an expression: a value or a thrown
    exception. *)
Inductive completion (A : Type) : Type :=
| Return (a : A)
| Throw (e : Error).
Arguments Return {A} a.
Arguments Throw {A} e.

(** A settled promise. *)
Inductive promise (A : Type) : Type :=
| Fulfilled (a : A)
| Rejected (e : Error).
Arguments Fulfilled {A} a.
Arguments Rejected {A} e.

(** [a || b] on strings, where [a] may be [undefined]: the empty string
    is falsy. *)
Definition or_string (a : option string) (b : string) : string :=
  match a with
  | Some s => if decide (s = "") then b else s
  | None => b
  end.

(** [a ?? b]: only [undefined] / [null] fall through. *)
Definition nullish {A} (a : option A) (b : A) : A :=
  match a with
  | Some x => x
  | None => b
  end.

(** Truthiness of an optional string, as in [options.id ? ... : ...]. *)
Definition truthy_string (a : option string) : bool :=
  match a with
  | Some s => negb (bool_decide (s = ""))
  | None => false
  end.

End JS.
Export JS.

(** A binary large object: its payload, its MIME type and, when it is a
    [File], its name. *)
Record Blob : Type := mkBlob {
  blob_bytes : list byte;
  blob_type : string;
  blob_name : option string
}.

(** [blob.size] *)
Definition blob_size (b : Blob) : Z := Z.of_nat (length (blob_bytes b)).

(** ** Text *)

(** Strings hold 8-bit code units; the functions below work on their
    lists of characters. *)
Module Text.

Definition chars (s : string) : list ascii := String.list_ascii_of_string s.

Definition code (c : ascii) : nat := nat_of_ascii c.

(** ASCII lower-casing of one character. *)
Definition lower (c : ascii) : ascii :=
  if (65 <=? code c) && (code c <=? 90) then ascii_of_nat (code c + 32) else c.

(** Equality of two texts up to ASCII case: how a regular expression
    with the [i] flag compares a literal made of ASCII characters with
    8-bit input. *)
Definition eq_ci (a b : list ascii) : bool :=
  bool_decide (lower <$> a = lower <$> b).

(** [pat] occurs in [s], up to ASCII case. *)
Fixpoint contains_ci (pat s : list ascii) : bool :=
  eq_ci (take (length pat) s) pat
  || match s with
     | [] => false
     | _ :: s' => contains_ci pat s'
     end.

(** The line terminators an 8-bit text can hold; [.] in a regular
    expression matches any other character. *)
Definition is_line_terminator (c : ascii) : bool :=
  bool_decide (c = "010"%char) || bool_decide (c = "013"%char).

End Text.
Export Text.

(** ** Blob <-> data URL *)

Module DataUrl.

(** ASCII whitespace: TAB, LF, FF, CR, SPACE. *)
Definition is_ascii_whitespace (c : ascii) : bool :=
  bool_decide (c = "009"%char) || bool_decide (c = "010"%char) || bool_decide (c = "012"%char)
  || bool_decide (c = "013"%char) || bool_decide (c = " "%char).

(** *** Base64 (RFC 4648), on bits *)

(** Six bits, most significant first. *)
Definition sextet : Type := bool * bool * bool * bool * bool * bool.

Definition sextet_index (s : sextet) : nat :=
  let '(b5, b4, b3, b2, b1, b0) := s in
  32 * Nat.b2n b5 + 16 * Nat.b2n b4 + 8 * Nat.b2n b3
  + 4 * Nat.b2n b2 + 2 * Nat.b2n b1 + Nat.b2n b0.

Definition sextet_of_index (n : nat) : sextet :=
  (Nat.testbit n 5, Nat.testbit n 4, Nat.testbit n 3,
   Nat.testbit n 2, Nat.testbit n 1, Nat.testbit n 0).

Definition alphabet : list ascii :=
  String.list_ascii_of_string
    "ABCDEFGHIJKLMNOPQRSTUVWXYZabcdefghijklmnopqrstuvwxyz0123456789+/".

Definition encode_sextet (s : sextet) : ascii :=
  default "A"%char (alphabet !! sextet_index s).

Fixpoint position (c : ascii) (l : list ascii) : option nat :=
  match l with
  | [] => None
  | x :: l' => if decide (x = c) then Some 0 else S <$> position c l'
  end.

Definition decode_char (c : ascii) : option sextet :=
  sextet_of_index <$> position c alphabet.

(** Three octets are four sextets; one or two trailing octets are
    padded with zero bits. *)
Fixpoint sextets_of_octets (l : list ascii) : list sextet :=
  match l with
  | Ascii a0 a1 a2 a3 a4 a5 a6 a7
    :: Ascii b0 b1 b2 b3 b4 b5 b6 b7
    :: Ascii c0 c1 c2 c3 c4 c5 c6 c7 :: rest =>
      (a7, a6, a5, a4, a3, a2) :: (a1, a0, b7, b6, b5, b4)
      :: (b3, b2, b1, b0, c7, c6) :: (c5, c4, c3, c2, c1, c0)
      :: sextets_of_octets rest
  | [Ascii a0 a1 a2 a3 a4 a5 a6 a7; Ascii b0 b1 b2 b3 b4 b5 b6 b7] =>
      [(a7, a6, a5, a4, a3, a2); (a1, a0, b7, b6, b5, b4);
       (b3, b2, b1, b0, false, false)]
  | [Ascii a0 a1 a2 a3 a4 a5 a6 a7] =>
      [(a7, a6, a5, a4, a3, a2); (a1, a0, false, false, false, false)]
  | [] => []
  end.

(** Four sextets are three octets; of two or three trailing sextets the
    last four or two bits are dropped. *)
Fixpoint octets_of_sextets (l : list sextet) : list ascii :=
  match l with
  | (a7, a6, a5, a4, a3, a2) :: (a1, a0, b7, b6, b5, b4)
    :: (b3, b2, b1, b0, c7, c6) :: (c5, c4, c3, c2, c1, c0) :: rest =>
      Ascii a0 a1 a2 a3 a4 a5 a6 a7
      :: Ascii b0 b1 b2 b3 b4 b5 b6 b7
      :: Ascii c0 c1 c2 c3 c4 c5 c6 c7 :: octets_of_sextets rest
  | [(a7, a6, a5, a4, a3, a2); (a1, a0, b7, b6, b5, b4); (b3, b2, b1, b0, _, _)] =>
      [Ascii a0 a1 a2 a3 a4 a5 a6 a7; Ascii b0 b1 b2 b3 b4 b5 b6 b7]
  | [(a7, a6, a5, a4, a3, a2); (a1, a0, _, _, _, _)] =>
      [Ascii a0 a1 a2 a3 a4 a5 a6 a7]
  | _ => []
  end.

Definition padding (n : nat) : list ascii :=
  match n mod 3 with
  | 1 => ["="%char; "="%char]
  | 2 => ["="%char]
  | _ => []
  end.

(** The base64 text of a byte sequence, as [FileReader.readAsDataURL]
    writes it. *)
Definition base64 (bytes : list byte) : list ascii :=
  (encode_sextet <$> sextets_of_octets (ascii_of_byte <$> bytes))
  ++ padding (length bytes).

(** [atob]: the forgiving-base64 decode of the platform.  Whitespace is
    removed; when the length is then a multiple of four, one or two
    final [=] are removed; a length of 1 modulo 4 or a character outside
    the alphabet fails with an [InvalidCharacterError]. *)
Definition strip_padding (l : list ascii) : list ascii :=
  if decide (length l mod 4 = 0) then
    match reverse l with
    | c1 :: r1 =>
        if decide (c1 = "="%char) then
          match r1 with
          | c2 :: r2 => if decide (c2 = "="%char) then reverse r2 else reverse r1
          | [] => reverse r1
          end
        else l
    | [] => l
    end
  else l.

Definition InvalidCharacterError : Error :=
  PlatformError "InvalidCharacterError" "The string to be decoded is not correctly encoded.".

Definition atob (data : string) : completion string :=
  let l := strip_padding
             (filter (λ c, is_ascii_whitespace c = false) (String.list_ascii_of_string data)) in
  if decide (length l mod 4 = 1) then Throw InvalidCharacterError
  else match mapM decode_char l with
       | Some sx => Return (String.string_of_list_ascii (octets_of_sextets sx))
       | None => Throw InvalidCharacterError
       end.

(** *** The decoder, [dataUrlToBlob] *)

(** [s.split(sep)] for a one-character separator. *)
Fixpoint split_on (sep : ascii) (s : list ascii) : list (list ascii) :=
  match s with
  | [] => [[]]
  | c :: s' =>
      if decide (c = sep) then [] :: split_on sep s'
      else match split_on sep s' with
           | x :: xs => (c :: x) :: xs
           | [] => [[c]]
           end
  end.

(** The tail of [/data:(.*?)(;base64)?$/i] once [data:] has matched:
    the lazy group grows one character at a time, and at each length the
    rest must be [;base64] up to case, or empty.  The result is group 1. *)
Fixpoint lazy_dot (rest acc : list ascii) : option (list ascii) :=
  if eq_ci rest (String.list_ascii_of_string ";base64") then Some (reverse acc)
  else match rest with
       | [] => Some (reverse acc)
       | c :: rest' =>
           if is_line_terminator c then None else lazy_dot rest' (c :: acc)
       end.

Definition match_at (s : list ascii) : option (list ascii) :=
  if eq_ci (take 5 s) (String.list_ascii_of_string "data:")
  then lazy_dot (drop 5 s) []
  else None.

(** [/data:(.*?)(;base64)?$/i.exec(meta)?.[1]]: the leftmost start
    position at which the pattern matches decides. *)
Fixpoint mime_exec (s : list ascii) : option (list ascii) :=
  match match_at s with
  | Some g => Some g
  | None => match s with
            | [] => None
            | _ :: s' => mime_exec s'
            end
  end.

(** The [Blob] constructor keeps a type made of printable ASCII only,
    in lower case, and replaces any other by the empty string. *)
Definition printable (c : ascii) : bool := (32 <=? code c) && (code c <=? 126).

Definition normalize_type (t : string) : string :=
  let l := String.list_ascii_of_string t in
  if forallb printable l then String.string_of_list_ascii (lower <$> l) else "".

Definition new_Blob (bytes : list byte) (type : string) : Blob :=
  mkBlob bytes (normalize_type type) None.

(** Every [Blob] of the platform went through that constructor. *)
Definition blob_wf (b : Blob) : Prop := normalize_type (blob_type b) = blob_type b.

Definition charCodeAt (s : string) (i : nat) : byte :=
  byte_of_ascii (default Ascii.zero (String.get i s)).

(** [for (let i = 0; i < len; i += 1) bytes[i] = binary.charCodeAt(i)],
    with [n] iterations left. *)
Fixpoint fill_bytes (binary : string) (n i : nat) (bytes : list byte) : list byte :=
  match n with
  | 0 => bytes
  | S n' => fill_bytes binary n' (S i) (<[i := charCodeAt binary i]> bytes)
  end.

Definition dataUrlToBlob (dataUrl : string) : completion Blob :=
  let parts := split_on ","%char (String.list_ascii_of_string dataUrl) in
  let meta := default [] (parts !! 0) in
  let data := String.string_of_list_ascii <$> parts !! 1 in
  let mimeMatch := String.string_of_list_ascii <$> mime_exec meta in
  let mime := or_string mimeMatch "application/octet-stream" in
  match atob (nullish data "undefined") with
  | Throw e => Throw e
  | Return binary =>
      let len := String.length binary in
      let bytes := fill_bytes binary len 0 (replicate len x00) in
      Return (new_Blob bytes mime)
  end.

(** *** The encoder, [blobToDataUrl] *)

(** The media type [FileReader.readAsDataURL] writes: the blob's type, or
    [application/octet-stream] when the blob has none. *)
Definition media_type (blob : Blob) : string :=
  if decide (blob_type blob = "") then "application/octet-stream" else blob_type blob.

(** What [FileReader.readAsDataURL] leaves in [reader.result]. *)
Definition readAsDataURL (blob : Blob) : string :=
  String.string_of_list_ascii
    (String.list_ascii_of_string "data:"
     ++ String.list_ascii_of_string (media_type blob)
     ++ String.list_ascii_of_string ";base64,"
     ++ base64 (blob_bytes blob)).

(** How the read ends: [loadend] after a load, or [error] first. *)
Inductive FileReaderOutcome : Type :=
| ReadLoads
| ReadFails (error : Error).

Definition blobToDataUrl (reader : FileReaderOutcome) (blob : Blob) : promise string :=
  match reader with
  | ReadLoads => Fulfilled (readAsDataURL blob)
  | ReadFails e => Rejected e
  end.

End DataUrl.

(** ** The asset store *)

Module AssetStore.

Definition DB_NAME : string := "documentAssetStore".
Definition STORE_NAME : string := "assets".
Definition DB_VERSION : Z := 1.

Record StoredAssetMetadata : Type := mkMeta {
  meta_id : string;
  meta_name : string;
  meta_type : string;
  meta_size : Z;
  meta_createdAt : Z;
  meta_updatedAt : Z
}.

(** [interface StoredAssetRecord extends StoredAssetMetadata { blob }] *)
Record StoredAssetRecord : Type := mkRecord {
  rec_id : string;
  rec_name : string;
  rec_type : string;
  rec_size : Z;
  rec_createdAt : Z;
  rec_updatedAt : Z;
  rec_blob : Blob
}.

(** The options bag of [saveAsset]; an absent key is [None]. *)
Record SaveOptions : Type := mkOptions {
  opt_id : option string;
  opt_name : option string;
  opt_type : option string;
  opt_createdAt : option Z;
  opt_updatedAt : option Z
}.

Definition no_options : SaveOptions := mkOptions None None None None None.

(** *** The platform *)

Inductive IDBTransactionMode : Type := readonly | readwrite.

(** What [indexedDB.open] does: throw at once, fire [error] on the
    request, or fire [success]. *)
Inductive OpenOutcome : Type :=
| OpenThrows (e : Error)
| OpenError (e : Error)
| OpenSuccess.

(** The global [indexedDB]: undefined, or a factory. *)
Inductive IDBGlobal : Type :=
| IDBUndefined
| IDBFactory (open : OpenOutcome).

(** How a transaction whose body has finished ends: the [complete],
    [abort] or [error] event, the latter two with [tx.error], which may
    be [null]. *)
Inductive TxFate : Type :=
| TxCompletes
| TxAborts (error : option Error)
| TxErrors (error : option Error).

Inductive Request : Type :=
| ReqGet (id : string)
| ReqPut (record : StoredAssetRecord)
| ReqDelete (id : string)
| ReqGetAll
| ReqClear.

(** What passes between the store wrapper and the platform, in order:
    calls the wrapper makes ([EvGetIndexedDB], [EvOpen],
    [EvTransaction], [EvRequest], [EvAbort], and the settling of the
    promise [runTransaction] returns, [EvResolve] / [EvReject]) and
    events the platform fires ([EvRequestError], [EvTxComplete],
    [EvTxAbort], [EvTxError]). *)
Inductive Event : Type :=
| EvGetIndexedDB
| EvOpen (name : string) (version : Z)
| EvTransaction (storeName : string) (mode : IDBTransactionMode)
| EvRequest (r : Request)
| EvRequestError (e : Error)
| EvAbort
| EvTxComplete
| EvTxAbort
| EvTxError
| EvResolve
| EvReject (e : Error).

(** The handle [resolve(db)] passes on. *)
Inductive IDBDatabase : Type := TheDatabase.

(** The state an operation runs in: the module variable [dbPromise], the
    global [indexedDB], the committed content of the object store, and
    the platform's answers still to come ([faults]: one entry per
    request placed, [Some e] when the request fires [error] with
    [request.error = e]; [fates]: one entry per transaction whose body
    finished).  A tape that has run out answers with success. *)
Record World : Type := mkWorld {
  dbPromise : option (promise IDBDatabase);
  indexedDB : IDBGlobal;
  assets : gmap string StoredAssetRecord;
  faults : list (option Error);
  fates : list TxFate
}.

Definition set_dbPromise (p : promise IDBDatabase) (w : World) : World :=
  mkWorld (Some p) (indexedDB w) (assets w) (faults w) (fates w).
Definition set_assets (m : gmap string StoredAssetRecord) (w : World) : World :=
  mkWorld (dbPromise w) (indexedDB w) m (faults w) (fates w).
Definition set_faults (f : list (option Error)) (w : World) : World :=
  mkWorld (dbPromise w) (indexedDB w) (assets w) f (fates w).
Definition set_fates (f : list TxFate) (w : World) : World :=
  mkWorld (dbPromise w) (indexedDB w) (assets w) (faults w) f.

(** *** Effectful code: state passing, exceptions, and the events issued *)

Definition M (A : Type) : Type := World → completion A * World * list Event.

Definition ret {A} (a : A) : M A := fun w => (Return a, w, []).
Definition throw {A} (e : Error) : M A := fun w => (Throw e, w, []).
Definition bind {A B} (m : M A) (k : A → M B) : M B :=
  fun w => match m w with
           | (Return a, w1, ev1) =>
               match k a w1 with
               | (r, w2, ev2) => (r, w2, ev1 ++ ev2)
               end
           | (Throw e, w1, ev1) => (Throw e, w1, ev1)
           end.
Definition tell (evs : list Event) : M unit := fun w => (Return tt, w, evs).
(** A pure computation that may throw. *)
Definition lift {A} (c : completion A) : M A := fun w => (c, w, []).

Declare Scope js_scope.
Delimit Scope js_scope with js.
Notation "'let*' x ':=' m 'in' k" := (bind m (fun x => k))
  (at level 10, x name, m at level 100, k at level 200) : js_scope.
Local Open Scope js_scope.

(** [await p] inside an async function. *)
Definition await {A} (p : promise A) : M A :=
  match p with
  | Fulfilled a => ret a
  | Rejected e => throw e
  end.

(** An [async] function, and the executor of [new Promise]: whatever
    the body throws becomes the rejection of the promise that the call
    returns; the call itself returns normally. *)
Definition async {A} (body : M A) : M (promise A) :=
  fun w => match body w with
           | (Return a, w', evs) => (Return (Fulfilled a), w', evs)
           | (Throw e, w', evs) => (Return (Rejected e), w', evs)
           end.

(** *** Opening the database *)

Definition getIndexedDB : M OpenOutcome :=
  fun w => match indexedDB w with
           | IDBUndefined =>
               (Throw (NewError "IndexedDB is not supported in this environment."),
                w, [EvGetIndexedDB])
           | IDBFactory o => (Return o, w, [EvGetIndexedDB])
           end.

(** [openDatabase()]: the memoized promise, or
    [getIndexedDB().open(DB_NAME, DB_VERSION)] and the three handlers
    put on the request.  [onupgradeneeded] creates the one object store
    when it is missing; its content is [assets]. *)
Definition openDatabase : M (promise IDBDatabase) :=
  fun w => match dbPromise w with
           | Some p => (Return p, w, [])
           | None =>
               let executor : M IDBDatabase :=
                 let* o := getIndexedDB in
                 let* _ := tell [EvOpen DB_NAME DB_VERSION] in
                 match o with
                 | OpenThrows e => throw e
                 | OpenError e => throw e
                 | OpenSuccess => ret TheDatabase
                 end in
               match async executor w with
               | (Return p, w', evs) => (Return p, set_dbPromise p w', evs)
               | (Throw e, w', evs) => (Throw e, w', evs)
               end
           end.

(** *** Requests on the object store *)

(** The [IDBObjectStore] handed to an executor. *)
Record IDBObjectStore : Type := mkStore {
  os_name : string;
  os_mode : IDBTransactionMode
}.

Definition is_write (r : Request) : bool :=
  match r with
  | ReqPut _ | ReqDelete _ | ReqClear => true
  | ReqGet _ | ReqGetAll => false
  end.

(** [resolveDeferred(store.op(...))]: place the request, then settle on
    its [success] or [error] event.  A write on a read-only transaction
    throws when it is placed. *)
Definition resolveDeferred {A} (store : IDBObjectStore) (r : Request)
    (run : gmap string StoredAssetRecord → A * gmap string StoredAssetRecord) : M A :=
  fun w =>
    match os_mode store, is_write r with
    | readonly, true =>
        (Throw (PlatformError "ReadOnlyError" "The transaction is read-only."), w, [])
    | _, _ =>
        match faults w with
        | Some e :: rest =>
            (Throw e, set_faults rest w, [EvRequest r; EvRequestError e])
        | f =>
            let (a, m) := run (assets w) in
            (Return a, set_assets m (set_faults (tail f) w), [EvRequest r])
        end
    end.

Definition store_get (store : IDBObjectStore) (id : string) : M (option StoredAssetRecord) :=
  resolveDeferred store (ReqGet id) (fun m => (m !! id, m)).
Definition store_put (store : IDBObjectStore) (r : StoredAssetRecord) : M string :=
  resolveDeferred store (ReqPut r) (fun m => (rec_id r, <[rec_id r := r]> m)).
Definition store_delete (store : IDBObjectStore) (id : string) : M unit :=
  resolveDeferred store (ReqDelete id) (fun m => (tt, delete id m)).
(** The order in which [getAll] lists the records is not modelled. *)
Definition store_getAll (store : IDBObjectStore) : M (list StoredAssetRecord) :=
  resolveDeferred store ReqGetAll (fun m => ((map_to_list m).*2, m)).
Definition store_clear (store : IDBObjectStore) : M unit :=
  resolveDeferred store ReqClear (fun m => (tt, ∅)).

(** *** Transactions *)

Definition next_fate (w : World) : TxFate * World :=
  match fates w with
  | [] => (TxCompletes, w)
  | f :: rest => (f, set_fates rest w)
  end.

(** [runTransaction(mode, executor)].  The body runs first; only when it
    has returned are the three handlers put on the transaction, and the
    transaction's own end then settles the promise.  A body that throws
    (or awaits a request that failed) reaches [.catch]: [tx.abort()] and
    [reject(error)].  A transaction that does not complete leaves the
    committed content as it was. *)
Definition runTransaction {T} (mode : IDBTransactionMode)
    (executor : IDBObjectStore → M T) : M (promise T) :=
  async (
    let* db := bind openDatabase await in
    fun w =>
      let committed := assets w in
      match executor (mkStore STORE_NAME mode) w with
      | (Return result, w1, evs) =>
          match next_fate w1 with
          | (TxCompletes, w2) =>
              (Return result, w2,
               EvTransaction STORE_NAME mode :: evs ++ [EvTxComplete; EvResolve])
          | (TxAborts err, w2) =>
              let e := nullish err (NewError "Transaction aborted") in
              (Throw e, set_assets committed w2,
               EvTransaction STORE_NAME mode :: evs ++ [EvTxAbort; EvReject e])
          | (TxErrors err, w2) =>
              let e := nullish err (NewError "Transaction failed") in
              (Throw e, set_assets committed w2,
               EvTransaction STORE_NAME mode :: evs ++ [EvTxError; EvReject e])
          end
      | (Throw error, w1, evs) =>
          (Throw error, set_assets committed w1,
           EvTransaction STORE_NAME mode :: evs ++ [EvAbort; EvReject error])
      end).

(** *** The operations *)

(** [saveAsset(file, options)].  [fresh] is what [generateId()] returns
    when it is called, [now] is [Date.now()]. *)
Definition saveAsset (fresh : string) (now : Z) (file : Blob) (options : SaveOptions)
    : M (promise StoredAssetMetadata) :=
  let id := nullish (opt_id options) fresh in
  runTransaction readwrite (fun store =>
    let* existing := (if truthy_string (opt_id options)
                      then store_get store id
                      else ret None) in
    let createdAt :=
      nullish (opt_createdAt options)
              (nullish (rec_createdAt <$> existing) now) in
    let updatedAt := nullish (opt_updatedAt options) now in
    let record :=
      mkRecord id
               (or_string (opt_name options) (nullish (blob_name file) "asset"))
               (or_string (opt_type options)
                          (or_string (Some (blob_type file)) "application/octet-stream"))
               (blob_size file)
               createdAt
               updatedAt
               file in
    let* _ := store_put store record in
    ret (mkMeta (rec_id record) (rec_name record) (rec_type record)
                (rec_size record) (rec_createdAt record) (rec_updatedAt record))).

Definition saveAssetFromDataUrl (fresh : string) (now : Z) (dataUrl : string)
    (options : SaveOptions) : M (promise StoredAssetMetadata) :=
  async (
    let* blob := lift (DataUrl.dataUrlToBlob dataUrl) in
    bind (saveAsset fresh now blob
            (mkOptions (opt_id options) (opt_name options)
                       (Some (or_string (opt_type options) (blob_type blob)))
                       (opt_createdAt options) (opt_updatedAt options)))
         await).

Definition getAsset (id : string) : M (promise (option StoredAssetRecord)) :=
  runTransaction readonly (fun store =>
    let* result := store_get store id in
    ret result).

Record AssetDataUrl : Type := mkAssetDataUrl {
  du_id : string;
  du_name : string;
  du_type : string;
  du_size : Z;
  du_createdAt : Z;
  du_updatedAt : Z;
  du_dataUrl : string
}.

(** [getAssetDataUrl(id)]; [reader] is how the [FileReader] ends. *)
Definition getAssetDataUrl (reader : DataUrl.FileReaderOutcome) (id : string)
    : M (promise (option AssetDataUrl)) :=
  async (
    let* asset := bind (getAsset id) await in
    match asset with
    | None => ret None
    | Some asset =>
        let* dataUrl := await (DataUrl.blobToDataUrl reader (rec_blob asset)) in
        ret (Some (mkAssetDataUrl (rec_id asset) (rec_name asset) (rec_type asset)
                                  (rec_size asset) (rec_createdAt asset)
                                  (rec_updatedAt asset) dataUrl))
    end).

Record AssetObjectUrl : Type := mkAssetObjectUrl {
  ou_id : string;
  ou_name : string;
  ou_type : string;
  ou_url : string
}.

(** [getAssetObjectUrl(id)]; [url] is what [URL.createObjectURL]
    returns. *)
Definition getAssetObjectUrl (url : string) (id : string)
    : M (promise (option AssetObjectUrl)) :=
  async (
    let* asset := bind (getAsset id) await in
    match asset with
    | None => ret None
    | Some asset =>
        ret (Some (mkAssetObjectUrl (rec_id asset) (rec_name asset) (rec_type asset) url))
    end).

Definition deleteAsset (id : string) : M (promise unit) :=
  runTransaction readwrite (fun store => store_delete store id).

Definition strip_blob (r : StoredAssetRecord) : StoredAssetMetadata :=
  mkMeta (rec_id r) (rec_name r) (rec_type r) (rec_size r)
         (rec_createdAt r) (rec_updatedAt r).

Definition listAllAssets : M (promise (list StoredAssetMetadata)) :=
  runTransaction readonly (fun store =>
    let* results := store_getAll store in
    ret (strip_blob <$> results)).

(** [ids.map(f)] for an effectful [f]. *)
Fixpoint array_map {A B} (f : A → M B) (l : list A) : M (list B) :=
  match l with
  | [] => ret []
  | x :: l' =>
      let* y := f x in
      let* ys := array_map f l' in
      ret (y :: ys)
  end.

(** [Promise.all]: the values in order, or the rejection that comes
    first.  In the model the promises are settled one after the other,
    in the order of the list (see [getAssetsByIds]), so that is the
    first rejection in the list. *)
Fixpoint Promise_all {A} (ps : list (promise A)) : promise (list A) :=
  match ps with
  | [] => Fulfilled []
  | Fulfilled a :: ps' =>
      match Promise_all ps' with
      | Fulfilled l => Fulfilled (a :: l)
      | Rejected e => Rejected e
      end
  | Rejected e :: _ => Rejected e
  end.

(** [Object.fromEntries]: a later entry replaces an earlier one. *)
Definition fromEntries {V} (entries : list (string * V)) : gmap string V :=
  foldl (fun m kv => <[kv.1 := kv.2]> m) ∅ entries.

(** [getAssetsByIds(ids)].  Every callback of [ids.map] is started, each
    with a transaction of its own, before the platform fires the first
    event, and the platform may interleave the events of these
    transactions.  The model runs the callbacks one after the other, in
    the order of [ids]: it is exact about each transaction and about
    which transactions there are, not about the order of events of
    different transactions. *)
Definition getAssetsByIds (ids : list string)
    : M (promise (gmap string (option StoredAssetRecord))) :=
  async (
    let* promises :=
      array_map (fun id => async (let* asset := bind (getAsset id) await in
                                  ret (id, asset))) ids in
    let* entries := await (Promise_all promises) in
    ret (fromEntries entries)).

Definition clearAllAssets : M (promise unit) :=
  runTransaction readwrite (fun store => store_clear store).

(** *** Every operation of the store, under one type *)

Inductive Operation : Type :=
| OpSave (fresh : string) (now : Z) (file : Blob) (options : SaveOptions)
| OpSaveFromDataUrl (fresh : string) (now : Z) (dataUrl : string) (options : SaveOptions)
| OpGet (id : string)
| OpGetAsDataUrl (reader : DataUrl.FileReaderOutcome) (id : string)
| OpGetAsTemporaryUrl (url : string) (id : string)
| OpDelete (id : string)
| OpList
| OpGetMany (ids : list string)
| OpClear.

(** The call with its value forgotten: what is left is whether it
    returned or threw, and whether its promise was fulfilled or
    rejected, and with what. *)
Definition forget {A} (m : M (promise A)) : M (promise unit) :=
  fun w => match m w with
           | (Return (Fulfilled _), w', evs) => (Return (Fulfilled tt), w', evs)
           | (Return (Rejected e), w', evs) => (Return (Rejected e), w', evs)
           | (Throw e, w', evs) => (Throw e, w', evs)
           end.

Definition perform (op : Operation) : M (promise unit) :=
  match op with
  | OpSave fresh now file options => forget (saveAsset fresh now file options)
  | OpSaveFromDataUrl fresh now dataUrl options =>
      forget (saveAssetFromDataUrl fresh now dataUrl options)
  | OpGet id => forget (getAsset id)
  | OpGetAsDataUrl reader id => forget (getAssetDataUrl reader id)
  | OpGetAsTemporaryUrl url id => forget (getAssetObjectUrl url id)
  | OpDelete id => forget (deleteAsset id)
  | OpList => forget listAllAssets
  | OpGetMany ids => forget (getAssetsByIds ids)
  | OpClear => forget clearAllAssets
  end.

(** *** Reading a trace *)

(** The database is open, or will open at the first use. *)
Definition opens (w : World) : Prop :=
  dbPromise w = Some (Fulfilled TheDatabase)
  ∨ (dbPromise w = None ∧ indexedDB w = IDBFactory OpenSuccess).

(** The platform raises nothing: the database opens, no request fails
    and every transaction completes. *)
Definition calm (w : World) : Prop :=
  opens w
  ∧ Forall (fun f => f = None) (faults w)
  ∧ Forall (fun f => f = TxCompletes) (fates w).

Definition is_open_event (ev : Event) : Prop :=
  match ev with
  | EvGetIndexedDB | EvOpen _ _ => True
  | _ => False
  end.

Definition is_request (ev : Event) : Prop :=
  match ev with
  | EvRequest _ => True
  | _ => False
  end.

(** The transactions begun, the transactions that completed and the
    rejections of transaction promises, each in order. *)
Definition transactions (evs : list Event) : list (string * IDBTransactionMode) :=
  omap (fun ev => match ev with
                  | EvTransaction n m => Some (n, m)
                  | _ => None
                  end) evs.

Definition completions (evs : list Event) : nat :=
  length (omap (fun ev => match ev with
                          | EvTxComplete => Some tt
                          | _ => None
                          end) evs).

Definition rejections (evs : list Event) : list Error :=
  omap (fun ev => match ev with
                  | EvReject e => Some e
                  | _ => None
                  end) evs.

(** The requests placed, in order. *)
Definition requests (evs : list Event) : list Request :=
  omap (fun ev => match ev with EvRequest r => Some r | _ => None end) evs.

(** Every settling of a transaction promise by [resolve] comes right
    after the [complete] event of the transaction. *)
Definition resolves_on_complete (evs : list Event) : Prop :=
  ∀ i, evs !! i = Some EvResolve → ∃ j, i = S j ∧ evs !! j = Some EvTxComplete.

(** The mode of the transactions an operation runs. *)
Definition mode_of (op : Operation) : IDBTransactionMode :=
  match op with
  | OpSave _ _ _ _ | OpSaveFromDataUrl _ _ _ _ | OpDelete _ | OpClear => readwrite
  | OpGet _ | OpGetAsDataUrl _ _ | OpGetAsTemporaryUrl _ _ | OpList | OpGetMany _ => readonly
  end.

(** How many transactions an operation runs once the database is open:
    one, but for [getAssetsByIds], which runs one per id, and for
    [saveAssetFromDataUrl] of a URL that cannot be decoded, which runs
    none. *)
Definition transaction_count (op : Operation) : nat :=
  match op with
  | OpGetMany ids => length ids
  | OpSaveFromDataUrl _ _ dataUrl _ =>
      match DataUrl.dataUrlToBlob dataUrl with
      | Return _ => 1
      | Throw _ => 0
      end
  | _ => 1
  end.

(** The record [saveAsset] builds, given the record it found under the
    id, if it looked and found one. *)
Definition saved_record (id : string) (now : Z) (file : Blob) (options : SaveOptions)
    (existing : option StoredAssetRecord) : StoredAssetRecord :=
  mkRecord id
    (or_string (opt_name options) (nullish (blob_name file) "asset"))
    (or_string (opt_type options)
       (or_string (Some (blob_type file)) "application/octet-stream"))
    (blob_size file)
    (nullish (opt_createdAt options) (nullish (rec_createdAt <$> existing) now))
    (nullish (opt_updatedAt options) now)
    file.

(** *** The shape of a trace *)

(** A body made of requests only: it leaves the connection alone, and
    when it throws, what it throws is the error of the request that
    failed last. *)
Definition well_behaved {T} (m : M T) : Prop :=
  ∀ w, ∃ res w1 evs,
    m w = (res, w1, evs)
    ∧ dbPromise w1 = dbPromise w ∧ indexedDB w1 = indexedDB w
    ∧ match res with
      | Return _ => Forall is_request evs
      | Throw e => ∃ pre, evs = pre ++ [EvRequestError e] ∧ Forall is_request pre
      end.

(** A promise with its value forgotten. *)
Definition erase {A} (p : promise A) : promise unit :=
  match p with
  | Fulfilled _ => Fulfilled tt
  | Rejected e => Rejected e
  end.

(** The events of one transaction, and the state of its promise. *)
Inductive tx_shape (mode : IDBTransactionMode) : promise unit → list Event → Prop :=
| shape_complete reqs :
    Forall is_request reqs →
    tx_shape mode (Fulfilled tt)
      (EvTransaction STORE_NAME mode :: reqs ++ [EvTxComplete; EvResolve])
| shape_request_error reqs e :
    Forall is_request reqs →
    tx_shape mode (Rejected e)
      (EvTransaction STORE_NAME mode :: reqs ++ [EvRequestError e; EvAbort; EvReject e])
| shape_abort reqs err :
    Forall is_request reqs →
    tx_shape mode (Rejected (nullish err (NewError "Transaction aborted")))
      (EvTransaction STORE_NAME mode
       :: reqs ++ [EvTxAbort; EvReject (nullish err (NewError "Transaction aborted"))])
| shape_error reqs err :
    Forall is_request reqs →
    tx_shape mode (Rejected (nullish err (NewError "Transaction failed")))
      (EvTransaction STORE_NAME mode
       :: reqs ++ [EvTxError; EvReject (nullish err (NewError "Transaction failed"))]).

(** One call of [runTransaction]: the connection is looked up, and when
    it is there one transaction follows. *)
Definition run_shape (mode : IDBTransactionMode) (w : World) (p : promise unit)
    (evs : list Event) (w' : World) : Prop :=
  ∃ q w1 ev0,
    openDatabase w = (Return q, w1, ev0)
    ∧ match q with
      | Rejected e => p = Rejected e ∧ evs = ev0 ∧ w' = w1
      | Fulfilled _ =>
          ∃ evs1, evs = ev0 ++ evs1 ∧ tx_shape mode p evs1
                  ∧ dbPromise w' = dbPromise w1 ∧ indexedDB w' = indexedDB w1
      end.

(** A sequence of [runTransaction] calls, one after the other. *)
Inductive runs (mode : IDBTransactionMode)
  : World → list (promise unit) → list Event → World → Prop :=
| runs_nil w : runs mode w [] [] w
| runs_cons w p evs w1 ps evs' w2 :
    run_shape mode w p evs w1 →
    runs mode w1 ps evs' w2 →
    runs mode w (p :: ps) (evs ++ evs') w2.

(** The errors of the rejected promises, in order. *)
Definition rejected (ps : list (promise unit)) : list Error :=
  omap (fun p => match p with Rejected e => Some e | Fulfilled _ => None end) ps.

(** How many of the promises are fulfilled. *)
Definition fulfilled (ps : list (promise unit)) : nat :=
  length (omap (fun p => match p with Fulfilled _ => Some tt | Rejected _ => None end) ps).

(** The promise of an operation is rejected with the first rejection
    among its transactions, when there is one. *)
Definition settles (ps : list (promise unit)) (p : promise unit) : Prop :=
  match rejected ps with
  | e :: _ => p = Rejected e
  | [] => True
  end.

(** *** What the operations keep *)

(** The calls of [open] made, in order. *)
Definition open_calls (evs : list Event) : list (string * Z) :=
  omap (fun ev => match ev with EvOpen n v => Some (n, v) | _ => None end) evs.

(** What [saveAsset] writes and the other operations keep: each record
    is stored under its own id (the key path of the object store), its
    type is not empty and its size is the size of its payload. *)
Definition store_ok (m : gmap string StoredAssetRecord) : Prop :=
  ∀ k r, m !! k = Some r →
         rec_id r = k ∧ rec_type r ≠ "" ∧ rec_size r = blob_size (rec_blob r).

(** The platform refuses to open the database with [e]: [open] throws
    it, or the open request fires [error] with it. *)
Definition open_fails (w : World) (e : Error) : Prop :=
  dbPromise w = None
  ∧ (indexedDB w = IDBFactory (OpenThrows e) ∨ indexedDB w = IDBFactory (OpenError e)).

End AssetStore.

(** ** The backup utility *)

Module Backup.

(** *** JSON values *)

#[local] Unset Elimination Schemes.
Inductive JValue : Type :=
| JNull
| JBool (b : bool)
| JNumber (x : PrimFloat.float)
| JString (s : string)
| JArray (items : list JValue)
| JObject (fields : list (string * JValue)).
#[local] Set Elimination Schemes.

(** The value of an own property of an object that [JSON.parse] built
    from [fields]: a repeated key takes its last value. *)
Fixpoint own_property (fields : list (string * JValue)) (k : string) : option JValue :=
  match fields with
  | [] => None
  | (k', v) :: rest =>
      match own_property rest k with
      | Some v' => Some v'
      | None => if decide (k' = k) then Some v else None
      end
  end.

(** [data.k], for a key [k] that no built-in prototype defines (such as
    [version] and [documents]): [undefined] on anything but an object
    that has it, a [TypeError] on [null]. *)
Definition get_property (data : JValue) (k : string) : completion (option JValue) :=
  match data with
  | JNull =>
      Throw (PlatformError "TypeError" ("Cannot read properties of null (reading '" +:+ k +:+ "')"))
  | JObject fields => Return (own_property fields k)
  | _ => Return None
  end.

(** Truthiness; [None] is [undefined]. *)
Definition truthy (v : option JValue) : bool :=
  match v with
  | None => false
  | Some JNull => false
  | Some (JBool b) => b
  | Some (JNumber x) => negb (PrimFloat.is_zero x) && negb (PrimFloat.is_nan x)
  | Some (JString s) => negb (bool_decide (s = ""))
  | Some (JArray _) => true
  | Some (JObject _) => true
  end.

(** [data] is an object with an own property [k]. *)
Definition has_field (data : JValue) (k : string) : Prop :=
  match data with
  | JObject fields => is_Some (own_property fields k)
  | _ => False
  end.

(** *** Import *)

(** A file as [importBackup] meets it: whether the [FileReader] fires
    [error] instead of [load], and what [JSON.parse] makes of the text
    that was read. *)
Record File : Type := mkFile {
  file_unreadable : bool;
  file_json : completion JValue
}.

(** [importBackup(file)].  The promise carries the parsed value as it
    is: [as BackupData] checks nothing. *)
Definition importBackup (file : File) : promise JValue :=
  if file_unreadable file then Rejected (NewError "Failed to read file")
  else
    let body : completion JValue :=
      match file_json file with
      | Throw e => Throw e
      | Return data =>
          match get_property data "version" with
          | Throw e => Throw e
          | Return version =>
              if negb (truthy version) then
                Throw (NewError "Invalid backup file format")
              else
                match get_property data "documents" with
                | Throw e => Throw e
                | Return documents =>
                    if negb (truthy documents) then
                      Throw (NewError "Invalid backup file format")
                    else Return data
                end
          end
      end in
    match body with
    | Return data => Fulfilled data
    | Throw error => Rejected error
    end.

(** *** Restore *)

(** Modelled from the spec: the [Document] type of [./localStorage],
    which is not among the sources ("Document: id, userId, title,
    description, structured content, timestamps"). *)
Record Document : Type := mkDocument {
  doc_id : string;
  doc_userId : string;
  doc_title : string;
  doc_description : string;
  doc_content : string;
  doc_lastModified : string
}.

Record BackupData : Type := mkBackupData {
  version : string;
  timestamp : string;
  documents : list Document
}.

Section Restore.

(** [saveDocument] of [./localStorage] is not among the sources: it is
    any function that changes some storage. *)
Variable Storage : Type.
Variable saveDocument : Document → Storage → Storage.

(** [backup.documents.forEach(doc => { if (doc.userId === userId) saveDocument(doc) })] *)
Definition restoreBackup (backup : BackupData) (userId : string)
    (st : Storage) : Storage :=
  foldl (fun st doc =>
           if decide (doc_userId doc = userId) then saveDocument doc st else st)
        st (documents backup).

End Restore.

(** *** Automatic snapshots *)

Definition PREFIX : string := "auto_backup_".

(** [k.startsWith('auto_backup_')] *)
Definition is_auto_backup (k : string) : bool := String.prefix PREFIX k.

(** [`auto_backup_${Date.now()}`] *)
Definition auto_backup_key (now : N) : string := PREFIX +:+ pretty now.

(** [Object.keys(localStorage).filter(...).sort()]: the default sort
    compares the keys as strings, code unit by code unit. *)
Definition autoBackups (localStorage : gmap string string) : list string :=
  merge_sort String.le
    (filter (fun k => is_auto_backup k = true) (elements (dom localStorage))).

(** One run of the interval callback of [startAutoBackup]: [now] is
    [Date.now()], [snapshot] is [JSON.stringify(createBackup())]. *)
Definition auto_backup_tick (now : N) (snapshot : string)
    (localStorage : gmap string string) : gmap string string :=
  let key := auto_backup_key now in
  let localStorage := <[key := snapshot]> localStorage in
  let autoBackups := autoBackups localStorage in
  if decide (5 < length autoBackups) then
    foldl (fun ls k => delete k ls) localStorage
          (take (length autoBackups - 5) autoBackups)
  else localStorage.

(** The callback run once per element of [ticks], oldest first. *)
Definition auto_backup_run (ticks : list (N * string))
    (localStorage : gmap string string) : gmap string string :=
  foldl (fun ls t => auto_backup_tick t.1 t.2 ls) localStorage ticks.

(** *** Restore, on what [importBackup] resolves with *)

Section RestoreParsed.

Variable Storage : Type.
(** [saveDocument], given whatever the array holds. *)
Variable saveDocument : JValue → Storage → Storage.

(** [doc.userId === userId] *)
Definition owned_by (userId : string) (doc : JValue) : completion bool :=
  match get_property doc "userId" with
  | Throw e => Throw e
  | Return (Some (JString s)) => Return (bool_decide (s = userId))
  | Return _ => Return false
  end.

(** [items.forEach(doc => { if (doc.userId === userId) saveDocument(doc) })];
    an exception ends the loop. *)
Fixpoint restore_each (items : list JValue) (userId : string) (st : Storage)
    : completion unit * Storage :=
  match items with
  | [] => (Return tt, st)
  | doc :: rest =>
      match owned_by userId doc with
      | Throw e => (Throw e, st)
      | Return true => restore_each rest userId (saveDocument doc st)
      | Return false => restore_each rest userId st
      end
  end.

(** [restoreBackup(backup, userId)] once the types are erased: [backup]
    is any parsed value, as [importBackup] passes it on.  Only an array
    has a [forEach]. *)
Definition restoreBackup_parsed (backup : JValue) (userId : string) (st : Storage)
    : completion unit * Storage :=
  match get_property backup "documents" with
  | Throw e => (Throw e, st)
  | Return None =>
      (Throw (PlatformError "TypeError"
                "Cannot read properties of undefined (reading 'forEach')"), st)
  | Return (Some JNull) =>
      (Throw (PlatformError "TypeError"
                "Cannot read properties of null (reading 'forEach')"), st)
  | Return (Some (JArray items)) => restore_each items userId st
  | Return (Some _) =>
      (Throw (PlatformError "TypeError" "backup.documents.forEach is not a function"), st)
  end.

End RestoreParsed.

(** The elements that [restoreBackup] saves for [userId]. *)
Definition is_owned (userId : string) (doc : JValue) : bool :=
  match owned_by userId doc with
  | Return true => true
  | _ => false
  end.

Definition owned (userId : string) (items : list JValue) : list JValue :=
  filter (fun doc => is_owned userId doc = true) items.

(** *** Importing a single document *)

(** [importDocument(file)]; like [importBackup], it passes the parsed
    value on as it is. *)
Definition importDocument (file : File) : promise JValue :=
  if file_unreadable file then Rejected (NewError "Failed to read file")
  else
    let body : completion JValue :=
      match file_json file with
      | Throw e => Throw e
      | Return data =>
          match get_property data "id" with
          | Throw e => Throw e
          | Return id =>
              if negb (truthy id) then
                Throw (NewError "Invalid document file format")
              else
                match get_property data "title" with
                | Throw e => Throw e
                | Return title =>
                    if negb (truthy title) then
                      Throw (NewError "Invalid document file format")
                    else
                      match get_property data "content" with
                      | Throw e => Throw e
                      | Return content =>
                          if negb (truthy content) then
                            Throw (NewError "Invalid document file format")
                          else Return data
                      end
                end
          end
      end in
    match body with
    | Return data => Fulfilled data
    | Throw error => Rejected error
    end.

(** *** Reading the snapshots back *)

(** [s.replace(pat, '')] for a string pattern: the first occurrence of
    [pat] is removed. *)
Fixpoint replace_first (pat s : list ascii) : list ascii :=
  if bool_decide (take (length pat) s = pat) then drop (length pat) s
  else match s with
       | [] => []
       | c :: s' => c :: replace_first pat s'
       end.

(** White space and line terminators among 8-bit code units: TAB, LF,
    VT, FF, CR, SPACE and NBSP. *)
Definition is_white_space (c : ascii) : bool :=
  ((9 <=? code c) && (code c <=? 13)) || (code c =? 32) || (code c =? 160).

Fixpoint trim_start (s : list ascii) : list ascii :=
  match s with
  | c :: s' => if is_white_space c then trim_start s' else s
  | [] => []
  end.

(** The value of a character as a digit in the given radix. *)
Definition digit_value (radix : N) (c : ascii) : option N :=
  let n := N.of_nat (code c) in
  let v := if (48 <=? n)%N && (n <=? 57)%N then Some (n - 48)%N
           else if (97 <=? n)%N && (n <=? 122)%N then Some (n - 87)%N
           else if (65 <=? n)%N && (n <=? 90)%N then Some (n - 55)%N
           else None in
  v ≫= fun d => if (d <? radix)%N then Some d else None.

(** The longest prefix of digits, read in the radix; [acc] is the value
    of the digits read so far, [None] when there are none yet. *)
Fixpoint parse_digits (radix : N) (s : list ascii) (acc : option N) : option N :=
  match s with
  | c :: s' =>
      match digit_value radix c with
      | Some d => parse_digits radix s' (Some (radix * default 0 acc + d)%N)
      | None => acc
      end
  | [] => acc
  end.

(** [parseInt(s)] without a radix, as a mathematical integer; [None] is
    [NaN].  Leading white space is skipped, a sign is read, [0x] or [0X]
    selects radix 16, and the digits end at the first character that is
    not one. *)
Definition parseInt (s : list ascii) : option Z :=
  let s := trim_start s in
  let '(sign, s) := match s with
                    | "-"%char :: s' => ((-1)%Z, s')
                    | "+"%char :: s' => (1%Z, s')
                    | _ => (1%Z, s)
                    end in
  let '(radix, s) := match s with
                     | "0"%char :: "x"%char :: s' => (16%N, s')
                     | "0"%char :: "X"%char :: s' => (16%N, s')
                     | _ => (10%N, s)
                     end in
  match parse_digits radix s None with
  | Some n => Some (sign * Z.of_N n)%Z
  | None => None
  end.

(** The greatest time value of a [Date], in milliseconds. *)
Definition MAX_TIME : Z := 8640000000000000.

(** [new Date(v).getTime()]; [None] is [NaN], the time value of an
    invalid date.  Up to [MAX_TIME] every integer is a double, and
    beyond it every number is clipped to [NaN]. *)
Definition Date_getTime (v : option Z) : option Z :=
  v ≫= fun z => if (Z.abs z <=? MAX_TIME)%Z then Some z else None.

(** An element of the array [getAutoBackups] returns; [ab_timestamp] is
    the time value of the [Date]. *)
Record AutoBackup : Type := mkAutoBackup {
  ab_key : string;
  ab_timestamp : option Z;
  ab_backup : JValue
}.

(** A comparator result greater than zero puts the first argument after
    the second; [NaN] counts as zero. *)
Definition sorts_after (v : option Z) : bool :=
  match v with
  | Some z => (0 <? z)%Z
  | None => false
  end.

Fixpoint sort_insert {A} (cmp : A → A → option Z) (x : A) (l : list A) : list A :=
  match l with
  | [] => [x]
  | y :: l' => if sorts_after (cmp x y) then y :: sort_insert cmp x l' else x :: l
  end.

(** [array.sort(cmp)]: the stable sort.  For a comparator that is not
    consistent the order is left to the implementation; the model then
    gives the order of this insertion sort. *)
Definition Array_sort {A} (cmp : A → A → option Z) (l : list A) : list A :=
  foldr (sort_insert cmp) [] l.

(** [array.map(f)] for an [f] that may throw. *)
Fixpoint map_throwing {A B} (f : A → completion B) (l : list A) : completion (list B) :=
  match l with
  | [] => Return []
  | x :: l' =>
      match f x with
      | Throw e => Throw e
      | Return y =>
          match map_throwing f l' with
          | Throw e => Throw e
          | Return ys => Return (y :: ys)
          end
      end
  end.

Section Snapshots.

(** [JSON.parse] *)
Variable JSON_parse : string → completion JValue.

(** [b.timestamp.getTime() - a.timestamp.getTime()]; only its sign is
    used. *)
Definition newest_first (a b : AutoBackup) : option Z :=
  match ab_timestamp b, ab_timestamp a with
  | Some tb, Some ta => Some (tb - ta)%Z
  | _, _ => None
  end.

(** [getAutoBackups()] *)
Definition getAutoBackups (localStorage : gmap string string)
    : completion (list AutoBackup) :=
  let keys := filter (fun k => is_auto_backup k = true) (elements (dom localStorage)) in
  match map_throwing
          (fun key =>
             match JSON_parse (or_string (localStorage !! key) "{}") with
             | Throw e => Throw e
             | Return backup =>
                 let timestamp :=
                   Date_getTime
                     (parseInt (replace_first (String.list_ascii_of_string PREFIX)
                                              (String.list_ascii_of_string key))) in
                 Return (mkAutoBackup key timestamp backup)
             end) keys with
  | Throw e => Throw e
  | Return backups => Return (Array_sort newest_first backups)
  end.

End Snapshots.

(** One entry is not older than the other; both dates are valid. *)
Definition not_older (a b : AutoBackup) : Prop :=
  ∃ ta tb, ab_timestamp a = Some ta ∧ ab_timestamp b = Some tb ∧ (tb ≤ ta)%Z.

(** *** The timer *)

(** The interval timers this module has set and not cleared, by handle,
    with their period in milliseconds; the handle the platform gives
    next; and the module variable [autoBackupInterval]. *)
Record Timers : Type := mkTimers {
  timers_active : gmap positive Z;
  timers_next : positive;
  autoBackupInterval : option positive
}.

Definition no_timers : Timers := mkTimers ∅ 1 None.

Definition setInterval (ms : Z) (t : Timers) : positive * Timers :=
  (timers_next t,
   mkTimers (<[timers_next t := ms]> (timers_active t)) (Pos.succ (timers_next t))
            (autoBackupInterval t)).

Definition clearInterval (handle : positive) (t : Timers) : Timers :=
  mkTimers (delete handle (timers_active t)) (timers_next t) (autoBackupInterval t).

Definition stopAutoBackup (t : Timers) : Timers :=
  match autoBackupInterval t with
  | Some handle =>
      let t := clearInterval handle t in
      mkTimers (timers_active t) (timers_next t) None
  | None => t
  end.

(** [startAutoBackup(intervalMinutes = 10)] *)
Definition startAutoBackup (intervalMinutes : option Z) (t : Timers) : Timers :=
  let t := stopAutoBackup t in
  let '(handle, t) := setInterval (nullish intervalMinutes 10 * 60 * 1000)%Z t in
  mkTimers (timers_active t) (timers_next t) (Some handle).

Inductive TimerCall : Type :=
| Start (intervalMinutes : option Z)
| Stop.

Definition timer_call (t : Timers) (c : TimerCall) : Timers :=
  match c with
  | Start m => startAutoBackup m t
  | Stop => stopAutoBackup t
  end.

(** What the module keeps true of its timers: the only timer alive is
    the one [autoBackupInterval] holds, and the platform has not yet
    given out the next handle. *)
Definition timers_ok (t : Timers) : Prop :=
  match autoBackupInterval t with
  | Some h => ∃ ms, timers_active t = {[h := ms]}
  | None => timers_active t = ∅
  end.

End Backup.

(** ** The auth hook *)

Module Auth.

(** The error object of the auth client. *)
Record AuthError : Type := mkAuthError {
  status : option Z;
  message : string
}.

(** What one call to the backend resolves with: [{ data, error }]. *)
Record Response (D : Type) : Type := mkResponse {
  resp_data : D;
  resp_error : option AuthError
}.
Arguments mkResponse {D} _ _.
Arguments resp_data {D} _.
Arguments resp_error {D} _.

(** What [signIn] and [signUp] resolve with. *)
Record Result (D : Type) : Type := mkResult {
  data : option D;
  error : option AuthError
}.
Arguments mkResult {D} _ _.
Arguments data {D} _.
Arguments error {D} _.

Inductive Event : Type :=
| Call (attempt : nat)
| Delay (ms : Z).

(** [error?.status === 503 ||
     /Service Unavailable|network|fetch failed/i.test(error.message)] *)
Definition is_transient (e : AuthError) : bool :=
  bool_decide (status e = Some 503%Z)
  || contains_ci (chars "Service Unavailable") (chars (message e))
  || contains_ci (chars "network") (chars (message e))
  || contains_ci (chars "fetch failed") (chars (message e)).

Section Retry.

Context {D : Type}.

(** The answers of the backend to one request sent again and again:
    [call i] is what the call of attempt [i] resolves with. *)
Variable call : nat → Response D.

(** [for (let attempt = 0; attempt < 3; attempt++) { ... }], with
    [fuel = 3 - attempt] rounds left, followed by
    [return { data: null, error: lastError }]. *)
Fixpoint attempt_loop (fuel attempt : nat) (lastError : option AuthError)
    : Result D * list Event :=
  match fuel with
  | 0 => (mkResult None lastError, [])
  | S fuel' =>
      let r := call attempt in
      match resp_error r with
      | None => (mkResult (Some (resp_data r)) None, [Call attempt])
      | Some error =>
          if is_transient error then
            let (res, evs) := attempt_loop fuel' (S attempt) (Some error) in
            (res, Call attempt :: Delay (400 * 2 ^ Z.of_nat attempt) :: evs)
          else (mkResult None (Some error), [Call attempt])
      end
  end.

End Retry.

Record SignInRequest : Type := mkSignIn {
  si_email : string;
  si_password : string
}.

Record SignUpRequest : Type := mkSignUp {
  su_email : string;
  su_password : string;
  su_emailRedirectTo : string;
  su_mobile_number : string
}.

Section Hook.

Context {D : Type}.

(** [supabase.auth.signInWithPassword] and [supabase.auth.signUp]:
    for a request, the sequence of answers. *)
Variable signInWithPassword : SignInRequest → nat → Response D.
Variable auth_signUp : SignUpRequest → nat → Response D.

Definition signIn (mobileNumber password : string)
    : promise (Result D) * list Event :=
  let email := mobileNumber +:+ "@app.local" in
  let (res, evs) :=
    attempt_loop (signInWithPassword (mkSignIn email password)) 3 0 None in
  (Fulfilled res, evs).

(** [origin] is [window.location.origin], [baseUrl] is
    [import.meta.env.BASE_URL]. *)
Definition signUp (origin baseUrl : string) (mobileNumber password : string)
    : promise (Result D) * list Event :=
  let redirectUrl := origin +:+ baseUrl in
  let email := mobileNumber +:+ "@app.local" in
  let (res, evs) :=
    attempt_loop (auth_signUp (mkSignUp email password redirectUrl mobileNumber))
                 3 0 None in
  (Fulfilled res, evs).

End Hook.

(** The attempts made, in order. *)
Definition calls (evs : list Event) : list nat :=
  omap (fun ev => match ev with Call i => Some i | Delay _ => None end) evs.

(** The attempts and the waits of a loop that runs to its end: attempt
    [i], then [delay(400 * Math.pow(2, i))], for [i] from 0 to 2. *)
Definition schedule : list Event :=
  flat_map (fun attempt => [Call attempt; Delay (400 * 2 ^ Z.of_nat attempt)]) (seq 0 3).

(** What is claimed of the retry loop, for the answers [call] of the
    backend, the result [res] and the events [evs] that led to it:
    - one to three attempts, numbered from 0;
    - the events are a beginning of the [schedule], and there is a first
      attempt;
    - an attempt after the first only after a transient failure of the
      one before and the delay that belongs to it;
    - a transient failure is followed by its delay and, unless it is the
      failure of the third attempt, by the next attempt; the transient
      failure of the third attempt is what is returned;
    - a failure that is not transient, or a success, ends the loop on
      the spot and is what is returned. *)
Definition retry_spec {D} (call : nat → Response D) (res : Result D)
    (evs : list Event) : Prop :=
  (∃ n, 1 ≤ n ≤ 3 ∧ calls evs = seq 0 n)
  ∧ (evs ≠ [] ∧ evs `prefix_of` schedule)
  ∧ (∀ i, Call (S i) ∈ evs →
       (∃ e, resp_error (call i) = Some e ∧ is_transient e = true)
       ∧ ∃ pre post, evs = pre ++ [Call i; Delay (400 * 2 ^ Z.of_nat i); Call (S i)] ++ post)
  ∧ (∀ i e, Call i ∈ evs → resp_error (call i) = Some e → is_transient e = true →
       Delay (400 * 2 ^ Z.of_nat i) ∈ evs
       ∧ (i < 2 → Call (S i) ∈ evs)
       ∧ (i = 2 → res = mkResult None (Some e)))
  ∧ (∀ i e, Call i ∈ evs → resp_error (call i) = Some e → is_transient e = false →
       res = mkResult None (Some e) ∧ last evs = Some (Call i))
  ∧ (∀ i, Call i ∈ evs → resp_error (call i) = None →
       res = mkResult (Some (resp_data (call i))) None ∧ last evs = Some (Call i)).

(** *** The state of the hook *)

(** [useState<User | null>(null)]: the [user] that [useAuth()] hands to
    a component at its first render, whether or not a session is
    stored; the hook sets it later, from [getSession()]. *)
Definition initial_user {U} : option U := None.

(** *** Giving up *)

(** The milliseconds waited, in all. *)
Definition total_delay (evs : list Event) : Z :=
  foldr (fun ev acc => match ev with
                       | Delay ms => (ms + acc)%Z
                       | Call _ => acc
                       end) 0%Z evs.

(** *** Resetting *)

(** [try { body } catch {}]: whatever [body] throws is dropped. *)
Definition swallow {A} (body : completion A) : completion unit :=
  match body with
  | Return _ => Return tt
  | Throw _ => Return tt
  end.

(** [k.startsWith('sb-')] *)
Definition is_auth_key (k : string) : bool := String.prefix "sb-" k.

(** [Object.keys(localStorage).forEach(k => { if (k.startsWith('sb-'))
    localStorage.removeItem(k) })].  [blocked] is the error that reading
    [localStorage] throws in a browser that denies access to it. *)
Definition remove_auth_keys (blocked : option Error) (localStorage : gmap string string)
    : completion unit * gmap string string :=
  match blocked with
  | Some e => (Throw e, localStorage)
  | None =>
      (Return tt,
       foldl (fun ls k => if is_auth_key k then delete k ls else ls)
             localStorage (elements (dom localStorage)))
  end.

Section Reset.

(** [supabase.auth.signOut()]: it throws, or it returns a promise that
    is fulfilled or rejected; and what it leaves in [localStorage]. *)
Variable auth_signOut :
  gmap string string → completion (promise unit) * gmap string string.

(** [resetAuth()] *)
Definition resetAuth (blocked : option Error) (localStorage : gmap string string)
    : promise unit * gmap string string :=
  let '(called, localStorage) := auth_signOut localStorage in
  let awaited : completion unit :=
    match called with
    | Return (Fulfilled _) => Return tt
    | Return (Rejected e) => Throw e
    | Throw e => Throw e
    end in
  match swallow awaited with
  | Throw e => (Rejected e, localStorage)
  | Return _ =>
      let '(removed, localStorage) := remove_auth_keys blocked localStorage in
      match swallow removed with
      | Throw e => (Rejected e, localStorage)
      | Return _ => (Fulfilled tt, localStorage)
      end
  end.

End Reset.

End Auth.

(** ** The pages *)

(** What the login page and the start page do with the hook and the
    backup utility. *)
Module Pages.

Import Auth Backup.

(** *** Stale tokens *)

(** [pat] occurs in [s]: [s.includes(pat)]. *)
Fixpoint includes (pat s : list ascii) : bool :=
  bool_decide (take (length pat) s = pat)
  || match s with
     | [] => false
     | _ :: s' => includes pat s'
     end.

(** [Object.keys(localStorage).some(k => k.startsWith("sb-") &&
    k.includes("auth"))] *)
Definition hasStale (localStorage : gmap string string) : bool :=
  existsb (fun k => is_auth_key k && includes (chars "auth") (chars k))
          (elements (dom localStorage)).

Section StaleTokens.

Variable auth_signOut :
  gmap string string → completion (promise unit) * gmap string string.

(** The effect of the login page that clears stale tokens, run to the
    end of the [resetAuth] it may start.  [user] is the state of the
    hook at the render the effect follows: [initial_user] at the first
    render, a user only once the hook has read the session. *)
Definition clear_stale_tokens {U} (user : option U) (blocked : option Error)
    (localStorage : gmap string string) : completion unit * gmap string string :=
  match user with
  | Some _ => (Return tt, localStorage)
  | None =>
      match blocked with
      | Some e => (Throw e, localStorage)
      | None =>
          if hasStale localStorage
          then (Return tt, (resetAuth auth_signOut None localStorage).2)
          else (Return tt, localStorage)
      end
  end.

End StaleTokens.

(** *** The login form *)

(** What the login form does, in order: calls on React and the toaster,
    and what [signIn] does meanwhile. *)
Inductive UiEvent : Type :=
| PreventDefault
| SetLoading (loading : bool)
| ToastError (text : string)
| ToastSuccess (text : string)
| Navigate (path : string)
| Backend (ev : Event).

Section Login.

Context {D : Type}.

(** The [signIn] that [useAuth()] hands to the page. *)
Variable hook_signIn : string → string → promise (Result D) * list Event.

(** [handleLogin(e)], with the form fields [mobileNumber] and
    [password] as the state holds them. *)
Definition handleLogin (mobileNumber password : string)
    : promise unit * list UiEvent :=
  let started := [PreventDefault; SetLoading true] in
  if bool_decide (mobileNumber = "") || bool_decide (password = "") then
    (Fulfilled tt, started ++ [ToastError "Please fill in all fields"; SetLoading false])
  else
    let '(settled, evs) := hook_signIn mobileNumber password in
    match settled with
    | Rejected e => (Rejected e, started ++ (Backend <$> evs))
    | Fulfilled res =>
        let shown :=
          match error res with
          | Some error =>
              let isTransient := is_transient error in
              [ToastError
                 (if isTransient
                  then "The backend is temporarily unavailable. Please try again in a moment."
                  else or_string (Some (message error))
                                 "Login failed. Please check your credentials.")]
          | None => [ToastSuccess "Login successful!"; Navigate "/"]
          end in
        (Fulfilled tt, started ++ (Backend <$> evs) ++ shown ++ [SetLoading false])
    end.

End Login.

(** The attempts the backend saw while the form was handled. *)
Definition backend_calls (evs : list UiEvent) : list nat :=
  omap (fun ev => match ev with Backend (Call i) => Some i | _ => None end) evs.

(** *** Importing a document on the start page *)

(** The own enumerable properties of a parsed value, as an object
    spread copies them: the members of an object, the elements of an
    array under their indices, the characters of a string under
    theirs. *)
Definition spread (v : JValue) : list (string * JValue) :=
  match v with
  | JObject fields => fields
  | JArray items => imap (fun i x => (pretty i, x)) items
  | JString s => imap (fun i c => (pretty i, JString (String c ""))) (chars s)
  | _ => []
  end.

Inductive ImportEvent : Type :=
| SaveDocument (doc : JValue)
| LoadProjects
| Toast (title : string)
| ResetInput.

Section ImportDocument.

Variable Storage : Type.
(** [saveDocument] of [lib/localStorage]: it may throw, as
    [localStorage.setItem] may. *)
Variable saveDocument : JValue → Storage → completion unit * Storage.

(** [handleImportDocument(e)].  [file] is [e.target.files?.[0]], [user]
    the id of the signed-in user, [fresh] what [generateId()] returns,
    [now] is [new Date().toISOString()], [loaded] how [loadProjects()]
    ends, and [mounted] whether the file input is still there.  The
    object literal [{ ...document, id, userId, lastModified }] lists
    what the spread copies first and the three properties written after
    it last: read with [own_property], the later entry wins, as the
    later property of the literal does.  The order in which the object
    enumerates its keys is not modelled. *)
Definition handleImportDocument (file : option File) (user : option string)
    (fresh now : string) (loaded : completion unit) (mounted : bool) (st : Storage)
    : Storage * list ImportEvent :=
  match file, user with
  | Some file, Some user_id =>
      let failed := [Toast "Import Failed"] in
      let '(st, evs) :=
        match importDocument file with
        | Rejected _ => (st, failed)
        | Fulfilled document =>
            let newDocument :=
              JObject (spread document
                       ++ [("id", JString fresh);
                           ("userId", JString user_id);
                           ("lastModified", JString now)]) in
            match saveDocument newDocument st with
            | (Throw _, st) => (st, SaveDocument newDocument :: failed)
            | (Return _, st) =>
                match loaded with
                | Throw _ => (st, [SaveDocument newDocument; LoadProjects] ++ failed)
                | Return _ =>
                    (st, [SaveDocument newDocument; LoadProjects; Toast "Document Imported"])
                end
            end
        end in
      (st, evs ++ (if mounted then [ResetInput] else []))
  | _, _ => (st, [])
  end.

End ImportDocument.

(** The documents handed to [saveDocument], in order. *)
Definition saved (evs : list ImportEvent) : list JValue :=
  omap (fun ev => match ev with SaveDocument doc => Some doc | _ => None end) evs.

End Pages.

(** ** Sample inputs *)

Module Samples.

Import AssetStore.

(** A text blob of five bytes. *)
Definition text_blob : Blob :=
  DataUrl.new_Blob (String.list_byte_of_string "hello") "text/plain;charset=utf-8".

(** A blob of two bytes without a MIME type. *)
Definition typeless_blob : Blob :=
  DataUrl.new_Blob (String.list_byte_of_string "hi") "".

(** A backup file whose [version] is the empty string. *)
Definition empty_version_file : Backup.File :=
  Backup.mkFile false
    (Return (Backup.JObject [("version", Backup.JString EmptyString);
                             ("documents", Backup.JArray [])])).

(** A platform on which everything works, with an empty store. *)
Definition calm_world : World := mkWorld None (IDBFactory OpenSuccess) ∅ [] [].

(** A browser without [indexedDB]. *)
Definition bare_world : World := mkWorld None IDBUndefined ∅ [] [].

(** An error of the platform. *)
Definition boom : Error := PlatformError "UnknownError" "The request failed.".

(** The first request placed fails. *)
Definition failing_world : World :=
  mkWorld None (IDBFactory OpenSuccess) ∅ [Some boom] [].



(** A store that holds one asset, saved at time 1. *)
Definition logo : StoredAssetRecord :=
  mkRecord "logo" "logo.txt" "text/plain;charset=utf-8" 5 1 1 text_blob.

Definition logo_world : World :=
  mkWorld (Some (Fulfilled TheDatabase)) (IDBFactory OpenSuccess) {["logo" := logo]} [] [].

(** Six snapshots, ten minutes apart, on a machine whose clock was reset
    to the epoch two hours before the first: the time of the sixth has one
    digit more than the times of the other five. *)
Definition six_ticks : list (N * string) :=
  [(7200000%N, "s1"); (7800000%N, "s2"); (8400000%N, "s3");
   (9000000%N, "s4"); (9600000%N, "s5"); (10200000%N, "s6")].

(** Six snapshots, ten minutes apart, on a clock that keeps its thirteen
    digits throughout. *)
Definition steady_ticks : list (N * string) :=
  [(1700000000000%N, "s1"); (1700000600000%N, "s2"); (1700001200000%N, "s3");
   (1700001800000%N, "s4"); (1700002400000%N, "s5"); (1700003000000%N, "s6")].

(** A bundle with the documents of two users. *)
Definition ana_notes : Backup.Document :=
  Backup.mkDocument "d1" "ana" "Notes" "" "{}" "2024-01-01T00:00:00.000Z".
Definition ben_plan : Backup.Document :=
  Backup.mkDocument "d2" "ben" "Plan" "" "{}" "2024-01-02T00:00:00.000Z".
Definition ana_draft : Backup.Document :=
  Backup.mkDocument "d3" "ana" "Draft" "" "{}" "2024-01-03T00:00:00.000Z".
Definition two_owner_backup : Backup.BackupData :=
  Backup.mkBackupData "1.0" "2024-01-04T00:00:00.000Z" [ana_notes; ben_plan; ana_draft].

(** A backend that answers 503 to the first attempt and signs the user
    in at the second. *)
Definition unavailable_once (attempt : nat) : Auth.Response string :=
  match attempt with
  | 0 => Auth.mkResponse "" (Some (Auth.mkAuthError (Some 503%Z) "upstream error"))
  | _ => Auth.mkResponse "session" None
  end.

End Samples.
Export Samples.

(** * Properties *)

(** ** The asset store: transactions *)

Section Transactions.

Import AssetStore.

Lemma openDatabase_memo w q :
  dbPromise w = Some q → openDatabase w = (Return q, w, []).
Proof. unfold openDatabase. by intros ->. Qed.

Lemma openDatabase_undefined w :
  dbPromise w = None → indexedDB w = IDBUndefined →
  let e := NewError "IndexedDB is not supported in this environment." in
  openDatabase w = (Return (Rejected e), set_dbPromise (Rejected e) w, [EvGetIndexedDB]).
Proof.
  unfold openDatabase, async, bind, getIndexedDB. by intros -> ->.
Qed.

(** [openDatabase] never throws; it leaves the promise it returns in
    [dbPromise], and that promise is fulfilled exactly when the database
    opens. *)
Lemma openDatabase_result w :
  ∃ q w1 ev0,
    openDatabase w = (Return q, w1, ev0)
    ∧ dbPromise w1 = Some q
    ∧ indexedDB w1 = indexedDB w
    ∧ assets w1 = assets w ∧ faults w1 = faults w ∧ fates w1 = fates w
    ∧ Forall is_open_event ev0
    ∧ (opens w ↔ q = Fulfilled TheDatabase).
Proof.
  unfold openDatabase, opens.
  destruct w as [[q|] idb m fs ft]; cbn.
  - exists q, (mkWorld (Some q) idb m fs ft), []. split_and!; try done.
    split; [intros [?|[? ?]]; by simplify_eq | intros ->; by left].
  - unfold async, bind, getIndexedDB; cbn.
    destruct idb as [|[e|e|]]; cbn; eexists _, _, _; (split; [reflexivity|]);
      cbn; split_and!; try done; try (repeat constructor; done).
    all: split; [intros [?|[? ?]]; by simplify_eq | intros ?; simplify_eq; by right].
Qed.

Lemma well_behaved_ret {T} (a : T) : well_behaved (ret a).
Proof. intros w. exists (Return a), w, []. by split_and!. Qed.

Lemma well_behaved_bind {A B} (m : M A) (k : A → M B) :
  well_behaved m → (∀ a, well_behaved (k a)) → well_behaved (bind m k).
Proof.
  intros Hm Hk w. unfold bind.
  destruct (Hm w) as (res & w1 & evs & -> & Hdb & Hidb & Hres).
  destruct res as [a|e].
  - destruct (Hk a w1) as (res2 & w2 & evs2 & -> & Hdb2 & Hidb2 & Hres2).
    exists res2, w2, (evs ++ evs2). split_and!; [done|congruence|congruence|].
    destruct res2 as [b|e].
    + by apply Forall_app.
    + destruct Hres2 as (pre & -> & Hpre). exists (evs ++ pre).
      split; [by rewrite app_assoc|]. by apply Forall_app.
  - by exists (Throw e), w1, evs.
Qed.

Lemma well_behaved_resolveDeferred {A} store r
    (run : gmap string StoredAssetRecord → A * gmap string StoredAssetRecord) :
  (is_write r = true → os_mode store = readwrite) →
  well_behaved (resolveDeferred store r run).
Proof.
  intros Hmode w. unfold resolveDeferred.
  assert (Hgo : ∀ X (x y : X),
    match os_mode store, is_write r with
    | readonly, true => x
    | _, _ => y
    end = y).
  { intros X x y. destruct (os_mode store) eqn:Hm, (is_write r) eqn:Hw; try done.
    specialize (Hmode eq_refl). congruence. }
  rewrite Hgo.
  destruct (faults w) as [|[e|] fs]; cbn.
  - destruct (run (assets w)) as [a m]. eexists _, _, _. split; [reflexivity|].
    split_and!; try done. repeat constructor.
  - eexists _, _, _. split; [reflexivity|]. split_and!; try done.
    exists [EvRequest r]. split; [done|]. repeat constructor.
  - destruct (run (assets w)) as [a m]. eexists _, _, _. split; [reflexivity|].
    split_and!; try done. repeat constructor.
Qed.

Lemma runTransaction_shape {T} mode (ex : IDBObjectStore → M T) w :
  well_behaved (ex (mkStore STORE_NAME mode)) →
  ∃ p w' evs,
    runTransaction mode ex w = (Return p, w', evs)
    ∧ run_shape mode w (erase p) evs w'.
Proof.
  intros Hex. unfold runTransaction, run_shape, async, bind.
  destruct (openDatabase_result w) as (q & w1 & ev0 & Ho & Hq & Hidb & _ & _ & _ & Hev & _).
  rewrite Ho. destruct q as [db|e]; cbn.
  - destruct (Hex w1) as (res & w2 & evs & -> & Hdb2 & Hidb2 & Hres).
    destruct res as [a|e].
    + unfold next_fate. destruct (fates w2) as [|[|err|err] ft]; cbn;
        eexists _, _, _; (split; [reflexivity|]);
        eexists _, _, _; (split; [reflexivity|]); cbn;
        eexists; (split; [by rewrite app_nil_r|]);
        (split; [by constructor|]); done.
    + destruct Hres as (pre & -> & Hpre).
      eexists _, _, _; (split; [reflexivity|]).
      eexists _, _, _; (split; [reflexivity|]); cbn.
      eexists; (split; [by rewrite app_nil_r|]).
      split; [|done]. rewrite <- app_assoc. by constructor.
  - eexists _, _, _; (split; [reflexivity|]).
    eexists _, _, _; (split; [reflexivity|]); cbn. by rewrite app_nil_r.
Qed.

Lemma forget_eq {A} (m : M (promise A)) w p w' evs :
  m w = (Return p, w', evs) → forget m w = (Return (erase p), w', evs).
Proof. unfold forget. intros ->. by destruct p. Qed.

Lemma omap_none {A B} (f : A → option B) l :
  Forall (fun x => f x = None) l → omap f l = [].
Proof. induction 1 as [|x l Hx _ IH]; cbn; [done|]. by rewrite Hx. Qed.

Lemma requests_silent {B} (f : Event → option B) reqs :
  (∀ r, f (EvRequest r) = None) → Forall is_request reqs → omap f reqs = [].
Proof.
  intros Hf Hr. apply omap_none. eapply Forall_impl; [exact Hr|].
  intros [] Hx; first [done | apply Hf].
Qed.

Lemma open_events_silent {B} (f : Event → option B) ev0 :
  f EvGetIndexedDB = None → (∀ n v, f (EvOpen n v) = None) →
  Forall is_open_event ev0 → omap f ev0 = [].
Proof.
  intros H1 H2 Hr. apply omap_none. eapply Forall_impl; [exact Hr|].
  intros [] Hx; first [done | apply H2].
Qed.

Lemma run_shape_opens mode w p evs w1 :
  run_shape mode w p evs w1 →
  (opens w → dbPromise w1 = Some (Fulfilled TheDatabase)
             ∧ ∃ ev0 evs1, Forall is_open_event ev0 ∧ evs = ev0 ++ evs1
                           ∧ tx_shape mode p evs1)
  ∧ (¬ opens w → ∃ e, p = Rejected e ∧ dbPromise w1 = Some (Rejected e)
                      ∧ Forall is_open_event evs).
Proof.
  intros (q & w0 & ev0 & Ho & Hq).
  destruct (openDatabase_result w) as (q' & w0' & ev0' & Ho' & Hdb & _ & _ & _ & _ & Hev & Hiff).
  rewrite Ho in Ho'. injection Ho' as <- <- <-.
  split.
  - intros Hop. apply Hiff in Hop as ->.
    destruct Hq as (evs1 & -> & Hs & Hdb' & _). split; [congruence|]. eauto.
  - intros Hop. destruct q as [[]|e]; [by destruct Hop; apply Hiff|].
    destruct Hq as (-> & -> & ->). eauto.
Qed.

Lemma opens_memo w : dbPromise w = Some (Fulfilled TheDatabase) → opens w.
Proof. by left. Qed.

Lemma not_opens_memo w e : dbPromise w = Some (Rejected e) → ¬ opens w.
Proof. intros H [H'|[H' _]]; congruence. Qed.

Lemma tx_shape_transactions mode p evs :
  tx_shape mode p evs → transactions evs = [(STORE_NAME, mode)].
Proof.
  unfold transactions.
  destruct 1; cbn; rewrite omap_app; by rewrite requests_silent.
Qed.

Lemma tx_shape_rejections mode p evs :
  tx_shape mode p evs → rejections evs = rejected [p].
Proof.
  unfold rejections.
  destruct 1; cbn; rewrite omap_app; by rewrite requests_silent.
Qed.

Lemma tx_shape_completions mode p evs :
  tx_shape mode p evs → completions evs = fulfilled [p].
Proof.
  unfold completions.
  destruct 1; cbn; rewrite omap_app; by rewrite requests_silent.
Qed.

Lemma runs_open mode w ps evs w' :
  runs mode w ps evs w' → opens w →
  transactions evs = replicate (length ps) (STORE_NAME, mode)
  ∧ rejections evs = rejected ps
  ∧ completions evs = fulfilled ps.
Proof.
  induction 1 as [w|w p evs w1 ps evs' w2 Hrun _ IH]; intros Hop; [done|].
  apply run_shape_opens in Hrun as [Hrun _].
  destruct (Hrun Hop) as (Hdb & ev0 & evs1 & Hev & -> & Hs).
  destruct (IH (opens_memo _ Hdb)) as (IHt & IHr & IHc).
  unfold transactions, rejections, completions, rejected, fulfilled in *.
  rewrite !omap_app, !length_app. cbn [length omap].
  rewrite !(open_events_silent _ ev0) by done.
  split_and!.
  - rewrite IHt. fold (transactions evs1). by rewrite (tx_shape_transactions _ _ _ Hs).
  - rewrite IHr. fold (rejections evs1). rewrite (tx_shape_rejections _ _ _ Hs).
    by destruct p.
  - rewrite IHc. fold (completions evs1). rewrite (tx_shape_completions _ _ _ Hs).
    by destruct p.
Qed.

Lemma runs_closed mode w ps evs w' :
  runs mode w ps evs w' → ¬ opens w →
  transactions evs = [] ∧ rejections evs = [] ∧ completions evs = 0
  ∧ fulfilled ps = 0.
Proof.
  induction 1 as [w|w p evs w1 ps evs' w2 Hrun _ IH]; intros Hop; [done|].
  apply run_shape_opens in Hrun as [_ Hrun].
  destruct (Hrun Hop) as (e & -> & Hdb & Hev).
  destruct (IH (not_opens_memo _ _ Hdb)) as (IHt & IHr & IHc & IHf).
  unfold transactions, rejections, completions, fulfilled in *.
  rewrite !omap_app, !length_app, !(open_events_silent _ evs) by done.
  cbn. by rewrite IHt, IHr, IHc.
Qed.

Lemma resolves_on_complete_app a b :
  resolves_on_complete a → resolves_on_complete b → resolves_on_complete (a ++ b).
Proof.
  intros Ha Hb i Hi. apply lookup_app_Some in Hi as [Hi|[Hlen Hi]].
  - destruct (Ha i Hi) as (j & -> & Hj). exists j. split; [done|].
    by apply lookup_app_l_Some.
  - destruct (Hb _ Hi) as (j & Hij & Hj). exists (length a + j). split; [lia|].
    rewrite lookup_app_r by lia. by replace (length a + j - length a) with j by lia.
Qed.

Lemma resolves_on_complete_none evs :
  EvResolve ∉ evs → resolves_on_complete evs.
Proof. intros Hn i Hi. destruct Hn. by eapply list_elem_of_lookup_2. Qed.

Lemma requests_not_in reqs ev :
  Forall is_request reqs → ¬ is_request ev → ev ∉ reqs.
Proof. intros Hr Hn Hin. rewrite Forall_forall in Hr. by apply Hn, Hr. Qed.

Lemma open_events_not_in ev0 ev :
  Forall is_open_event ev0 → ¬ is_open_event ev → ev ∉ ev0.
Proof. intros Hr Hn Hin. rewrite Forall_forall in Hr. by apply Hn, Hr. Qed.

Lemma tx_shape_resolves mode p evs :
  tx_shape mode p evs → resolves_on_complete evs.
Proof.
  assert (Hpair : resolves_on_complete [EvTxComplete; EvResolve]).
  { intros [|[|i]] Hi; try done. by exists 0. }
  assert (Hone : ∀ ev, ev ≠ EvResolve → resolves_on_complete [ev]).
  { intros ev Hne. apply resolves_on_complete_none. intros Hin%list_elem_of_singleton. congruence. }
  destruct 1 as [reqs Hr|reqs e Hr|reqs err Hr|reqs err Hr].
  all: change (EvTransaction STORE_NAME mode :: reqs ++ ?tl)
         with ([EvTransaction STORE_NAME mode] ++ reqs ++ tl).
  all: apply resolves_on_complete_app; [exact (Hone (EvTransaction STORE_NAME mode) ltac:(done))|].
  all: apply resolves_on_complete_app;
         [apply resolves_on_complete_none, (requests_not_in _ _ Hr); by intros []|].
  - done.
  - apply resolves_on_complete_none.
    intros Hin. repeat (apply elem_of_cons in Hin as [Hin|Hin]; [done|]).
    by apply elem_of_nil in Hin.
  - apply resolves_on_complete_none.
    intros Hin. repeat (apply elem_of_cons in Hin as [Hin|Hin]; [done|]).
    by apply elem_of_nil in Hin.
  - apply resolves_on_complete_none.
    intros Hin. repeat (apply elem_of_cons in Hin as [Hin|Hin]; [done|]).
    by apply elem_of_nil in Hin.
Qed.


Lemma run_shape_cases mode w p evs w1 :
  run_shape mode w p evs w1 →
  (opens w ∧ dbPromise w1 = Some (Fulfilled TheDatabase)
   ∧ ∃ ev0 evs1, Forall is_open_event ev0 ∧ evs = ev0 ++ evs1 ∧ tx_shape mode p evs1)
  ∨ (¬ opens w ∧ ∃ e, p = Rejected e ∧ dbPromise w1 = Some (Rejected e)
     ∧ Forall is_open_event evs
     ∧ (∀ e0, dbPromise w = Some (Rejected e0) → e = e0 ∧ evs = [] ∧ w1 = w)
     ∧ (dbPromise w = None → indexedDB w = IDBUndefined →
        e = NewError "IndexedDB is not supported in this environment."
        ∧ evs = [EvGetIndexedDB])).
Proof.
  intros (q & w0 & ev0 & Ho & Hq).
  destruct (openDatabase_result w) as (q' & w0' & ev0' & Ho' & Hdb & _ & _ & _ & _ & Hev & Hiff).
  rewrite Ho in Ho'. injection Ho' as <- <- <-.
  destruct q as [[]|e].
  - left. destruct Hq as (evs1 & -> & Hs & Hdb' & _).
    split; [by apply Hiff|]. split; [congruence|]. eauto.
  - right. destruct Hq as (-> & -> & ->).
    split; [intros Hop%Hiff; done|]. exists e. split_and!; try done.
    + intros e0 Hm. rewrite (openDatabase_memo _ _ Hm) in Ho. by injection Ho as <- <- <-.
    + intros Hn Hu. rewrite (openDatabase_undefined _ Hn Hu) in Ho.
      by injection Ho as <- <- <-.
Qed.


Lemma runs_resolves mode w ps evs w' :
  runs mode w ps evs w' → resolves_on_complete evs.
Proof.
  induction 1 as [w|w p evs w1 ps evs' w2 Hrun _ IH].
  { by intros i Hi. }
  apply resolves_on_complete_app; [|done].
  apply run_shape_cases in Hrun
    as [(_ & _ & ev0 & evs1 & Hev & -> & Hs)|(_ & e' & _ & _ & Hev & _)].
  - apply resolves_on_complete_app; [|by eapply tx_shape_resolves].
    apply resolves_on_complete_none, (open_events_not_in _ _ Hev). by intros [].
  - apply resolves_on_complete_none, (open_events_not_in _ _ Hev). by intros [].
Qed.

(** Once the connection promise is rejected, nothing is asked of the
    platform again. *)
Lemma runs_rejected_memo mode w ps evs w' e :
  runs mode w ps evs w' → dbPromise w = Some (Rejected e) →
  Forall (fun p => p = Rejected e) ps ∧ evs = [] ∧ w' = w.
Proof.
  induction 1 as [w|w p evs w1 ps evs' w2 Hrun _ IH]; intros Hdb; [done|].
  apply run_shape_cases in Hrun
    as [(Hop & _)|(_ & e' & -> & Hdb' & _ & Hmemo & _)].
  { by apply not_opens_memo in Hdb. }
  destruct (Hmemo e Hdb) as (-> & -> & ->).
  destruct (IH Hdb) as (Hps & -> & ->). split_and!; [by constructor|done..].
Qed.

(** Without [indexedDB], the first use asks for it once and every call
    is rejected with the error [getIndexedDB] threw. *)
Lemma runs_undefined mode w ps evs w' :
  runs mode w ps evs w' → ps ≠ [] →
  dbPromise w = None → indexedDB w = IDBUndefined →
  let e := NewError "IndexedDB is not supported in this environment." in
  Forall (fun p => p = Rejected e) ps
  ∧ evs = [EvGetIndexedDB]
  ∧ dbPromise w' = Some (Rejected e).
Proof.
  destruct 1 as [w|w p evs w1 ps evs' w2 Hrun Hruns]; intros Hne Hdb Hidb; [done|].
  apply run_shape_cases in Hrun
    as [([Hop|[_ Hop]] & _)|(_ & e' & -> & Hdb' & _ & _ & Hundef)]; [congruence..|].
  destruct (Hundef Hdb Hidb) as (-> & ->).
  destruct (runs_rejected_memo _ _ _ _ _ _ Hruns Hdb') as (Hps & -> & ->).
  split_and!; [by constructor|done..].
Qed.

(** *** The operations as sequences of transactions *)

Lemma single_run {T} mode (ex : IDBObjectStore → M T) w :
  well_behaved (ex (mkStore STORE_NAME mode)) →
  ∃ p w' evs,
    runTransaction mode ex w = (Return p, w', evs)
    ∧ runs mode w [erase p] evs w'.
Proof.
  intros Hex. destruct (runTransaction_shape mode ex w Hex) as (p & w' & evs & Hrun & Hs).
  exists p, w', evs. split; [done|].
  rewrite <- (app_nil_r evs). eapply runs_cons; [done|constructor].
Qed.

Lemma settles_single p : settles [p] p.
Proof. unfold settles. by destruct p. Qed.

Lemma well_behaved_saveAsset id now file options store :
  os_mode store = readwrite →
  well_behaved (
    bind (if truthy_string (opt_id options) then store_get store id else ret None)
      (fun existing =>
         let record :=
           mkRecord id
             (or_string (opt_name options) (nullish (blob_name file) "asset"))
             (or_string (opt_type options)
                (or_string (Some (blob_type file)) "application/octet-stream"))
             (blob_size file)
             (nullish (opt_createdAt options)
                (nullish (rec_createdAt <$> existing) now))
             (nullish (opt_updatedAt options) now)
             file in
         bind (store_put store record)
           (fun _ => ret (mkMeta (rec_id record) (rec_name record) (rec_type record)
                            (rec_size record) (rec_createdAt record)
                            (rec_updatedAt record))))).
Proof.
  intros Hmode. apply well_behaved_bind.
  - destruct (truthy_string _); [|apply well_behaved_ret].
    by apply well_behaved_resolveDeferred.
  - intros existing. apply well_behaved_bind; [|intros; apply well_behaved_ret].
    by apply well_behaved_resolveDeferred.
Qed.

Lemma saveAsset_runs fresh now file options w :
  ∃ p w' evs,
    saveAsset fresh now file options w = (Return p, w', evs)
    ∧ runs readwrite w [erase p] evs w'.
Proof. apply single_run. by apply well_behaved_saveAsset. Qed.

Lemma getAsset_runs id w :
  ∃ p w' evs,
    getAsset id w = (Return p, w', evs) ∧ runs readonly w [erase p] evs w'.
Proof.
  apply single_run. apply well_behaved_bind; [|intros; apply well_behaved_ret].
  by apply well_behaved_resolveDeferred.
Qed.

Lemma Promise_all_settles {A} (ps : list (promise A)) :
  settles (erase <$> ps) (erase (Promise_all ps)).
Proof.
  unfold settles, rejected.
  induction ps as [|[a|e] ps IH]; cbn; [done| |done].
  destruct (omap _ (erase <$> ps)) as [|e l]; [done|].
  by destruct (Promise_all ps); simplify_eq.
Qed.

Lemma callback_runs id w :
  ∃ q w1 evs,
    async (bind (bind (getAsset id) await) (fun asset => ret (id, asset))) w
    = (Return q, w1, evs)
    ∧ runs readonly w [erase q] evs w1.
Proof.
  destruct (getAsset_runs id w) as (p & w1 & evs & Hget & Hruns).
  unfold async, bind. rewrite Hget.
  destruct p as [asset|e]; cbn; rewrite ?app_nil_r; eauto.
Qed.

Lemma array_map_getAsset_runs ids w :
  ∃ promises w' evs,
    array_map (fun id => async (bind (bind (getAsset id) await)
                                     (fun asset => ret (id, asset)))) ids w
    = (Return promises, w', evs)
    ∧ runs readonly w (erase <$> promises) evs w'
    ∧ length promises = length ids.
Proof.
  revert w. induction ids as [|id ids IH]; intros w; cbn [array_map].
  - exists [], w, []. split_and!; [done|constructor|done].
  - destruct (callback_runs id w) as (q & w1 & evs1 & Hcb & Hruns).
    inversion Hruns as [|? ? evs0 ? ? ? ? Hshape Hnil]; subst.
    inversion Hnil; subst. rewrite app_nil_r in *.
    destruct (IH w1) as (promises & w2 & evs2 & Hmap & Hruns2 & Hlen).
    unfold bind at 1. rewrite Hcb. unfold bind at 1. rewrite Hmap. cbn.
    rewrite app_nil_r.
    eexists _, _, _. split; [reflexivity|]. cbn. split; [|by rewrite Hlen].
    eapply runs_cons; [exact Hshape|exact Hruns2].
Qed.

Lemma bind_Return {A B} (m : M A) (k : A → M B) w a w1 ev1 :
  m w = (Return a, w1, ev1) →
  bind m k w = (let '(r, w2, ev2) := k a w1 in (r, w2, ev1 ++ ev2)).
Proof. unfold bind. by intros ->. Qed.

Lemma perform_runs op w :
  ∃ p w' evs ps,
    perform op w = (Return p, w', evs)
    ∧ runs (mode_of op) w ps evs w'
    ∧ length ps = transaction_count op
    ∧ settles ps p.
Proof.
  destruct op as [fresh now file options|fresh now dataUrl options|id|reader id|url id
                 |id| |ids|]; cbn [perform mode_of transaction_count].
  - destruct (saveAsset_runs fresh now file options w) as (p & w' & evs & Hs & Hruns).
    exists (erase p), w', evs, [erase p]. split_and!; try done.
    + by apply forget_eq. + apply settles_single.
  - unfold forget, saveAssetFromDataUrl, async, bind, lift.
    destruct (DataUrl.dataUrlToBlob dataUrl) as [blob|e]; cbn.
    + destruct (saveAsset_runs fresh now blob
                  (mkOptions (opt_id options) (opt_name options)
                     (Some (or_string (opt_type options) (blob_type blob)))
                     (opt_createdAt options) (opt_updatedAt options)) w)
        as (p & w' & evs & -> & Hruns).
      destruct p as [m|e]; cbn; rewrite app_nil_r.
      * exists (Fulfilled tt), w', evs, [Fulfilled tt]. by split_and!.
      * exists (Rejected e), w', evs, [Rejected e]. by split_and!.
    + exists (Rejected e), w, [], []. split_and!; try done. constructor.
  - destruct (getAsset_runs id w) as (p & w' & evs & Hs & Hruns).
    exists (erase p), w', evs, [erase p]. split_and!; try done.
    + by apply forget_eq. + apply settles_single.
  - unfold forget, getAssetDataUrl, async, bind.
    destruct (getAsset_runs id w) as (p & w' & evs & -> & Hruns).
    destruct p as [[asset|]|e]; cbn; rewrite ?app_nil_r.
    + destruct reader as [|e]; cbn; rewrite ?app_nil_r.
      * exists (Fulfilled tt), w', evs, [Fulfilled tt]. by split_and!.
      * exists (Rejected e), w', evs, [Fulfilled tt]. by split_and!.
    + exists (Fulfilled tt), w', evs, [Fulfilled tt]. by split_and!.
    + exists (Rejected e), w', evs, [Rejected e]. by split_and!.
  - unfold forget, getAssetObjectUrl, async, bind.
    destruct (getAsset_runs id w) as (p & w' & evs & -> & Hruns).
    destruct p as [[asset|]|e]; cbn; rewrite ?app_nil_r.
    + exists (Fulfilled tt), w', evs, [Fulfilled tt]. by split_and!.
    + exists (Fulfilled tt), w', evs, [Fulfilled tt]. by split_and!.
    + exists (Rejected e), w', evs, [Rejected e]. by split_and!.
  - destruct (single_run readwrite (fun store => store_delete store id) w)
      as (p & w' & evs & Hs & Hruns).
    { by apply well_behaved_resolveDeferred. }
    exists (erase p), w', evs, [erase p]. split_and!; try done.
    + by apply forget_eq. + apply settles_single.
  - destruct (single_run readonly
                (fun store => bind (store_getAll store)
                                   (fun results => ret (strip_blob <$> results))) w)
      as (p & w' & evs & Hs & Hruns).
    { apply well_behaved_bind; [|intros; apply well_behaved_ret].
      by apply well_behaved_resolveDeferred. }
    exists (erase p), w', evs, [erase p]. split_and!; try done.
    + by apply forget_eq. + apply settles_single.
  - unfold forget, getAssetsByIds, async.
    destruct (array_map_getAsset_runs ids w) as (promises & w' & evs & Hmap & Hruns & Hlen).
    rewrite (bind_Return _ _ _ _ _ _ Hmap).
    pose proof (Promise_all_settles promises) as Hall.
    unfold bind, await. destruct (Promise_all promises) as [entries|e]; cbn in *;
      rewrite ?app_nil_r.
    + exists (Fulfilled tt), w', evs, (erase <$> promises).
      split_and!; try done. by rewrite length_fmap.
    + exists (Rejected e), w', evs, (erase <$> promises).
      split_and!; try done. by rewrite length_fmap.
  - destruct (single_run readwrite (fun store => store_clear store) w)
      as (p & w' & evs & Hs & Hruns).
    { by apply well_behaved_resolveDeferred. }
    exists (erase p), w', evs, [erase p]. split_and!; try done.
    + by apply forget_eq. + apply settles_single.
Qed.

End Transactions.

(** ** The asset store: the operations *)

Section Operations.

Import AssetStore.

Lemma opens_dec w : opens w ∨ ¬ opens w.
Proof.
  destruct (openDatabase_result w) as (q & _ & _ & _ & _ & _ & _ & _ & _ & _ & Hiff).
  destruct q as [[]|e]; [left; by apply Hiff|right].
  by intros Hop%Hiff.
Qed.

Lemma rejected_none_fulfilled ps : rejected ps = [] → fulfilled ps = length ps.
Proof.
  unfold rejected, fulfilled.
  induction ps as [|[[]|e] ps IH]; cbn; [done| |done].
  intros H. by rewrite IH.
Qed.

Lemma rejected_all ps e :
  ps ≠ [] → Forall (fun p => p = Rejected e) ps → ∃ rest, rejected ps = e :: rest.
Proof. destruct 2 as [|p ps -> _]; [done|]. cbn. eauto. Qed.






(** C4, amended: every transaction an operation begins is on the one
    [assets] store, read-only for the reads and read-write for the
    writes.  Once the database opens, an operation runs exactly one
    transaction, except [getAssetsByIds], which runs one per id (and
    [saveAssetFromDataUrl] of an undecodable URL, which runs none); when
    the database does not open it runs none.  A transaction promise is
    resolved only right after the [complete] event of its transaction,
    and an operation that is fulfilled has seen every transaction it
    began complete. *)
Theorem operations_run_in_transactions op w r w' evs :
  perform op w = (r, w', evs) →
  (∀ t, t ∈ transactions evs → t = (STORE_NAME, mode_of op))
  ∧ (opens w → length (transactions evs) = transaction_count op)
  ∧ (¬ opens w → transactions evs = [])
  ∧ resolves_on_complete evs
  ∧ (r = Return (Fulfilled tt) →
     completions evs = length (transactions evs) ∧ rejections evs = []).
Proof.
  intros Hp.
  destruct (perform_runs op w) as (p & w1 & evs1 & ps & Hp' & Hruns & Hlen & Hset).
  rewrite Hp in Hp'. injection Hp' as -> <- <-.
  assert (Hcases : (opens w ∧ transactions evs = replicate (length ps) (STORE_NAME, mode_of op)
                    ∧ rejections evs = rejected ps ∧ completions evs = fulfilled ps)
                   ∨ (¬ opens w ∧ transactions evs = [] ∧ rejections evs = []
                      ∧ completions evs = 0 ∧ fulfilled ps = 0)).
  { destruct (opens_dec w) as [Hop|Hop]; [left|right]; (split; [done|]).
    - by apply (runs_open _ _ _ _ _ Hruns).
    - by apply (runs_closed _ _ _ _ _ Hruns). }
  split_and!.
  - intros t Ht. destruct Hcases as [(_ & Htx & _)|(_ & Htx & _)]; rewrite Htx in Ht.
    + by apply elem_of_replicate in Ht as [-> _].
    + by apply elem_of_nil in Ht.
  - intros Hop. destruct Hcases as [(_ & Htx & _)|(Hn & _)]; [|done].
    by rewrite Htx, length_replicate.
  - intros Hop. by destruct Hcases as [(? & _)|(_ & Htx & _)].
  - by eapply runs_resolves.
  - intros [= ->]. unfold settles in Hset.
    destruct Hcases as [(_ & Htx & Hrej & Hc)|(_ & Htx & Hrej & Hc & _)].
    + destruct (rejected ps) eqn:Hr; [|done].
      rewrite Htx, Hrej, Hc, length_replicate. split; [|done].
      by apply rejected_none_fulfilled.
    + by rewrite Htx, Hrej, Hc.
Qed.

(** C8, amended: no operation of the store throws; each returns a
    promise.  Without [indexedDB], the first operation that needs the
    database asks for it once, and its promise is rejected with
    "IndexedDB is not supported in this environment."; that rejection is
    memoized, so every later operation is rejected with the same error
    and asks the platform for nothing. *)
Theorem missing_indexedDB_rejects op w r w' evs :
  perform op w = (r, w', evs) →
  let e := NewError "IndexedDB is not supported in this environment." in
  (∃ p, r = Return p)
  ∧ (transaction_count op ≠ 0 → dbPromise w = None → indexedDB w = IDBUndefined →
     r = Return (Rejected e) ∧ evs = [EvGetIndexedDB]
     ∧ dbPromise w' = Some (Rejected e))
  ∧ (∀ e', transaction_count op ≠ 0 → dbPromise w = Some (Rejected e') →
     r = Return (Rejected e') ∧ evs = [] ∧ w' = w).
Proof.
  intros Hp e.
  destruct (perform_runs op w) as (p & w1 & evs1 & ps & Hp' & Hruns & Hlen & Hset).
  rewrite Hp in Hp'. injection Hp' as -> <- <-.
  assert (Hne : transaction_count op ≠ 0 → ps ≠ []).
  { intros Hc ->. by apply Hc. }
  split_and!.
  - eauto.
  - intros Hc Hdb Hidb.
    destruct (runs_undefined _ _ _ _ _ Hruns (Hne Hc) Hdb Hidb) as (Hall & -> & Hdb').
    destruct (rejected_all _ _ (Hne Hc) Hall) as (rest & Hrej).
    unfold settles in Hset. rewrite Hrej in Hset. by rewrite Hset.
  - intros e' Hc Hdb.
    destruct (runs_rejected_memo _ _ _ _ _ _ Hruns Hdb) as (Hall & -> & ->).
    destruct (rejected_all _ _ (Hne Hc) Hall) as (rest & Hrej).
    unfold settles in Hset. rewrite Hrej in Hset. by rewrite Hset.
Qed.

End Operations.

(** ** The asset store: saving *)

Section SaveAsset.

Import AssetStore.

Lemma requests_open_events ev0 : Forall is_open_event ev0 → requests ev0 = [].
Proof. intros H. unfold requests. by apply open_events_silent. Qed.

(** [runTransaction], once the connection promise is known. *)
Lemma runTransaction_unfold {T} mode (ex : IDBObjectStore → M T) w q w1 ev0 :
  openDatabase w = (Return q, w1, ev0) →
  runTransaction mode ex w =
    match q with
    | Rejected e => (Return (Rejected e), w1, ev0)
    | Fulfilled _ =>
        match ex (mkStore STORE_NAME mode) w1 with
        | (Return result, w2, evs) =>
            match next_fate w2 with
            | (TxCompletes, w3) =>
                (Return (Fulfilled result), w3,
                 ev0 ++ EvTransaction STORE_NAME mode :: evs ++ [EvTxComplete; EvResolve])
            | (TxAborts err, w3) =>
                let e := nullish err (NewError "Transaction aborted") in
                (Return (Rejected e), set_assets (assets w1) w3,
                 ev0 ++ EvTransaction STORE_NAME mode :: evs ++ [EvTxAbort; EvReject e])
            | (TxErrors err, w3) =>
                let e := nullish err (NewError "Transaction failed") in
                (Return (Rejected e), set_assets (assets w1) w3,
                 ev0 ++ EvTransaction STORE_NAME mode :: evs ++ [EvTxError; EvReject e])
            end
        | (Throw error, w2, evs) =>
            (Return (Rejected error), set_assets (assets w1) w2,
             ev0 ++ EvTransaction STORE_NAME mode :: evs ++ [EvAbort; EvReject error])
        end
    end.
Proof.
  intros Ho. unfold runTransaction, async, bind. rewrite Ho.
  destruct q as [db|e]; cbn; [|by rewrite app_nil_r].
  destruct (ex _ w1) as [[[result|error] w2] evs]; cbn; rewrite ?app_nil_r; [|done].
  by destruct (next_fate w2) as [[|err|err] w3].
Qed.

(** What a call of [saveAsset] asks of the store, whatever the outcome:
    a lookup only for a truthy id, then at most one [put]. *)
Lemma saveAsset_requests fresh now file options w r w' evs :
  saveAsset fresh now file options w = (r, w', evs) →
  let id := nullish (opt_id options) fresh in
  if truthy_string (opt_id options)
  then requests evs = [] ∨ requests evs = [ReqGet id]
       ∨ requests evs = [ReqGet id; ReqPut (saved_record id now file options (assets w !! id))]
  else requests evs = [] ∨ requests evs = [ReqPut (saved_record id now file options None)].
Proof.
  intros Hs. cbn. unfold saveAsset in Hs.
  destruct (openDatabase_result w)
    as (q & w1 & ev0 & Ho & _ & _ & Hassets & Hfaults & Hfates & Hev & _).
  rewrite (runTransaction_unfold _ _ _ _ _ _ Ho) in Hs.
  unfold requests.
  destruct q as [db|e]; cbn in Hs.
  - unfold bind, store_get, store_put, resolveDeferred, next_fate in Hs. cbn in Hs.
    destruct (truthy_string (opt_id options)); cbn in Hs;
      rewrite Hfaults, ?Hassets in Hs.
    + destruct (faults w) as [|[e|] [|[e'|] fs]]; cbn in Hs;
        try rewrite Hfates in Hs;
        try destruct (fates w) as [|[|err|err] ft]; cbn in Hs;
        injection Hs as <- <- <-;
        rewrite !omap_app, (open_events_silent _ ev0) by done; cbn; auto.
    + destruct (faults w) as [|[e|] fs]; cbn in Hs;
        try rewrite Hfates in Hs;
        try destruct (fates w) as [|[|err|err] ft]; cbn in Hs;
        injection Hs as <- <- <-;
        rewrite !omap_app, (open_events_silent _ ev0) by done; cbn; auto.
  - injection Hs as <- <- <-.
    rewrite (open_events_silent _ ev0) by done. destruct (truthy_string _); auto.
Qed.

(** A call of [saveAsset] that resolves: the metadata returned and the
    record stored. *)
Lemma saveAsset_fulfilled fresh now file options w m w' evs :
  saveAsset fresh now file options w = (Return (Fulfilled m), w', evs) →
  let id := nullish (opt_id options) fresh in
  let existing := if truthy_string (opt_id options) then assets w !! id else None in
  m = strip_blob (saved_record id now file options existing)
  ∧ assets w' = <[id := saved_record id now file options existing]> (assets w).
Proof.
  intros Hs. cbn. unfold saveAsset in Hs.
  destruct (openDatabase_result w)
    as (q & w1 & ev0 & Ho & _ & _ & Hassets & Hfaults & Hfates & Hev & _).
  rewrite (runTransaction_unfold _ _ _ _ _ _ Ho) in Hs.
  destruct q as [db|e]; cbn in Hs; [|done].
  unfold bind, store_get, store_put, resolveDeferred, next_fate in Hs. cbn in Hs.
  destruct (truthy_string (opt_id options)); cbn in Hs;
    rewrite Hfaults, ?Hassets in Hs.
  + destruct (faults w) as [|[e|] [|[e'|] fs]]; cbn in Hs;
      try rewrite Hfates in Hs;
      try destruct (fates w) as [|[|err|err] ft]; cbn in Hs;
      try discriminate; by injection Hs as <- <- <-.
  + destruct (faults w) as [|[e|] fs]; cbn in Hs;
      try rewrite Hfates in Hs;
      try destruct (fates w) as [|[|err|err] ft]; cbn in Hs;
      try discriminate; by injection Hs as <- <- <-.
Qed.

(** On a calm platform [saveAsset] resolves. *)
Lemma saveAsset_calm fresh now file options w :
  calm w → ∃ m w' evs, saveAsset fresh now file options w = (Return (Fulfilled m), w', evs).
Proof.
  intros (Hop & Hf & Hft). unfold saveAsset.
  destruct (openDatabase_result w)
    as (q & w1 & ev0 & Ho & _ & _ & Hassets & Hfaults & Hfates & Hev & Hiff).
  rewrite (runTransaction_unfold _ _ _ _ _ _ Ho).
  apply Hiff in Hop as ->. cbn.
  unfold bind, store_get, store_put, resolveDeferred, next_fate. cbn.
  destruct (truthy_string (opt_id options)); cbn; rewrite Hfaults, ?Hassets.
  - destruct Hf as [|? ? -> [|? ? -> _]]; cbn; rewrite Hfates;
      destruct Hft as [|? ? -> _]; cbn; eauto.
  - destruct Hf as [|? ? -> _]; cbn; rewrite Hfates;
      destruct Hft as [|? ? -> _]; cbn; eauto.
Qed.

End SaveAsset.

(** ** Blob <-> data URL round trip *)

Section Base64.

Import DataUrl.

Lemma list_ind3 {A} (P : list A → Prop) :
  P [] → (∀ a, P [a]) → (∀ a b, P [a; b]) →
  (∀ a b c l, P l → P (a :: b :: c :: l)) → ∀ l, P l.
Proof.
  intros H0 H1 H2 H3 l.
  cut (P l ∧ (∀ a, P (a :: l)) ∧ (∀ a b, P (a :: b :: l))); [tauto|].
  induction l as [|x l (IH0 & IH1 & IH2)]; [auto|].
  split; [apply IH1|]. split; [intros; apply IH2|]. intros; by apply H3.
Qed.

Lemma decode_encode_sextet s : decode_char (encode_sextet s) = Some s.
Proof.
  destruct s as [[[[[b5 b4] b3] b2] b1] b0].
  destruct b5, b4, b3, b2, b1, b0; vm_compute; reflexivity.
Qed.

Lemma encode_sextet_plain s :
  is_ascii_whitespace (encode_sextet s) = false
  ∧ encode_sextet s ≠ "="%char ∧ encode_sextet s ≠ ","%char.
Proof.
  destruct s as [[[[[b5 b4] b3] b2] b1] b0].
  destruct b5, b4, b3, b2, b1, b0; vm_compute; repeat split; discriminate.
Qed.

Lemma octets_of_sextets_of_octets l : octets_of_sextets (sextets_of_octets l) = l.
Proof.
  induction l as [|a|a b|a b c l IH] using list_ind3.
  - reflexivity.
  - by destruct a.
  - by destruct a, b.
  - destruct a, b, c. cbn [sextets_of_octets octets_of_sextets]. by rewrite IH.
Qed.

Lemma sextets_length (l : list ascii) :
  length (sextets_of_octets l) =
    4 * (length l / 3) + match length l mod 3 with 0 => 0 | 1 => 2 | _ => 3 end.
Proof.
  induction l as [|a|a b|a b c l IH] using list_ind3.
  - reflexivity.
  - by destruct a.
  - by destruct a, b.
  - destruct a, b, c. cbn [sextets_of_octets length]. rewrite IH.
    replace (S (S (S (length l)))) with (length l + 1 * 3) by lia.
    rewrite Nat.div_add, Nat.Div0.mod_add by lia. lia.
Qed.

Lemma mapM_decode_encode sx : mapM decode_char (encode_sextet <$> sx) = Some sx.
Proof.
  apply mapM_Some. induction sx as [|s sx IH]; constructor; [|done].
  apply decode_encode_sextet.
Qed.

Lemma padding_cases n :
  (n mod 3 = 0 ∧ padding n = [])
  ∨ (n mod 3 = 1 ∧ padding n = ["="%char; "="%char])
  ∨ (n mod 3 = 2 ∧ padding n = ["="%char]).
Proof.
  unfold padding. pose proof (Nat.mod_upper_bound n 3).
  destruct (n mod 3) as [|[|[|?]]]; [tauto|tauto|tauto|lia].
Qed.

Lemma base64_length bytes : length (base64 bytes) mod 4 = 0.
Proof.
  unfold base64. rewrite length_app, length_fmap, sextets_length, length_fmap.
  destruct (padding_cases (length bytes)) as [(Hm & ->)|[(Hm & ->)|(Hm & ->)]];
    rewrite Hm; cbn [length];
    [ replace (4 * (length bytes / 3) + 0 + 0) with (0 + (length bytes / 3) * 4) by lia
    | replace (4 * (length bytes / 3) + 2 + 2) with (0 + (length bytes / 3 + 1) * 4) by lia
    | replace (4 * (length bytes / 3) + 3 + 1) with (0 + (length bytes / 3 + 1) * 4) by lia ];
    by rewrite Nat.Div0.mod_add.
Qed.

Lemma strip_padding_base64 bytes :
  strip_padding (base64 bytes) = encode_sextet <$> sextets_of_octets (ascii_of_byte <$> bytes).
Proof.
  unfold strip_padding. rewrite decide_True by apply base64_length.
  unfold base64.
  set (sx := sextets_of_octets (ascii_of_byte <$> bytes)).
  assert (Hhead : ∀ c r, reverse (encode_sextet <$> sx) = c :: r → c ≠ "="%char).
  { intros c r Hr. assert (Hin : c ∈ encode_sextet <$> sx).
    { apply elem_of_reverse. rewrite Hr. apply list_elem_of_here. }
    apply list_elem_of_fmap in Hin as (s & -> & _). apply encode_sextet_plain. }
  destruct (padding_cases (length bytes)) as [(_ & ->)|[(_ & ->)|(_ & ->)]].
  - rewrite app_nil_r.
    destruct (reverse (encode_sextet <$> sx)) as [|c r] eqn:Hr; [done|].
    rewrite decide_False; [done|]. by eapply Hhead.
  - rewrite reverse_app. cbn [reverse rev_append app].
    rewrite !decide_True by done. apply reverse_involutive.
  - rewrite reverse_app. cbn [reverse rev_append app].
    rewrite decide_True by done.
    destruct (reverse (encode_sextet <$> sx)) as [|c r] eqn:Hr.
    + apply (f_equal reverse) in Hr. by rewrite reverse_involutive in Hr.
    + rewrite decide_False by (by eapply Hhead).
      apply (f_equal reverse) in Hr. by rewrite reverse_involutive in Hr.
Qed.

Lemma filter_Forall_id {A} (P : A → Prop) `{!∀ x, Decision (P x)} (l : list A) :
  Forall P l → filter P l = l.
Proof.
  induction 1 as [|x l Hx _ IH]; [done|]. by rewrite filter_cons_True, IH.
Qed.

Lemma base64_no_whitespace bytes :
  filter (λ c, is_ascii_whitespace c = false) (base64 bytes) = base64 bytes.
Proof.
  apply filter_Forall_id. apply Forall_forall. intros c Hc.
  unfold base64 in Hc. apply elem_of_app in Hc as [Hc|Hc].
  - apply list_elem_of_fmap in Hc as (s & -> & _). apply encode_sextet_plain.
  - destruct (padding_cases (length bytes)) as [(_ & Hp)|[(_ & Hp)|(_ & Hp)]];
      rewrite Hp in Hc;
      repeat (apply elem_of_cons in Hc as [->|Hc]; [done|]);
      by apply elem_of_nil in Hc.
Qed.

Lemma atob_base64 bytes :
  atob (String.string_of_list_ascii (base64 bytes))
  = Return (String.string_of_list_ascii (ascii_of_byte <$> bytes)).
Proof.
  unfold atob. rewrite String.list_ascii_of_string_of_list_ascii.
  rewrite base64_no_whitespace, strip_padding_base64.
  rewrite length_fmap, sextets_length, mapM_decode_encode, octets_of_sextets_of_octets.
  rewrite decide_False; [done|].
  pose proof (Nat.mod_upper_bound (length (ascii_of_byte <$> bytes)) 3).
  rewrite Nat.add_comm, Nat.mul_comm, Nat.Div0.mod_add.
  destruct (length (ascii_of_byte <$> bytes) mod 3) as [|[|[|?]]]; cbn; lia.
Qed.

End Base64.

Section Decoder.

Import DataUrl.

Lemma string_get_lookup i s : String.get i s = String.list_ascii_of_string s !! i.
Proof.
  revert i. induction s as [|c s IH]; intros [|i]; cbn; auto.
Qed.

Lemma fill_bytes_length binary n i bytes :
  length (fill_bytes binary n i bytes) = length bytes.
Proof.
  revert i bytes. induction n as [|n IH]; intros i bytes; cbn; [done|].
  by rewrite IH, length_insert.
Qed.

Lemma fill_bytes_lookup binary n i bytes j :
  i + n ≤ length bytes →
  fill_bytes binary n i bytes !! j =
    if decide (i ≤ j < i + n) then Some (charCodeAt binary j) else bytes !! j.
Proof.
  revert i bytes. induction n as [|n IH]; intros i bytes Hlen; cbn.
  - rewrite decide_False by lia. done.
  - rewrite IH by (rewrite length_insert; lia).
    destruct (decide (j = i)) as [->|Hne].
    + rewrite decide_False by lia. rewrite decide_True by lia.
      apply list_lookup_insert_eq. lia.
    + rewrite list_lookup_insert_ne by done.
      destruct (decide (S i ≤ j < S i + n)), (decide (i ≤ j < i + S n)); done || lia.
Qed.

Lemma fill_bytes_all binary :
  fill_bytes binary (String.length binary) 0 (replicate (String.length binary) x00)
  = String.list_byte_of_string binary.
Proof.
  assert (Hlen : String.length binary = length (String.list_ascii_of_string binary)).
  { induction binary; cbn; congruence. }
  apply list_eq. intros j.
  rewrite fill_bytes_lookup by (rewrite length_replicate; lia).
  unfold String.list_byte_of_string.
  change (map byte_of_ascii ?l) with (byte_of_ascii <$> l).
  rewrite list_lookup_fmap. unfold charCodeAt. rewrite string_get_lookup.
  case_decide as Hj.
  - destruct (lookup_lt_is_Some_2 (String.list_ascii_of_string binary) j) as [c Hc]; [lia|].
    by rewrite Hc.
  - rewrite lookup_ge_None_2 by (rewrite length_replicate; lia).
    rewrite lookup_ge_None_2 by lia. done.
Qed.

Lemma split_on_no_sep sep l : sep ∉ l → split_on sep l = [l].
Proof.
  induction l as [|c l IH]; intros Hn; cbn; [done|].
  rewrite decide_False by (intros ->; apply Hn; left).
  rewrite IH; [done|]. intros ?; apply Hn; by right.
Qed.

Lemma split_on_app sep a b :
  sep ∉ a → split_on sep (a ++ sep :: b) = a :: split_on sep b.
Proof.
  induction a as [|c a IH]; intros Hn; cbn.
  - by rewrite decide_True.
  - rewrite decide_False by (intros ->; apply Hn; left).
    rewrite IH; [done|]. intros ?; apply Hn; by right.
Qed.

Lemma eq_ci_length a b : eq_ci a b = true → length a = length b.
Proof.
  unfold eq_ci. intros H%bool_decide_eq_true.
  apply (f_equal length) in H. by rewrite !length_fmap in H.
Qed.

Lemma printable_not_terminator c : printable c = true → is_line_terminator c = false.
Proof.
  unfold printable, is_line_terminator, code. intros H.
  apply andb_true_iff in H as [H%Nat.leb_le _].
  apply orb_false_iff; split; apply bool_decide_eq_false; intros ->; vm_compute in H; lia.
Qed.

Lemma lazy_dot_media t acc :
  forallb printable t = true →
  lazy_dot (t ++ String.list_ascii_of_string ";base64") acc = Some (reverse acc ++ t).
Proof.
  revert acc. induction t as [|c t IH]; intros acc Ht.
  - cbn. by rewrite app_nil_r.
  - cbn in Ht. apply andb_true_iff in Ht as [Hc Ht].
    cbn [app lazy_dot].
    destruct (eq_ci _ _) eqn:Heq.
    { apply eq_ci_length in Heq. rewrite length_cons, length_app in Heq.
      cbn in Heq. lia. }
    rewrite printable_not_terminator by done.
    rewrite IH by done. rewrite reverse_cons, <- app_assoc. done.
Qed.

End Decoder.

Ltac not_in_literal H :=
cbn in H; repeat (apply elem_of_cons in H as [H|H]; [discriminate|]);
by apply elem_of_nil in H.

Section RoundTrip.

Import DataUrl.

Lemma media_type_wf b :
  blob_wf b →
  forallb printable (String.list_ascii_of_string (media_type b)) = true
  ∧ normalize_type (media_type b) = media_type b
  ∧ media_type b ≠ "".
Proof.
  unfold blob_wf, media_type. intros Hwf. case_decide as Hty.
  - by vm_compute.
  - split_and!; [|done|done].
    unfold normalize_type in Hwf.
    destruct (forallb printable _); [done|congruence].
Qed.

Lemma decode_media_type mt (b64 : list ascii) :
  forallb printable mt = true →
  ","%char ∉ mt → ","%char ∉ b64 →
  split_on ","%char
    (String.list_ascii_of_string "data:" ++ mt
     ++ String.list_ascii_of_string ";base64," ++ b64)
  = [String.list_ascii_of_string "data:" ++ mt ++ String.list_ascii_of_string ";base64"; b64].
Proof.
  intros Hp Hc Hb.
  replace (String.list_ascii_of_string "data:" ++ mt
           ++ String.list_ascii_of_string ";base64," ++ b64)
    with ((String.list_ascii_of_string "data:" ++ mt
           ++ String.list_ascii_of_string ";base64") ++ ","%char :: b64)
    by (by rewrite <- !app_assoc).
  rewrite split_on_app.
  - by rewrite split_on_no_sep.
  - rewrite !elem_of_app. intros [H|[H|H]]; [|done|]; not_in_literal H.
Qed.

Lemma base64_no_comma bytes : ","%char ∉ base64 bytes.
Proof.
  unfold base64. rewrite elem_of_app. intros [Hc|Hc].
  - apply list_elem_of_fmap in Hc as (s & Hs & _).
    by destruct (encode_sextet_plain s) as (_ & _ & []).
  - destruct (padding_cases (length bytes)) as [(_ & Hp)|[(_ & Hp)|(_ & Hp)]];
      rewrite Hp in Hc;
      repeat (apply elem_of_cons in Hc as [Hc|Hc]; [discriminate|]);
      by apply elem_of_nil in Hc.
Qed.

Lemma mime_exec_media mt :
  forallb printable mt = true →
  mime_exec (String.list_ascii_of_string "data:" ++ mt ++ String.list_ascii_of_string ";base64")
  = Some mt.
Proof.
  intros Hp.
  set (rest := mt ++ String.list_ascii_of_string ";base64").
  assert (Hat : match_at (String.list_ascii_of_string "data:" ++ rest) = Some mt).
  { unfold match_at.
    change (take 5 (String.list_ascii_of_string "data:" ++ rest))
      with (String.list_ascii_of_string "data:").
    change (drop 5 (String.list_ascii_of_string "data:" ++ rest)) with rest.
    replace (eq_ci _ _) with true by (by vm_compute).
    unfold rest. by rewrite lazy_dot_media. }
  change (mime_exec (String.list_ascii_of_string "data:" ++ rest))
    with (match match_at (String.list_ascii_of_string "data:" ++ rest) with
          | Some g => Some g
          | None => mime_exec (drop 1 (String.list_ascii_of_string "data:" ++ rest))
          end).
  by rewrite Hat.
Qed.

(** C9, amended: for every blob whose MIME type holds no comma, encoding
    it with [blobToDataUrl] and decoding the result with [dataUrlToBlob]
    yields a blob with the same bytes, hence the same size, and whose
    MIME type is the type of the original when that is not empty, and
    [application/octet-stream] when it is empty. *)
Theorem dataUrl_roundtrip (b : Blob) :
  blob_wf b →
  ","%char ∉ chars (blob_type b) →
  ∃ url b',
    blobToDataUrl ReadLoads b = Fulfilled url
    ∧ dataUrlToBlob url = Return b'
    ∧ blob_bytes b' = blob_bytes b
    ∧ blob_size b' = blob_size b
    ∧ blob_type b' =
        (if decide (blob_type b = "") then "application/octet-stream" else blob_type b).
Proof.
  intros Hwf Hcomma.
  destruct (media_type_wf b Hwf) as (Hp & Hnorm & Hne).
  assert (Hc : ","%char ∉ String.list_ascii_of_string (media_type b)).
  { unfold media_type. case_decide; [|done]. intros Hin. not_in_literal Hin. }
  assert (Hdec : dataUrlToBlob (readAsDataURL b)
                 = Return (mkBlob (blob_bytes b) (media_type b) None)).
  { unfold dataUrlToBlob, readAsDataURL.
    rewrite String.list_ascii_of_string_of_list_ascii.
    rewrite decode_media_type by (done || apply base64_no_comma).
    cbn [lookup list_lookup default fmap option_fmap option_map nullish].
    unfold id. rewrite mime_exec_media by done.
    cbn [fmap option_fmap option_map].
    rewrite atob_base64, fill_bytes_all.
    change (String.string_of_list_ascii (ascii_of_byte <$> blob_bytes b))
      with (String.string_of_list_byte (blob_bytes b)).
    rewrite String.list_byte_of_string_of_list_byte.
    rewrite String.string_of_list_ascii_of_string.
    unfold or_string. rewrite decide_False by done.
    unfold new_Blob. by rewrite Hnorm. }
  eexists _, _. split; [reflexivity|]. split; [exact Hdec|]. done.
Qed.

(** The amended statement at a five-byte text blob. *)
Lemma dataUrl_roundtrip_witness :
  ∃ url b',
    blobToDataUrl ReadLoads text_blob = Fulfilled url
    ∧ dataUrlToBlob url = Return b'
    ∧ blob_bytes b' = blob_bytes text_blob
    ∧ blob_size b' = blob_size text_blob
    ∧ blob_type b' = "text/plain;charset=utf-8".
Proof.
  apply (dataUrl_roundtrip text_blob).
  - reflexivity.
  - apply (bool_decide_unpack _). vm_compute. exact I.
Defined.

(** C9, as stated, fails: a blob without a MIME type comes back with the
    type [application/octet-stream], whether the encoder writes that
    media type into the URL or leaves the media type out. *)
Lemma dataUrl_roundtrip_changes_empty_type :
  blob_wf typeless_blob
  ∧ blob_type typeless_blob = ""
  ∧ blobToDataUrl ReadLoads typeless_blob
    = Fulfilled "data:application/octet-stream;base64,aGk="
  ∧ dataUrlToBlob "data:application/octet-stream;base64,aGk="
    = Return (mkBlob (blob_bytes typeless_blob) "application/octet-stream" None)
  ∧ dataUrlToBlob "data:;base64,aGk="
    = Return (mkBlob (blob_bytes typeless_blob) "application/octet-stream" None).
Proof. repeat split; vm_compute; reflexivity. Qed.

End RoundTrip.

(** ** Restoring a backup *)

Section RestoreBackup.

Import Backup.

Variable Storage : Type.
Variable saveDocument : Document → Storage → Storage.

Lemma restoreBackup_fold docs userId st :
  foldl (fun st doc =>
           if decide (doc_userId doc = userId) then saveDocument doc st else st) st docs
  = foldl (fun st doc => saveDocument doc st) st
          (filter (fun doc => doc_userId doc = userId) docs).
Proof.
  revert st. induction docs as [|doc docs IH]; intros st; [done|].
  cbn [foldl]. rewrite IH.
  destruct (decide (doc_userId doc = userId)) as [Heq|Hne].
  - by rewrite filter_cons_True.
  - by rewrite filter_cons_False.
Qed.

Lemma foldl_snoc {A} (acc l : list A) :
  foldl (fun written x => written ++ [x]) acc l = acc ++ l.
Proof.
  revert acc. induction l as [|x l IH]; intros acc; cbn; [by rewrite app_nil_r|].
  by rewrite IH, <- app_assoc.
Qed.

End RestoreBackup.

Section RestoreBackupClaim.

Import Backup.

(** C5: [restoreBackup] passes to [saveDocument], in the order of the
    bundle, exactly the documents whose [userId] is the given one: the
    storage it leaves is the one those writes leave, the documents
    written are the matching ones, and a bundle without a matching
    document leaves the storage as it was. *)
Theorem restoreBackup_writes_owner_documents
    (Storage : Type) (saveDocument : Document → Storage → Storage)
    (backup : BackupData) (userId : string) (st : Storage) :
  restoreBackup Storage saveDocument backup userId st
  = foldl (fun st doc => saveDocument doc st) st
          (filter (fun doc => doc_userId doc = userId) (documents backup))
  ∧ restoreBackup (list Document) (fun doc written => written ++ [doc]) backup userId []
    = filter (fun doc => doc_userId doc = userId) (documents backup)
  ∧ (Forall (fun doc => doc_userId doc ≠ userId) (documents backup) →
     restoreBackup Storage saveDocument backup userId st = st).
Proof.
  unfold restoreBackup. rewrite !restoreBackup_fold. split_and!.
  - done.
  - apply foldl_snoc.
  - intros Hall.
    replace (filter _ (documents backup)) with (@nil Document); [done|].
    symmetry. induction Hall as [|d l Hd _ IH]; [done|].
    by rewrite filter_cons_False.
Qed.

(** C5 at a bundle of two owners. *)
Lemma restoreBackup_writes_owner_documents_witness :
  restoreBackup (list Document) (fun doc written => written ++ [doc])
                two_owner_backup "ana" []
  = [ana_notes; ana_draft].
Proof.
  destruct (restoreBackup_writes_owner_documents
              (list Document) (fun doc written => written ++ [doc])
              two_owner_backup "ana" []) as (_ & Hwritten & _).
  rewrite Hwritten. reflexivity.
Defined.

End RestoreBackupClaim.

(** ** Decimal numerals in string order *)

Section DecimalOrder.

Local Open Scope N_scope.

Lemma append_nil (s : string) : "" +:+ s = s.
Proof. reflexivity. Qed.

Lemma append_cons (c : ascii) (s1 s2 : string) :
  String c s1 +:+ s2 = String c (s1 +:+ s2).
Proof. reflexivity. Qed.

Lemma append_length (s1 s2 : string) :
  String.length (s1 +:+ s2) = (String.length s1 + String.length s2)%nat.
Proof.
  induction s1 as [|c s1 IH]; rewrite ?append_nil, ?append_cons; simpl; [done|].
  by rewrite IH.
Qed.

Lemma snoc_length (s : string) (c : ascii) :
  String.length (s +:+ String c "") = S (String.length s).
Proof. rewrite append_length. simpl. lia. Qed.

Lemma append_assoc (s1 s2 s3 : string) : (s1 +:+ s2) +:+ s3 = s1 +:+ s2 +:+ s3.
Proof.
  induction s1 as [|c s1 IH]; rewrite ?append_nil, ?append_cons; simpl; [done|].
  by rewrite IH.
Qed.

Lemma compare_snoc (s1 s2 : string) (c1 c2 : ascii) :
  String.length s1 = String.length s2 →
  String.compare (s1 +:+ String c1 "") (s2 +:+ String c2 "")
  = match String.compare s1 s2 with
    | Eq => Ascii.compare c1 c2
    | ne => ne
    end.
Proof.
  revert s2. induction s1 as [|a s1 IH]; intros [|b s2] Hlen; try done;
    rewrite ?append_nil, ?append_cons; simpl.
  - by destruct (Ascii.compare c1 c2).
  - injection Hlen as Hlen. rewrite (IH s2 Hlen).
    by destruct (Ascii.compare a b).
Qed.

Lemma compare_prepend (p s1 s2 : string) :
  String.compare (p +:+ s1) (p +:+ s2) = String.compare s1 s2.
Proof.
  induction p as [|c p IH]; rewrite ?append_nil, ?append_cons; simpl; [done|].
  unfold Ascii.compare. by rewrite N.compare_refl.
Qed.

Lemma pretty_N_char_compare r1 r2 :
  r1 < 10 → r2 < 10 →
  Ascii.compare (pretty_N_char r1) (pretty_N_char r2) = (r1 ?= r2).
Proof.
  intros H1 H2.
  assert (Hr1 : r1 = 0 ∨ r1 = 1 ∨ r1 = 2 ∨ r1 = 3 ∨ r1 = 4 ∨ r1 = 5 ∨ r1 = 6
                ∨ r1 = 7 ∨ r1 = 8 ∨ r1 = 9) by lia.
  assert (Hr2 : r2 = 0 ∨ r2 = 1 ∨ r2 = 2 ∨ r2 = 3 ∨ r2 = 4 ∨ r2 = 5 ∨ r2 = 6
                ∨ r2 = 7 ∨ r2 = 8 ∨ r2 = 9) by lia.
  destruct Hr1 as [->|[->|[->|[->|[->|[->|[->|[->|[->| ->]]]]]]]]];
    destruct Hr2 as [->|[->|[->|[->|[->|[->|[->|[->|[->| ->]]]]]]]]]; reflexivity.
Qed.

(** The digits of a number, most significant first; none for 0. *)
Lemma pretty_N_go_app x s : pretty_N_go x s = pretty_N_go x "" +:+ s.
Proof.
  revert s. induction (N.lt_wf_0 x) as [x _ IH]; intros s.
  destruct (decide (x = 0)) as [->|Hx]; [done|].
  rewrite !(pretty_N_go_step x) by lia.
  rewrite (IH (x `div` 10)) by (apply N.div_lt; lia).
  rewrite (IH (x `div` 10) ltac:(apply N.div_lt; lia) (String _ "")).
  by rewrite append_assoc.
Qed.

Lemma pretty_N_go_digits x :
  0 < x →
  pretty_N_go x "" = pretty_N_go (x `div` 10) "" +:+ String (pretty_N_char (x `mod` 10)) "".
Proof. intros Hx. by rewrite pretty_N_go_step, pretty_N_go_app. Qed.

Lemma pretty_N_go_length_0 x : String.length (pretty_N_go x "") = 0%nat → x = 0.
Proof.
  intros Hlen. destruct (decide (x = 0)) as [->|Hx]; [done|].
  rewrite pretty_N_go_digits, snoc_length in Hlen by lia. lia.
Qed.

Lemma compare_digits qa ra qb rb :
  ra < 10 → rb < 10 →
  match qa ?= qb with
  | Eq => ra ?= rb
  | ne => ne
  end = (10 * qa + ra ?= 10 * qb + rb).
Proof.
  intros Ha Hb. symmetry. destruct (N.compare_spec qa qb).
  - destruct (N.compare_spec ra rb).
    + apply N.compare_eq_iff. lia.
    + apply N.compare_lt_iff. lia.
    + apply N.compare_gt_iff. lia.
  - apply N.compare_lt_iff. lia.
  - apply N.compare_gt_iff. lia.
Qed.

Lemma compare_div_mod a b :
  match a `div` 10 ?= b `div` 10 with
  | Eq => a `mod` 10 ?= b `mod` 10
  | ne => ne
  end = (a ?= b).
Proof.
  rewrite (N.div_mod' a 10) at 3. rewrite (N.div_mod' b 10) at 3.
  by apply compare_digits; apply N.mod_lt.
Qed.

Lemma pretty_N_go_compare n a b :
  String.length (pretty_N_go a "") = n → String.length (pretty_N_go b "") = n →
  String.compare (pretty_N_go a "") (pretty_N_go b "") = (a ?= b).
Proof.
  revert a b. induction n as [|n IH]; intros a b Ha Hb.
  - apply pretty_N_go_length_0 in Ha as ->. by apply pretty_N_go_length_0 in Hb as ->.
  - assert (0 < a) by (destruct (decide (a = 0)) as [->|]; [done|lia]).
    assert (0 < b) by (destruct (decide (b = 0)) as [->|]; [done|lia]).
    rewrite pretty_N_go_digits, snoc_length in Ha, Hb by done.
    rewrite (pretty_N_go_digits a), (pretty_N_go_digits b) by done.
    rewrite compare_snoc by lia.
    rewrite (IH (a `div` 10) (b `div` 10)) by lia.
    rewrite pretty_N_char_compare by (by apply N.mod_lt).
    apply compare_div_mod.
Qed.

Lemma pretty_N_compare (a b : N) :
  String.length (pretty a) = String.length (pretty b) →
  String.compare (pretty a) (pretty b) = (a ?= b).
Proof.
  unfold pretty, pretty_N.
  assert (Hsmall : ∀ x, x < 10 → (if decide (x = 0) then "0" else pretty_N_go x "")
                                 = String (pretty_N_char x) "").
  { intros x Hx. case_decide as H0; [by subst|].
    rewrite pretty_N_go_digits by lia.
    rewrite N.div_small, N.mod_small by done. done. }
  assert (Hbig : ∀ x, 10 ≤ x → (if decide (x = 0) then "0" else pretty_N_go x "")
                                = pretty_N_go x ""
                                ∧ (2 ≤ String.length (pretty_N_go x ""))%nat).
  { intros x Hx. rewrite decide_False by lia. split; [done|].
    assert (0 < x `div` 10) by (apply N.div_str_pos; lia).
    rewrite pretty_N_go_digits, snoc_length by lia.
    rewrite (pretty_N_go_digits (x `div` 10)), snoc_length by done. lia. }
  destruct (decide (a < 10)) as [Ha|Ha], (decide (b < 10)) as [Hb|Hb].
  - rewrite !Hsmall by done. intros _. cbn.
    rewrite pretty_N_char_compare by done. by destruct (a ?= b).
  - rewrite (Hsmall a) by done. destruct (Hbig b ltac:(lia)) as [-> Hl].
    intros Hlen. simpl in Hlen. lia.
  - rewrite (Hsmall b) by done. destruct (Hbig a ltac:(lia)) as [-> Hl].
    intros Hlen. simpl in Hlen. lia.
  - destruct (Hbig a ltac:(lia)) as [-> _], (Hbig b ltac:(lia)) as [-> _].
    intros Hlen. by eapply pretty_N_go_compare.
Qed.


End DecimalOrder.

(** ** Automatic snapshots *)

Section AutoBackup.

Import Backup.

Lemma autoBackups_spec (ls : gmap string string) :
  StronglySorted String.le (autoBackups ls)
  ∧ NoDup (autoBackups ls)
  ∧ ∀ k, k ∈ autoBackups ls ↔ k ∈ dom ls ∧ is_auto_backup k = true.
Proof.
  unfold autoBackups. split_and!.
  - apply StronglySorted_merge_sort; apply _.
  - rewrite merge_sort_Permutation. apply NoDup_filter, NoDup_elements.
  - intros k. rewrite merge_sort_Permutation, list_elem_of_filter, elem_of_elements.
    tauto.
Qed.

Lemma foldl_delete_dom (m : gmap string string) (l : list string) :
  dom (foldl (fun ls k => delete k ls) m l) = dom m ∖ list_to_set l.
Proof.
  revert m. induction l as [|k l IH]; intros m; cbn.
  - by rewrite difference_empty_L.
  - by rewrite IH, dom_delete_L, difference_difference_l_L.
Qed.

(** What one snapshot leaves: of the snapshot keys in storage after the
    write, the five greatest in string order, or all of them when there
    are at most five. *)
Lemma auto_backup_tick_keeps now snapshot (ls : gmap string string) :
  autoBackups (auto_backup_tick now snapshot ls)
  = drop (length (autoBackups (<[auto_backup_key now := snapshot]> ls)) - 5)
         (autoBackups (<[auto_backup_key now := snapshot]> ls)).
Proof.
  unfold auto_backup_tick.
  set (ls1 := <[auto_backup_key now := snapshot]> ls).
  set (ks := autoBackups ls1).
  destruct (autoBackups_spec ls1) as (Hsorted & Hnodup & Hin). fold ks in Hsorted, Hnodup, Hin.
  case_decide as Hlen.
  2:{ replace (length ks - 5) with 0 by lia. done. }
  set (n := length ks - 5).
  destruct (autoBackups_spec (foldl (fun ls k => delete k ls) ls1 (take n ks)))
    as (Hsorted' & Hnodup' & Hin').
  assert (Hsplit : ks = take n ks ++ drop n ks) by (by rewrite take_drop).
  assert (Hdisj : ∀ k, k ∈ take n ks → k ∉ drop n ks).
  { rewrite Hsplit in Hnodup. by apply NoDup_app in Hnodup as (_ & ? & _). }
  apply (StronglySorted_unique String.le); [done| |].
  - rewrite Hsplit in Hsorted. by apply StronglySorted_app_1_r in Hsorted.
  - apply NoDup_Permutation; [done| |].
    + rewrite Hsplit in Hnodup. by apply NoDup_app in Hnodup as (_ & _ & ?).
    + intros k. rewrite Hin', foldl_delete_dom, elem_of_difference, elem_of_list_to_set.
      split.
      * intros [[Hd Hnot] Ha].
        assert (Hk : k ∈ ks) by (by apply Hin).
        rewrite Hsplit in Hk. apply elem_of_app in Hk as [Hk|Hk]; [done|done].
      * intros Hk. assert (Hk' : k ∈ ks).
        { rewrite Hsplit. apply elem_of_app. by right. }
        apply Hin in Hk' as [Hd Ha]. split; [split; [done|]|done].
        intros Ht. by apply (Hdisj k).
Qed.

(** After every snapshot at most five snapshot entries remain. *)
Lemma auto_backup_tick_bound now snapshot (ls : gmap string string) :
  length (autoBackups (auto_backup_tick now snapshot ls)) ≤ 5.
Proof. rewrite auto_backup_tick_keeps, length_drop. lia. Qed.

Lemma auto_backup_key_inj (a b : N) : auto_backup_key a = auto_backup_key b → a = b.
Proof.
  unfold auto_backup_key. intros Heq.
  apply (inj (String.app PREFIX)) in Heq. by apply (inj pretty) in Heq.
Qed.

(** Keys of timestamps with the same number of digits are ordered as
    the timestamps are. *)
Lemma auto_backup_key_le (a b : N) :
  String.length (pretty a) = String.length (pretty b) →
  String.le (auto_backup_key a) (auto_backup_key b) ↔ (a ≤ b)%N.
Proof.
  intros Hlen. unfold String.le, String.leb, auto_backup_key.
  rewrite compare_prepend, (pretty_N_compare a b Hlen).
  destruct (N.compare_spec a b); split; intros; try done; lia.
Qed.

(** X22: As long as all snapshot keys in storage are timestamps of one width,
    a snapshot evicts oldest first: every key it removes has a smaller
    timestamp than every key it leaves. *)
Lemma auto_backup_tick_evicts_oldest now snapshot (ls : gmap string string)
    (width : nat) (t1 t2 : N) :
  (∀ k, k ∈ autoBackups (<[auto_backup_key now := snapshot]> ls) →
        ∃ t, k = auto_backup_key t ∧ String.length (pretty t) = width) →
  auto_backup_key t1 ∈ autoBackups (<[auto_backup_key now := snapshot]> ls) →
  auto_backup_key t1 ∉ autoBackups (auto_backup_tick now snapshot ls) →
  auto_backup_key t2 ∈ autoBackups (auto_backup_tick now snapshot ls) →
  (t1 < t2)%N.
Proof.
  rewrite auto_backup_tick_keeps.
  set (ks := autoBackups (<[auto_backup_key now := snapshot]> ls)).
  set (n := length ks - 5).
  intros Hwidth Hin1 Hout1 Hin2.
  destruct (autoBackups_spec (<[auto_backup_key now := snapshot]> ls))
    as (Hsorted & Hnodup & _). fold ks in Hsorted, Hnodup.
  rewrite <- (take_drop n ks) in Hsorted, Hnodup, Hin1.
  apply elem_of_app in Hin1 as [Hin1|Hin1]; [|done].
  assert (Hw : ∀ t, auto_backup_key t ∈ ks → String.length (pretty t) = width).
  { intros t Ht. destruct (Hwidth _ Ht) as (t' & Heq & Hlen).
    by apply auto_backup_key_inj in Heq as ->. }
  assert (Hle : (t1 ≤ t2)%N).
  { apply auto_backup_key_le.
    - rewrite !Hw; [done| |].
      + rewrite <- (take_drop n ks). apply elem_of_app. by right.
      + rewrite <- (take_drop n ks). apply elem_of_app. by left.
    - by apply (StronglySorted_app_1_elem_of String.le (take n ks) (drop n ks)). }
  assert (t1 ≠ t2).
  { intros ->. apply NoDup_app in Hnodup as (_ & Hdisj & _). by apply (Hdisj _ Hin1). }
  lia.
Qed.

(** On a clock that keeps its width, six snapshots leave the five most
    recent. *)
Example auto_backup_steady_clock :
  autoBackups (auto_backup_run steady_ticks ∅)
  = ["auto_backup_1700000600000"; "auto_backup_1700001200000";
     "auto_backup_1700001800000"; "auto_backup_1700002400000";
     "auto_backup_1700003000000"].
Proof. by vm_compute. Qed.

(** C3 fails on the code: six snapshots, ten minutes apart, the sixth
    taken when the clock has gained a digit.  Exactly five entries
    remain, but the one evicted is the newest, because its key is the
    least in string order; the oldest is still there. *)
Lemma auto_backup_evicts_newest :
  autoBackups (auto_backup_run six_ticks ∅)
  = ["auto_backup_7200000"; "auto_backup_7800000"; "auto_backup_8400000";
     "auto_backup_9000000"; "auto_backup_9600000"]
  ∧ auto_backup_run six_ticks ∅ !! auto_backup_key 10200000 = None
  ∧ auto_backup_run six_ticks ∅ !! auto_backup_key 7200000 = Some "s1".
Proof. by vm_compute. Qed.

End AutoBackup.

(** ** Backup import *)

Section ImportBackup.

Import Backup.

(** C7, as stated, fails: the file below parses as JSON and the parsed
    value has a [version] field and a [documents] field, yet
    [importBackup] rejects it, because the guard tests the fields for
    truthiness and the empty string is falsy. *)
Lemma importBackup_rejects_falsy_version :
  file_unreadable empty_version_file = false
  ∧ (∃ data, file_json empty_version_file = Return data
             ∧ has_field data "version" ∧ has_field data "documents")
  ∧ importBackup empty_version_file = Rejected (NewError "Invalid backup file format").
Proof.
  split; [reflexivity|]. split; [|reflexivity].
  eexists. split; [reflexivity|]. split; cbn; eauto.
Qed.

Lemma get_property_not_null data k :
  data ≠ JNull → ∃ v, get_property data k = Return v.
Proof. destruct data; cbn; eauto. done. Qed.

(** C7, amended: [importBackup] resolves with the parsed value exactly
    when the file is read, its content parses as JSON, and the [version]
    and [documents] properties of the parsed value are both truthy.  In
    every other case it rejects: a file that cannot be read with "Failed
    to read file"; a parse error as it is; the JSON value [null] with the
    [TypeError] of reading a property of [null]; any other parsed value
    whose [version] or [documents] is missing or falsy with "Invalid
    backup file format". *)
Theorem importBackup_resolves_iff_truthy (file : File) (data : JValue) :
  (importBackup file = Fulfilled data ↔
     file_unreadable file = false
     ∧ file_json file = Return data
     ∧ ∃ v d, get_property data "version" = Return v ∧ truthy v = true
              ∧ get_property data "documents" = Return d ∧ truthy d = true)
  ∧ (file_unreadable file = true →
     importBackup file = Rejected (NewError "Failed to read file"))
  ∧ (∀ e, file_unreadable file = false → file_json file = Throw e →
     importBackup file = Rejected e)
  ∧ (file_unreadable file = false → file_json file = Return JNull →
     importBackup file
     = Rejected (PlatformError "TypeError"
                   "Cannot read properties of null (reading 'version')"))
  ∧ (file_unreadable file = false → file_json file = Return data → data ≠ JNull →
     ∃ v d, get_property data "version" = Return v
            ∧ get_property data "documents" = Return d
            ∧ (truthy v && truthy d = false →
               importBackup file = Rejected (NewError "Invalid backup file format"))).
Proof.
  unfold importBackup. split_and!.
  - split.
    + destruct (file_unreadable file); [discriminate|].
      destruct (file_json file) as [data'|e]; [|discriminate].
      destruct (get_property data' "version") as [v|e] eqn:Hv; [|discriminate].
      destruct (truthy v) eqn:Htv; [|discriminate]. cbn.
      destruct (get_property data' "documents") as [d|e] eqn:Hd; [|discriminate].
      destruct (truthy d) eqn:Htd; [|discriminate]. cbn.
      intros [= <-]. eauto 10.
    + intros (-> & -> & v & d & -> & -> & -> & ->). reflexivity.
  - by intros ->.
  - by intros e -> ->.
  - by intros -> ->.
  - intros -> -> Hnull.
    destruct (get_property_not_null data "version" Hnull) as (v & Hv).
    destruct (get_property_not_null data "documents" Hnull) as (d & Hd).
    exists v, d. split; [done|]. split; [done|]. rewrite Hv, Hd. intros Ht.
    destruct (truthy v); cbn in *; [by rewrite Ht|done].
Qed.

(** The amended statement at a well-formed backup. *)
Lemma importBackup_resolves_iff_truthy_witness :
  importBackup (mkFile false (Return (JObject [("version", JString "1.0");
                                               ("documents", JArray [])])))
  = Fulfilled (JObject [("version", JString "1.0"); ("documents", JArray [])]).
Proof.
  apply (importBackup_resolves_iff_truthy _ _).
  split; [reflexivity|]. split; [reflexivity|].
  exists (Some (JString "1.0")), (Some (JArray [])). by vm_compute.
Defined.

End ImportBackup.

(** ** The asset store: the claims *)

Section Claims.

Import AssetStore.

Lemma triple_eta {A B C} (x : A * B * C) : x = (x.1.1, x.1.2, x.2).
Proof. by destruct x as [[? ?] ?]. Qed.

Lemma request_in_requests evs r : EvRequest r ∈ evs → r ∈ requests evs.
Proof. intros Hin. apply list_elem_of_omap. by exists (EvRequest r). Qed.

(** C10: a call of [saveAsset] without an id places no [get] request,
    stores under the generated id and, when neither [createdAt] nor
    [updatedAt] is overridden, returns and stores [createdAt = updatedAt],
    both the time read at the start of the call; on a calm platform the
    call does resolve. *)
Theorem saveAsset_without_id fresh now file options w r w' evs :
  opt_id options = None →
  saveAsset fresh now file options w = (r, w', evs) →
  (∀ id, EvRequest (ReqGet id) ∉ evs)
  ∧ (∀ record, EvRequest (ReqPut record) ∈ evs → rec_id record = fresh)
  ∧ (opt_createdAt options = None → opt_updatedAt options = None →
     ∀ m, r = Return (Fulfilled m) →
       meta_id m = fresh ∧ meta_createdAt m = now ∧ meta_updatedAt m = now
       ∧ meta_createdAt m = meta_updatedAt m
       ∧ ∃ record, assets w' !! fresh = Some record
                   ∧ rec_createdAt record = now ∧ rec_updatedAt record = now)
  ∧ (calm w → ∃ m, r = Return (Fulfilled m)).
Proof.
  intros Hid Hs. pose proof (saveAsset_requests _ _ _ _ _ _ _ _ Hs) as Hreq.
  rewrite Hid in Hreq. cbn in Hreq.
  split_and!.
  - intros id Hin%request_in_requests.
    destruct Hreq as [Hr|Hr]; rewrite Hr in Hin.
    + by apply elem_of_nil in Hin.
    + by apply list_elem_of_singleton in Hin.
  - intros record Hin%request_in_requests.
    destruct Hreq as [Hr|Hr]; rewrite Hr in Hin.
    + by apply elem_of_nil in Hin.
    + apply list_elem_of_singleton in Hin. by injection Hin as ->.
  - intros Hc Hu m ->.
    destruct (saveAsset_fulfilled _ _ _ _ _ _ _ _ Hs) as (-> & Hw).
    rewrite Hid in Hw |- *. cbn in Hw |- *. rewrite Hc, Hu. cbn.
    split_and!; try done. eexists. rewrite Hw, lookup_insert_eq. split; [done|].
    cbn. by rewrite Hc, Hu.
  - intros Hcalm.
    destruct (saveAsset_calm fresh now file options w Hcalm) as (m & w1 & evs1 & Hs').
    rewrite Hs in Hs'. injection Hs' as -> _ _. eauto.
Qed.

(** C10 on a calm platform. *)
Lemma saveAsset_without_id_witness :
  ∃ m, (saveAsset "7f3c" 100 text_blob no_options calm_world).1.1 = Return (Fulfilled m)
       ∧ meta_id m = "7f3c" ∧ meta_createdAt m = 100%Z ∧ meta_updatedAt m = 100%Z.
Proof.
  destruct (saveAsset_without_id "7f3c" 100 text_blob no_options calm_world _ _ _
              eq_refl (triple_eta _)) as (_ & _ & Hm & Hex).
  destruct Hex as (m & Hr).
  { split; [by right|]. split; constructor. }
  exists m. split; [exact Hr|].
  destruct (Hm eq_refl eq_refl m Hr) as (? & ? & ? & _). done.
Defined.

(** C1, amended: for a call of [saveAsset] without a [createdAt]
    override, whose id is not the empty string, the record stored and the
    metadata returned have the [createdAt] of the record that was stored
    under the supplied id, and the time of the call when there is no such
    record or no id is supplied; [updatedAt] is the [updatedAt] override
    when there is one and the time of the call otherwise.  On a calm
    platform the call does resolve. *)
Theorem saveAsset_keeps_createdAt fresh now file options w r w' evs :
  opt_id options ≠ Some "" →
  opt_createdAt options = None →
  saveAsset fresh now file options w = (r, w', evs) →
  (∀ m, r = Return (Fulfilled m) →
     meta_createdAt m =
       match opt_id options ≫= (fun id => assets w !! id) with
       | Some old => rec_createdAt old
       | None => now
       end
     ∧ meta_updatedAt m = nullish (opt_updatedAt options) now
     ∧ ∃ record, assets w' !! nullish (opt_id options) fresh = Some record
                 ∧ rec_createdAt record = meta_createdAt m
                 ∧ rec_updatedAt record = meta_updatedAt m)
  ∧ (calm w → ∃ m, r = Return (Fulfilled m)).
Proof.
  intros Hid Hc Hs. split.
  - intros m ->.
    destruct (saveAsset_fulfilled _ _ _ _ _ _ _ _ Hs) as (-> & Hw).
    cbn. rewrite Hc. cbn.
    assert (Hex : (if truthy_string (opt_id options)
                   then assets w !! nullish (opt_id options) fresh else None)
                  = opt_id options ≫= (fun id => assets w !! id)).
    { destruct (opt_id options) as [id|]; cbn; [|done].
      rewrite bool_decide_eq_false_2; [done|]. by intros ->. }
    rewrite Hex in Hw |- *. split_and!.
    + by destruct (opt_id options ≫= _).
    + done.
    + eexists. rewrite Hw, lookup_insert_eq. split; [done|]. cbn. by rewrite Hc.
  - intros Hcalm.
    destruct (saveAsset_calm fresh now file options w Hcalm) as (m & w1 & evs1 & Hs').
    rewrite Hs in Hs'. injection Hs' as -> _ _. eauto.
Qed.

(** The amended C1 at a second save under the id of a stored asset. *)
Lemma saveAsset_keeps_createdAt_witness :
  ∃ m, (saveAsset "7f3c" 100 text_blob
          (mkOptions (Some "logo") None None None None) logo_world).1.1
       = Return (Fulfilled m)
       ∧ meta_createdAt m = 1%Z ∧ meta_updatedAt m = 100%Z.
Proof.
  destruct (saveAsset_keeps_createdAt "7f3c" 100 text_blob
              (mkOptions (Some "logo") None None None None) logo_world _ _ _
              ltac:(discriminate) eq_refl (triple_eta _)) as (Hm & Hex).
  destruct Hex as (m & Hr).
  { split; [by left|]. split; constructor. }
  exists m. split; [exact Hr|].
  destruct (Hm m Hr) as (Hc & Hu & _). split; [exact Hc|exact Hu].
Defined.

(** C1, as stated, fails: an id whose record exists and no [createdAt]
    override, yet [updatedAt] is not stamped with the time of the call
    (100) but is the override (5). *)
Lemma saveAsset_updatedAt_override :
  saveAsset "7f3c" 100 text_blob (mkOptions (Some "logo") None None None (Some 5%Z))
            logo_world
  = (Return (Fulfilled (mkMeta "logo" "asset" "text/plain;charset=utf-8" 5 1 5)),
     set_assets {["logo" := mkRecord "logo" "asset" "text/plain;charset=utf-8" 5 1 5
                                     text_blob]} logo_world,
     [EvTransaction "assets" readwrite; EvRequest (ReqGet "logo");
      EvRequest (ReqPut (mkRecord "logo" "asset" "text/plain;charset=utf-8" 5 1 5
                                  text_blob));
      EvTxComplete; EvResolve]).
Proof. by vm_compute. Qed.

(** An id that is the empty string is kept as the id ([??]) but is not
    looked up ([options.id ? ... : undefined]): the record stored under it
    is replaced without a [get], and [createdAt] is stamped anew. *)
Remark saveAsset_empty_id_is_not_looked_up :
  saveAsset "7f3c" 100 text_blob (mkOptions (Some EmptyString) None None None None)
            (set_assets {[EmptyString := logo]} logo_world)
  = (Return (Fulfilled (mkMeta EmptyString "asset" "text/plain;charset=utf-8" 5 100 100)),
     set_assets {[EmptyString := mkRecord EmptyString "asset" "text/plain;charset=utf-8"
                                          5 100 100 text_blob]} logo_world,
     [EvTransaction "assets" readwrite;
      EvRequest (ReqPut (mkRecord EmptyString "asset" "text/plain;charset=utf-8"
                                  5 100 100 text_blob));
      EvTxComplete; EvResolve]).
Proof. by vm_compute. Qed.



(** The amended C4 at a [saveAsset] on a calm platform. *)
Lemma operations_run_in_transactions_witness :
  length (transactions (perform (OpSave "7f3c" 100 text_blob no_options) calm_world).2) = 1
  ∧ completions (perform (OpSave "7f3c" 100 text_blob no_options) calm_world).2
    = length (transactions (perform (OpSave "7f3c" 100 text_blob no_options) calm_world).2)
  ∧ resolves_on_complete (perform (OpSave "7f3c" 100 text_blob no_options) calm_world).2.
Proof.
  destruct (operations_run_in_transactions
              (OpSave "7f3c" 100 text_blob no_options) calm_world _ _ _ (triple_eta _))
    as (_ & Hcount & _ & Hres & Hdone).
  split; [apply Hcount; by right|].
  split; [apply Hdone; by vm_compute|exact Hres].
Defined.

(** C4, as stated, fails for [getAssetsByIds]: two ids are read in two
    transactions, and no id in none. *)
Lemma getMany_runs_a_transaction_per_id :
  perform (OpGetMany ["logo"; "icon"]) calm_world
  = (Return (Fulfilled tt),
     mkWorld (Some (Fulfilled TheDatabase)) (IDBFactory OpenSuccess) ∅ [] [],
     [EvGetIndexedDB; EvOpen "documentAssetStore" 1;
      EvTransaction "assets" readonly; EvRequest (ReqGet "logo");
      EvTxComplete; EvResolve;
      EvTransaction "assets" readonly; EvRequest (ReqGet "icon");
      EvTxComplete; EvResolve])
  ∧ perform (OpGetMany []) calm_world = (Return (Fulfilled tt), calm_world, []).
Proof. by vm_compute. Qed.

(** The amended C8 at [listAllAssets] in a browser without
    [indexedDB]. *)
Lemma missing_indexedDB_rejects_witness :
  (perform OpList bare_world).1.1
  = Return (Rejected (NewError "IndexedDB is not supported in this environment."))
  ∧ (perform OpList bare_world).2 = [EvGetIndexedDB].
Proof.
  destruct (missing_indexedDB_rejects OpList bare_world _ _ _ (triple_eta _)) as (_ & Hbare & _).
  destruct (Hbare ltac:(discriminate) eq_refl eq_refl) as (Hr & Hevs & _).
  split; [exact Hr|exact Hevs].
Defined.

(** C8, as stated, fails: without [indexedDB] a call of [getAsset]
    returns normally, with a promise that is rejected; and
    [getAssetsByIds] of no id does not fail at all. *)
Lemma missing_indexedDB_is_not_thrown :
  getAsset "logo" bare_world
  = (Return (Rejected (NewError "IndexedDB is not supported in this environment.")),
     mkWorld (Some (Rejected (NewError "IndexedDB is not supported in this environment.")))
             IDBUndefined ∅ [] [],
     [EvGetIndexedDB])
  ∧ perform (OpGetMany []) bare_world = (Return (Fulfilled tt), bare_world, []).
Proof. by vm_compute. Qed.

End Claims.

(** ** The auth retry loop *)

Section RetryLoop.

Import Auth.

Context {D : Type}.
Variable call : nat → Response D.

Lemma attempt_loop_head fuel a last res evs :
  attempt_loop call (S fuel) a last = (res, evs) → ∃ tl, evs = Call a :: tl.
Proof.
  cbn. destruct (resp_error (call a)) as [e|].
  - destruct (is_transient e).
    + destruct (attempt_loop call fuel (S a) (Some e)) as [res' evs'].
      intros [= <- <-]. eauto.
    + intros [= <- <-]. eauto.
  - intros [= <- <-]. eauto.
Qed.

Lemma attempt_loop_calls fuel a last res evs :
  attempt_loop call fuel a last = (res, evs) →
  ∃ n, n ≤ fuel ∧ (0 < fuel → 0 < n) ∧ calls evs = seq a n.
Proof.
  revert a last res evs. induction fuel as [|fuel IH]; intros a last res evs; cbn.
  - intros [= <- <-]. exists 0. split_and!; [lia|lia|done].
  - destruct (resp_error (call a)) as [e|].
    + destruct (is_transient e).
      * destruct (attempt_loop call fuel (S a) (Some e)) as [res' evs'] eqn:Hrec.
        intros [= <- <-]. destruct (IH _ _ _ _ Hrec) as (n & Hn & _ & Hc).
        exists (S n). split_and!; [lia|lia|]. cbn. by rewrite <- Hc.
      * intros [= <- <-]. exists 1. split_and!; [lia|lia|done].
    + intros [= <- <-]. exists 1. split_and!; [lia|lia|done].
Qed.

Lemma call_in_calls evs i : Call i ∈ evs → i ∈ calls evs.
Proof. intros Hin. apply list_elem_of_omap. by exists (Call i). Qed.

Lemma attempt_loop_from fuel a last res evs i :
  attempt_loop call fuel a last = (res, evs) → Call i ∈ evs → a ≤ i.
Proof.
  intros Hl Hin%call_in_calls.
  destruct (attempt_loop_calls _ _ _ _ _ Hl) as (n & _ & _ & Hc).
  rewrite Hc in Hin. apply elem_of_seq in Hin. lia.
Qed.

Lemma attempt_loop_retry fuel a last res evs i :
  attempt_loop call fuel a last = (res, evs) →
  a ≤ i → Call (S i) ∈ evs →
  (∃ e, resp_error (call i) = Some e ∧ is_transient e = true)
  ∧ ∃ pre post, evs = pre ++ [Call i; Delay (400 * 2 ^ Z.of_nat i); Call (S i)] ++ post.
Proof.
  revert a last res evs. induction fuel as [|fuel IH]; intros a last res evs; cbn.
  { intros [= <- <-] _ Hin. by apply elem_of_nil in Hin. }
  destruct (resp_error (call a)) as [e|] eqn:He.
  - destruct (is_transient e) eqn:Ht.
    + destruct (attempt_loop call fuel (S a) (Some e)) as [res' evs'] eqn:Hrec.
      intros [= <- <-] Hle Hin.
      apply elem_of_cons in Hin as [[=]|Hin]; [lia|].
      apply elem_of_cons in Hin as [[=]|Hin].
      destruct (decide (i = a)) as [->|Hne].
      * split; [eauto|]. destruct fuel as [|fuel].
        { cbn in Hrec. injection Hrec as <- <-. by apply elem_of_nil in Hin. }
        destruct (attempt_loop_head _ _ _ _ _ Hrec) as (tl & ->).
        by exists [], tl.
      * destruct (IH _ _ _ _ Hrec ltac:(lia) Hin) as (Htr & pre & post & ->).
        split; [done|]. by exists (Call a :: Delay (400 * 2 ^ Z.of_nat a) :: pre), post.
    + intros [= <- <-] Hle Hin. apply list_elem_of_singleton in Hin. injection Hin as <-. lia.
  - intros [= <- <-] Hle Hin. apply list_elem_of_singleton in Hin. injection Hin as <-. lia.
Qed.

Lemma attempt_loop_settles fuel a lastError res evs i :
  attempt_loop call fuel a lastError = (res, evs) → Call i ∈ evs →
  (∀ e, resp_error (call i) = Some e → is_transient e = false →
     res = mkResult None (Some e) ∧ last evs = Some (Call i))
  ∧ (resp_error (call i) = None →
     res = mkResult (Some (resp_data (call i))) None ∧ last evs = Some (Call i)).
Proof.
  revert a lastError res evs. induction fuel as [|fuel IH]; intros a lastError res evs; cbn.
  { intros [= <- <-] Hin. by apply elem_of_nil in Hin. }
  destruct (resp_error (call a)) as [e|] eqn:He.
  - destruct (is_transient e) eqn:Ht.
    + destruct (attempt_loop call fuel (S a) (Some e)) as [res2 evs2] eqn:Hrec.
      intros [= <- <-] Hin.
      apply elem_of_cons in Hin as [[= ->]|Hin].
      { split; [intros e2 He2 Ht2|intros He2]; congruence. }
      apply elem_of_cons in Hin as [[=]|Hin].
      destruct (IH _ _ _ _ Hrec Hin) as (IH1 & IH2).
      assert (Hlast : ∀ x, last evs2 = Some x →
                last (Call a :: Delay (400 * 2 ^ Z.of_nat a) :: evs2) = Some x).
      { intros x Hx. by rewrite !last_cons, Hx. }
      split.
      * intros e2 He2 Ht2. destruct (IH1 e2 He2 Ht2) as (-> & Hl). auto.
      * intros He2. destruct (IH2 He2) as (-> & Hl). auto.
    + intros [= <- <-] Hin. apply list_elem_of_singleton in Hin. injection Hin as ->.
      split; [|congruence]. intros e2 He2 _. split; [congruence|done].
  - intros [= <- <-] Hin. apply list_elem_of_singleton in Hin. injection Hin as ->.
    split; [congruence|]. done.
Qed.

Lemma attempt_loop_prefix fuel a last res evs :
  attempt_loop call fuel a last = (res, evs) →
  evs `prefix_of`
    flat_map (fun attempt => [Call attempt; Delay (400 * 2 ^ Z.of_nat attempt)]) (seq a fuel).
Proof.
  revert a last res evs. induction fuel as [|fuel IH]; intros a last res evs; cbn.
  - intros [= <- <-]. apply prefix_nil.
  - destruct (resp_error (call a)) as [e|].
    + destruct (is_transient e).
      * destruct (attempt_loop call fuel (S a) (Some e)) as [res' evs'] eqn:Hrec.
        intros [= <- <-]. do 2 apply prefix_cons. by eapply IH.
      * intros [= <- <-]. apply prefix_cons, prefix_nil.
    + intros [= <- <-]. apply prefix_cons, prefix_nil.
Qed.

Lemma attempt_loop_transient fuel a last res evs i e :
  attempt_loop call fuel a last = (res, evs) → Call i ∈ evs →
  resp_error (call i) = Some e → is_transient e = true →
  Delay (400 * 2 ^ Z.of_nat i) ∈ evs
  ∧ (S i < a + fuel → Call (S i) ∈ evs)
  ∧ (S i = a + fuel → res = mkResult None (Some e)).
Proof.
  revert a last res evs. induction fuel as [|fuel IH]; intros a last res evs; cbn.
  { intros [= <- <-] Hin. by apply elem_of_nil in Hin. }
  destruct (resp_error (call a)) as [e'|] eqn:He.
  - destruct (is_transient e') eqn:Ht.
    + destruct (attempt_loop call fuel (S a) (Some e')) as [res' evs'] eqn:Hrec.
      intros [= <- <-] Hin Hei Hti.
      apply elem_of_cons in Hin as [[= ->]|Hin].
      * assert (e' = e) as -> by congruence.
        split; [apply list_elem_of_further, list_elem_of_here|]. split.
        -- intros Hlt. destruct fuel as [|fuel]; [lia|].
           destruct (attempt_loop_head _ _ _ _ _ Hrec) as (tl & ->).
           do 2 apply list_elem_of_further. apply list_elem_of_here.
        -- intros Heq. assert (fuel = 0) as -> by lia. cbn in Hrec. by injection Hrec as <- _.
      * apply elem_of_cons in Hin as [[=]|Hin].
        destruct (IH _ _ _ _ Hrec Hin Hei Hti) as (Hd & Hnext & Hend).
        split; [by do 2 apply list_elem_of_further|]. split.
        -- intros Hlt. do 2 apply list_elem_of_further. apply Hnext. lia.
        -- intros Heq. apply Hend. lia.
    + intros [= <- <-] Hin Hei Hti. apply list_elem_of_singleton in Hin. injection Hin as ->.
      congruence.
  - intros [= <- <-] Hin Hei Hti. apply list_elem_of_singleton in Hin. injection Hin as ->.
    congruence.
Qed.

Lemma attempt_loop_spec res evs :
  attempt_loop call 3 0 None = (res, evs) → retry_spec call res evs.
Proof.
  intros Hl. split_and!.
  - destruct (attempt_loop_calls _ _ _ _ _ Hl) as (n & Hn & Hpos & Hc).
    exists n. split; [lia|done].
  - destruct (attempt_loop_head _ _ _ _ _ Hl) as (tl & ->). done.
  - by eapply attempt_loop_prefix.
  - intros i Hin. eapply attempt_loop_retry; [exact Hl|lia|done].
  - intros i e Hin He Ht.
    destruct (attempt_loop_transient _ _ _ _ _ _ _ Hl Hin He Ht) as (Hd & Hnext & Hend).
    split; [done|]. split; [intros; apply Hnext; lia|intros; apply Hend; lia].
  - intros i e Hin He Ht. by eapply attempt_loop_settles.
  - intros i Hin He. by eapply attempt_loop_settles.
Qed.

Lemma schedule_prefixes (evs : list Event) :
  evs ≠ [] → evs `prefix_of` schedule →
  evs = [Call 0] ∨ evs = [Call 0; Delay 400] ∨ evs = [Call 0; Delay 400; Call 1]
  ∨ evs = [Call 0; Delay 400; Call 1; Delay 800]
  ∨ evs = [Call 0; Delay 400; Call 1; Delay 800; Call 2]
  ∨ evs = [Call 0; Delay 400; Call 1; Delay 800; Call 2; Delay 1600].
Proof.
  intros Hne [k Hk]. change schedule with
    [Call 0; Delay 400; Call 1; Delay 800; Call 2; Delay 1600] in Hk.
  destruct evs as [|e1 [|e2 [|e3 [|e4 [|e5 [|e6 [|e7 evs]]]]]]]; [done|..];
    simplify_eq/=; auto 10.
Qed.


Lemma attempt_loop_S fuel a lastError :
  attempt_loop call (S fuel) a lastError
  = match resp_error (call a) with
    | None => (mkResult (Some (resp_data (call a))) None, [Call a])
    | Some error =>
        if is_transient error then
          let (res, evs) := attempt_loop call fuel (S a) (Some error) in
          (res, Call a :: Delay (400 * 2 ^ Z.of_nat a) :: evs)
        else (mkResult None (Some error), [Call a])
    end.
Proof. reflexivity. Qed.

Ltac in_list := solve [repeat first [apply list_elem_of_here | apply list_elem_of_further]].
Ltac not_in H :=
  exfalso; repeat (apply elem_of_cons in H as [H|H]; [discriminate H|]);
  revert H; apply not_elem_of_nil.

(** What is claimed of the loop is claimed of one result only. *)
Lemma retry_spec_unique res evs :
  retry_spec call res evs → attempt_loop call 3 0 None = (res, evs).
Proof.
  intros (_ & [Hne Hpre] & Honly & Hif & Hstop & Hok).
  assert (Hcase : ∀ i, Call i ∈ evs →
            (resp_error (call i) = None
             ∧ res = mkResult (Some (resp_data (call i))) None ∧ last evs = Some (Call i))
            ∨ (∃ e, resp_error (call i) = Some e ∧ is_transient e = false
                    ∧ res = mkResult None (Some e) ∧ last evs = Some (Call i))
            ∨ (∃ e, resp_error (call i) = Some e ∧ is_transient e = true
                    ∧ Delay (400 * 2 ^ Z.of_nat i) ∈ evs
                    ∧ (i < 2 → Call (S i) ∈ evs)
                    ∧ (i = 2 → res = mkResult None (Some e)))).
  { intros i Hin. destruct (resp_error (call i)) as [e|] eqn:He.
    - destruct (is_transient e) eqn:Ht.
      + right; right. exists e. split; [done|]. split; [done|]. by apply Hif.
      + right; left. exists e. split; [done|]. split; [done|]. by apply Hstop.
    - left. split; [done|]. by apply Hok. }
  assert (Hprev : ∀ i, Call (S i) ∈ evs →
            ∃ e, resp_error (call i) = Some e ∧ is_transient e = true).
  { intros i Hin. by destruct (Honly i Hin). }
  clear Honly Hif Hstop Hok.
  destruct (schedule_prefixes evs Hne Hpre) as [->|[->|[->|[->|[->| ->]]]]].
  - destruct (Hcase 0 ltac:(in_list))
      as [(H0 & -> & _)|[(e & H0 & Ht & -> & _)|(e & _ & _ & Hd & _)]].
    + by rewrite attempt_loop_S, H0.
    + by rewrite attempt_loop_S, H0, Ht.
    + not_in Hd.
  - destruct (Hcase 0 ltac:(in_list))
      as [(_ & _ & [=])|[(e & _ & _ & _ & [=])|(e & _ & _ & _ & Hnext & _)]].
    specialize (Hnext ltac:(lia)). not_in Hnext.
  - destruct (Hprev 0 ltac:(in_list)) as (e0 & H0 & Ht0).
    rewrite attempt_loop_S, H0, Ht0.
    destruct (Hcase 1 ltac:(in_list))
      as [(H1 & -> & _)|[(e & H1 & Ht & -> & _)|(e & _ & _ & Hd & _)]].
    + by rewrite attempt_loop_S, H1.
    + by rewrite attempt_loop_S, H1, Ht.
    + not_in Hd.
  - destruct (Hcase 1 ltac:(in_list))
      as [(_ & _ & [=])|[(e & _ & _ & _ & [=])|(e & _ & _ & _ & Hnext & _)]].
    specialize (Hnext ltac:(lia)). not_in Hnext.
  - destruct (Hprev 0 ltac:(in_list)) as (e0 & H0 & Ht0).
    destruct (Hprev 1 ltac:(in_list)) as (e1 & H1 & Ht1).
    rewrite attempt_loop_S, H0, Ht0, attempt_loop_S, H1, Ht1.
    destruct (Hcase 2 ltac:(in_list))
      as [(H2 & -> & _)|[(e & H2 & Ht & -> & _)|(e & _ & _ & Hd & _)]].
    + by rewrite attempt_loop_S, H2.
    + by rewrite attempt_loop_S, H2, Ht.
    + not_in Hd.
  - destruct (Hprev 0 ltac:(in_list)) as (e0 & H0 & Ht0).
    destruct (Hprev 1 ltac:(in_list)) as (e1 & H1 & Ht1).
    rewrite attempt_loop_S, H0, Ht0, attempt_loop_S, H1, Ht1.
    destruct (Hcase 2 ltac:(in_list))
      as [(_ & _ & [=])|[(e & _ & _ & _ & [=])|(e & H2 & Ht & _ & _ & Hres)]].
    rewrite (Hres eq_refl). by rewrite attempt_loop_S, H2, Ht.
Qed.

End RetryLoop.

Section SignInUp.

Import Auth.

Context {D : Type}.
Variable signInWithPassword : SignInRequest → nat → Response D.
Variable auth_signUp : SignUpRequest → nat → Response D.

(** C6: whatever the backend answers, [signIn] and [signUp] resolve
    (nothing is thrown) after at most three attempts.  An attempt is
    repeated after a transient failure, and only then, after a delay of
    400 ms times 2 to the power of the index of the failed attempt; the
    transient failure of the third attempt is returned.  Any other
    failure is returned at once, and so is a success.  The result and
    the events of the call are the only ones of which all this is
    true. *)
Theorem signIn_signUp_retry (origin baseUrl mobileNumber password : string) :
  (∃ res evs,
     signIn signInWithPassword mobileNumber password = (Fulfilled res, evs)
     ∧ retry_spec
         (signInWithPassword (mkSignIn (mobileNumber +:+ "@app.local") password))
         res evs
     ∧ ∀ res' evs',
         retry_spec
           (signInWithPassword (mkSignIn (mobileNumber +:+ "@app.local") password))
           res' evs' →
         res' = res ∧ evs' = evs)
  ∧ (∃ res evs,
       signUp auth_signUp origin baseUrl mobileNumber password = (Fulfilled res, evs)
       ∧ retry_spec
           (auth_signUp (mkSignUp (mobileNumber +:+ "@app.local") password
                                  (origin +:+ baseUrl) mobileNumber))
           res evs
       ∧ ∀ res' evs',
           retry_spec
             (auth_signUp (mkSignUp (mobileNumber +:+ "@app.local") password
                                    (origin +:+ baseUrl) mobileNumber))
             res' evs' →
           res' = res ∧ evs' = evs).
Proof.
  unfold signIn, signUp. split.
  - destruct (attempt_loop _ 3 0 None) as [res evs] eqn:Hl.
    exists res, evs. split; [done|]. split; [by apply attempt_loop_spec|].
    intros res' evs' Hspec%retry_spec_unique. rewrite Hl in Hspec. by injection Hspec.
  - destruct (attempt_loop _ 3 0 None) as [res evs] eqn:Hl.
    exists res, evs. split; [done|]. split; [by apply attempt_loop_spec|].
    intros res' evs' Hspec%retry_spec_unique. rewrite Hl in Hspec. by injection Hspec.
Qed.

End SignInUp.

(** A backend that is unavailable once and then signs the user in: the
    second attempt succeeds, after 400 ms. *)
Example signIn_retries_after_503 :
  Auth.signIn (fun _ => unavailable_once) "5550100" "secret"
  = (Fulfilled (Auth.mkResult (Some "session") None),
     [Auth.Call 0; Auth.Delay 400; Auth.Call 1]).
Proof. reflexivity. Qed.

(** ** Checks of the platform models on known values *)

Section Checks.

Import DataUrl Auth.

(** RFC 4648, section 10. *)
Example base64_foobar :
  String.string_of_list_ascii <$>
    (base64 ∘ String.list_byte_of_string <$> ["f"; "fo"; "foo"; "foob"; "fooba"; "foobar"])
  = ["Zg=="; "Zm8="; "Zm9v"; "Zm9vYg=="; "Zm9vYmE="; "Zm9vYmFy"].
Proof. reflexivity. Qed.

(** [atob] forgives whitespace and missing padding, and refuses a length
    of 1 modulo 4, misplaced padding and foreign characters. *)
Example atob_forgiving :
  atob "Zm9v YmE=" = Return "fooba"
  ∧ atob "Zm9vYmE" = Return "fooba"
  ∧ atob "Zm9vY" = Throw InvalidCharacterError
  ∧ atob "Zm9=" = Return "fo"
  ∧ atob "Zg=" = Throw InvalidCharacterError
  ∧ atob "Zm9v!" = Throw InvalidCharacterError
  ∧ atob "undefined" = Throw InvalidCharacterError.
Proof. repeat split; reflexivity. Qed.

(** The media type the decoder reads off the part before the comma. *)
Example mime_exec_samples :
  String.string_of_list_ascii <$> mime_exec (chars "data:image/png;base64") = Some "image/png"
  ∧ String.string_of_list_ascii <$> mime_exec (chars "DATA:Image/PNG;BASE64") = Some "Image/PNG"
  ∧ String.string_of_list_ascii <$> mime_exec (chars "data:text/plain;charset=utf-8")
    = Some "text/plain;charset=utf-8"
  ∧ String.string_of_list_ascii <$> mime_exec (chars "xdata:data:a") = Some "data:a"
  ∧ mime_exec (chars "image/png;base64") = None.
Proof. repeat split; reflexivity. Qed.

(** A data URL without a comma has no data part: [atob(undefined)]
    throws. *)
Example dataUrlToBlob_without_comma :
  dataUrlToBlob "data:text/plain;base64" = Throw InvalidCharacterError.
Proof. reflexivity. Qed.

(** The failures the retry loop takes for transient. *)
Example is_transient_samples :
  is_transient (mkAuthError (Some 503%Z) "upstream error") = true
  ∧ is_transient (mkAuthError None "503 Service unavailable") = true
  ∧ is_transient (mkAuthError None "Network request failed") = true
  ∧ is_transient (mkAuthError (Some 500%Z) "TypeError: fetch failed") = true
  ∧ is_transient (mkAuthError (Some 400%Z) "Invalid login credentials") = false
  ∧ is_transient (mkAuthError None "Failed to fetch") = false.
Proof. repeat split; reflexivity. Qed.

End Checks.

(** * Further properties *)

(** ** The asset store on a calm platform *)

Section Calm.

Import AssetStore.

Lemma calm_openDatabase w :
  calm w →
  ∃ w1 ev0, openDatabase w = (Return (Fulfilled TheDatabase), w1, ev0)
            ∧ calm w1 ∧ assets w1 = assets w.
Proof.
  intros (Hop & Hf & Hft).
  destruct (openDatabase_result w)
    as (q & w1 & ev0 & Ho & Hq & Hidb & Hassets & Hfaults & Hfates & Hev & Hiff).
  apply Hiff in Hop as ->. exists w1, ev0. split; [done|]. split; [|done].
  split; [by left|]. by rewrite Hfaults, Hfates.
Qed.

Lemma calm_next_fate w :
  calm w → ∃ w', next_fate w = (TxCompletes, w') ∧ calm w' ∧ assets w' = assets w.
Proof.
  intros (Hop & Hf & Hft). unfold next_fate.
  destruct (fates w) as [|f ft] eqn:E.
  - exists w. split; [done|]. split; [|done]. split; [done|]. split; [done|]. by rewrite E.
  - apply Forall_cons in Hft as [-> Hft].
    eexists. split; [reflexivity|]. split; [|done]. by split_and!.
Qed.

Lemma runTransaction_calm {T} mode (ex : IDBObjectStore → M T) w
    (Q : T → gmap string StoredAssetRecord → Prop) :
  calm w →
  (∀ w1, calm w1 → assets w1 = assets w →
     ∃ a w2 evs, ex (mkStore STORE_NAME mode) w1 = (Return a, w2, evs)
                 ∧ calm w2 ∧ Q a (assets w2)) →
  ∃ a w' evs, runTransaction mode ex w = (Return (Fulfilled a), w', evs)
              ∧ calm w' ∧ Q a (assets w').
Proof.
  intros Hcalm Hex.
  destruct (calm_openDatabase w Hcalm) as (w1 & ev0 & Ho & Hcalm1 & Hassets).
  rewrite (runTransaction_unfold _ _ _ _ _ _ Ho).
  destruct (Hex w1 Hcalm1 Hassets) as (a & w2 & evs & -> & Hcalm2 & HQ).
  destruct (calm_next_fate w2 Hcalm2) as (w3 & -> & Hcalm3 & Hassets3).
  eexists a, w3, _. split; [reflexivity|]. split; [done|]. by rewrite Hassets3.
Qed.

Lemma resolveDeferred_calm {A} store r
    (run : gmap string StoredAssetRecord → A * gmap string StoredAssetRecord) w :
  calm w → (is_write r = true → os_mode store = readwrite) →
  ∃ w', resolveDeferred store r run w = (Return (run (assets w)).1, w', [EvRequest r])
        ∧ calm w' ∧ assets w' = (run (assets w)).2.
Proof.
  intros (Hop & Hf & Hft) Hmode. unfold resolveDeferred.
  assert (Hgo : ∀ X (x y : X),
    match os_mode store, is_write r with
    | readonly, true => x
    | _, _ => y
    end = y).
  { intros X x y. destruct (os_mode store) eqn:Hm, (is_write r) eqn:Hw; try done.
    specialize (Hmode eq_refl). congruence. }
  rewrite Hgo.
  destruct (faults w) as [|f fs] eqn:E; [|apply Forall_cons in Hf as [-> Hf]];
    cbn; destruct (run (assets w)) as [a m]; cbn;
    eexists; (split; [reflexivity|]); (split; [|done]); split_and!; done.
Qed.


Lemma getAsset_calm id w :
  calm w →
  ∃ w' evs, getAsset id w = (Return (Fulfilled (assets w !! id)), w', evs)
            ∧ calm w' ∧ assets w' = assets w.
Proof.
  intros Hcalm. unfold getAsset.
  destruct (runTransaction_calm readonly
              (fun store => bind (store_get store id) (fun result => ret result)) w
              (fun a m => a = assets w !! id ∧ m = assets w) Hcalm)
    as (a & w' & evs & Hrun & Hcalm' & -> & Hm).
  { intros w1 Hcalm1 Hassets. unfold store_get.
    destruct (resolveDeferred_calm (mkStore STORE_NAME readonly) (ReqGet id)
                (fun m => (m !! id, m)) w1 Hcalm1 ltac:(done)) as (w2 & Hr & Hcalm2 & Hm).
    rewrite (bind_Return _ _ _ _ _ _ Hr). cbn in *.
    eexists _, _, _. split; [reflexivity|]. by rewrite Hm, Hassets. }
  by exists w', evs.
Qed.

Lemma saveAsset_calm_world fresh now file options w :
  calm w →
  let id := nullish (opt_id options) fresh in
  let existing := if truthy_string (opt_id options) then assets w !! id else None in
  let record := saved_record id now file options existing in
  ∃ w' evs, saveAsset fresh now file options w = (Return (Fulfilled (strip_blob record)), w', evs)
            ∧ calm w' ∧ assets w' = <[id := record]> (assets w).
Proof.
  intros Hcalm id existing record. unfold saveAsset.
  match goal with |- context [runTransaction readwrite ?ex] =>
    destruct (runTransaction_calm readwrite ex w
                (fun a m => a = strip_blob record ∧ m = <[id := record]> (assets w)) Hcalm)
      as (a & w' & evs & Hrun & Hcalm' & -> & Hm)
  end.
  { intros w1 Hcalm1 Hassets. cbn beta. subst record existing id.
    destruct (truthy_string (opt_id options)).
    - unfold store_get.
      destruct (resolveDeferred_calm (mkStore STORE_NAME readwrite)
                  (ReqGet (nullish (opt_id options) fresh))
                  (fun m => (m !! nullish (opt_id options) fresh, m)) w1 Hcalm1 ltac:(done))
        as (w2 & Hr & Hcalm2 & Hm).
      rewrite (bind_Return _ _ _ _ _ _ Hr). unfold store_put.
      match goal with |- context [resolveDeferred ?s ?r ?run] =>
        destruct (resolveDeferred_calm s r run w2 Hcalm2 ltac:(done)) as (w3 & Hr3 & Hcalm3 & Hm3)
      end.
      rewrite (bind_Return _ _ _ _ _ _ Hr3). cbn in *.
      eexists _, _, _. split; [reflexivity|]. split; [done|].
      rewrite Hm3, Hm, Hassets. by split.
    - rewrite (bind_Return _ _ w1 None w1 []) by done. unfold store_put.
      match goal with |- context [resolveDeferred ?s ?r ?run] =>
        destruct (resolveDeferred_calm s r run w1 Hcalm1 ltac:(done)) as (w3 & Hr3 & Hcalm3 & Hm3)
      end.
      rewrite (bind_Return _ _ _ _ _ _ Hr3). cbn in *.
      eexists _, _, _. split; [reflexivity|]. split; [done|].
      rewrite Hm3, Hassets. by split. }
  by exists w', evs.
Qed.

Lemma deleteAsset_calm id w :
  calm w →
  ∃ w' evs, deleteAsset id w = (Return (Fulfilled tt), w', evs)
            ∧ calm w' ∧ assets w' = delete id (assets w).
Proof.
  intros Hcalm. unfold deleteAsset.
  destruct (runTransaction_calm readwrite (fun store => store_delete store id) w
              (fun a m => m = delete id (assets w)) Hcalm)
    as ([] & w' & evs & Hrun & Hcalm' & Hm).
  { intros w1 Hcalm1 Hassets. unfold store_delete.
    destruct (resolveDeferred_calm (mkStore STORE_NAME readwrite) (ReqDelete id)
                (fun m => (tt, delete id m)) w1 Hcalm1 ltac:(done)) as (w2 & Hr & Hcalm2 & Hm).
    cbn in *. eexists _, _, _. split; [exact Hr|]. by rewrite Hm, Hassets. }
  by exists w', evs.
Qed.

Lemma clearAllAssets_calm w :
  calm w →
  ∃ w' evs, clearAllAssets w = (Return (Fulfilled tt), w', evs)
            ∧ calm w' ∧ assets w' = ∅.
Proof.
  intros Hcalm. unfold clearAllAssets.
  destruct (runTransaction_calm readwrite (fun store => store_clear store) w
              (fun a m => m = ∅) Hcalm)
    as ([] & w' & evs & Hrun & Hcalm' & Hm).
  { intros w1 Hcalm1 Hassets. unfold store_clear.
    destruct (resolveDeferred_calm (mkStore STORE_NAME readwrite) ReqClear
                (fun m => (tt, ∅)) w1 Hcalm1 ltac:(done)) as (w2 & Hr & Hcalm2 & Hm).
    cbn in *. eexists _, _, _. by split; [exact Hr|]. }
  by exists w', evs.
Qed.

Lemma listAllAssets_calm w :
  calm w →
  ∃ w' evs, listAllAssets w
            = (Return (Fulfilled (strip_blob <$> (map_to_list (assets w)).*2)), w', evs)
            ∧ calm w' ∧ assets w' = assets w.
Proof.
  intros Hcalm. unfold listAllAssets.
  destruct (runTransaction_calm readonly
              (fun store => bind (store_getAll store)
                                 (fun results => ret (strip_blob <$> results))) w
              (fun a m => a = strip_blob <$> (map_to_list (assets w)).*2 ∧ m = assets w) Hcalm)
    as (a & w' & evs & Hrun & Hcalm' & -> & Hm).
  { intros w1 Hcalm1 Hassets. unfold store_getAll.
    destruct (resolveDeferred_calm (mkStore STORE_NAME readonly) ReqGetAll
                (fun m => ((map_to_list m).*2, m)) w1 Hcalm1 ltac:(done)) as (w2 & Hr & Hcalm2 & Hm).
    rewrite (bind_Return _ _ _ _ _ _ Hr). cbn in *.
    eexists _, _, _. split; [reflexivity|]. by rewrite Hm, Hassets. }
  by exists w', evs.
Qed.

End Calm.

Section Compose.

Import AssetStore.

(** X1: Saving an asset and then fetching it by the id returned gives back
    the very payload and the metadata that the save returned. *)
Theorem saveAsset_then_getAsset fresh now file options w :
  calm w →
  ∃ m w1 evs1 r w2 evs2,
    saveAsset fresh now file options w = (Return (Fulfilled m), w1, evs1)
    ∧ getAsset (meta_id m) w1 = (Return (Fulfilled (Some r)), w2, evs2)
    ∧ rec_blob r = file
    ∧ strip_blob r = m
    ∧ meta_id m = nullish (opt_id options) fresh
    ∧ meta_size m = blob_size file.
Proof.
  intros Hcalm.
  destruct (saveAsset_calm_world fresh now file options w Hcalm)
    as (w1 & evs1 & Hsave & Hcalm1 & Hassets1).
  set (id := nullish (opt_id options) fresh) in *.
  set (record := saved_record id now file options _) in *.
  destruct (getAsset_calm id w1 Hcalm1) as (w2 & evs2 & Hget & _ & _).
  rewrite Hassets1, lookup_insert_eq in Hget.
  exists (strip_blob record), w1, evs1, record, w2, evs2. by split_and!.
Qed.

Lemma saveAsset_then_getAsset_witness :
  ∃ m w1 evs1 r w2 evs2,
    saveAsset "7f3c" 100 text_blob no_options calm_world = (Return (Fulfilled m), w1, evs1)
    ∧ getAsset (meta_id m) w1 = (Return (Fulfilled (Some r)), w2, evs2)
    ∧ rec_blob r = text_blob
    ∧ strip_blob r = m
    ∧ meta_id m = "7f3c"
    ∧ meta_size m = 5%Z.
Proof.
  apply (saveAsset_then_getAsset "7f3c" 100 text_blob no_options calm_world).
  split; [by right|]. split; constructor.
Defined.

(** X2: Deleting an id, stored or not, resolves, and fetching the id
    afterwards resolves with [null]; every other record is left as it
    was. *)
Theorem deleteAsset_then_getAsset id w :
  calm w →
  ∃ w1 evs1 w2 evs2,
    deleteAsset id w = (Return (Fulfilled tt), w1, evs1)
    ∧ getAsset id w1 = (Return (Fulfilled None), w2, evs2)
    ∧ ∀ k, k ≠ id → assets w2 !! k = assets w !! k.
Proof.
  intros Hcalm.
  destruct (deleteAsset_calm id w Hcalm) as (w1 & evs1 & Hdel & Hcalm1 & Hassets1).
  destruct (getAsset_calm id w1 Hcalm1) as (w2 & evs2 & Hget & _ & Hassets2).
  rewrite Hassets1, lookup_delete_eq in Hget.
  exists w1, evs1, w2, evs2. split_and!; [done..|].
  intros k Hk. by rewrite Hassets2, Hassets1, lookup_delete_ne.
Qed.

Lemma deleteAsset_then_getAsset_witness :
  ∃ w1 evs1 w2 evs2,
    deleteAsset "logo" logo_world = (Return (Fulfilled tt), w1, evs1)
    ∧ getAsset "logo" w1 = (Return (Fulfilled None), w2, evs2)
    ∧ ∀ k, k ≠ "logo" → assets w2 !! k = assets logo_world !! k.
Proof.
  apply (deleteAsset_then_getAsset "logo" logo_world).
  split; [by left|]. split; constructor.
Defined.

(** X3: [listAllAssets] resolves with one metadata entry per stored record,
    the record without its payload, and leaves the store as it was. *)
Theorem listAllAssets_lists_every_record w :
  calm w →
  ∃ l w' evs,
    listAllAssets w = (Return (Fulfilled l), w', evs)
    ∧ length l = size (assets w)
    ∧ (∀ m, m ∈ l ↔ ∃ k r, assets w !! k = Some r ∧ m = strip_blob r)
    ∧ assets w' = assets w.
Proof.
  intros Hcalm.
  destruct (listAllAssets_calm w Hcalm) as (w' & evs & Hlist & _ & Hassets).
  eexists _, w', evs. split; [exact Hlist|]. split_and!; [|  |done].
  - by rewrite !length_fmap, length_map_to_list.
  - intros m. rewrite list_elem_of_fmap. split.
    + intros (r & -> & Hr). apply list_elem_of_fmap in Hr as ([k r'] & -> & Hkr).
      apply elem_of_map_to_list in Hkr. by exists k, r'.
    + intros (k & r & Hkr & ->). exists r. split; [done|].
      apply list_elem_of_fmap. exists (k, r). split; [done|].
      by apply elem_of_map_to_list.
Qed.

Lemma listAllAssets_lists_every_record_witness :
  ∃ l w' evs,
    listAllAssets logo_world = (Return (Fulfilled l), w', evs)
    ∧ length l = size (assets logo_world)
    ∧ (∀ m, m ∈ l ↔ ∃ k r, assets logo_world !! k = Some r ∧ m = strip_blob r)
    ∧ assets w' = assets logo_world.
Proof.
  apply (listAllAssets_lists_every_record logo_world).
  split; [by left|]. split; constructor.
Defined.

(** X4: After [clearAllAssets] the list is empty and every id fetches
    [null]. *)
Theorem clearAllAssets_then_nothing w id :
  calm w →
  ∃ w1 evs1 w2 evs2 w3 evs3,
    clearAllAssets w = (Return (Fulfilled tt), w1, evs1)
    ∧ listAllAssets w1 = (Return (Fulfilled []), w2, evs2)
    ∧ getAsset id w2 = (Return (Fulfilled None), w3, evs3).
Proof.
  intros Hcalm.
  destruct (clearAllAssets_calm w Hcalm) as (w1 & evs1 & Hclear & Hcalm1 & Hassets1).
  destruct (listAllAssets_calm w1 Hcalm1) as (w2 & evs2 & Hlist & Hcalm2 & Hassets2).
  destruct (getAsset_calm id w2 Hcalm2) as (w3 & evs3 & Hget & _ & _).
  rewrite Hassets1, map_to_list_empty in Hlist.
  rewrite Hassets2, Hassets1, lookup_empty in Hget.
  by exists w1, evs1, w2, evs2, w3, evs3.
Qed.

Lemma clearAllAssets_then_nothing_witness :
  ∃ w1 evs1 w2 evs2 w3 evs3,
    clearAllAssets logo_world = (Return (Fulfilled tt), w1, evs1)
    ∧ listAllAssets w1 = (Return (Fulfilled []), w2, evs2)
    ∧ getAsset "logo" w2 = (Return (Fulfilled None), w3, evs3).
Proof.
  apply (clearAllAssets_then_nothing logo_world "logo").
  split; [by left|]. split; constructor.
Defined.

End Compose.

Section GetMany.

Import AssetStore.

Lemma callback_calm id w :
  calm w →
  ∃ w' evs,
    async (bind (bind (getAsset id) await) (fun asset => ret (id, asset))) w
    = (Return (Fulfilled (id, assets w !! id)), w', evs)
    ∧ calm w' ∧ assets w' = assets w.
Proof.
  intros Hcalm.
  destruct (getAsset_calm id w Hcalm) as (w' & evs & Hget & Hcalm' & Hassets).
  unfold async, bind. rewrite Hget. cbn. eexists _, _. by split_and!.
Qed.

Lemma array_map_callbacks_calm ids w :
  calm w →
  ∃ w' evs,
    array_map (fun id => async (bind (bind (getAsset id) await)
                                     (fun asset => ret (id, asset)))) ids w
    = (Return ((fun id => Fulfilled (id, assets w !! id)) <$> ids), w', evs)
    ∧ calm w' ∧ assets w' = assets w.
Proof.
  revert w. induction ids as [|id ids IH]; intros w Hcalm; cbn [array_map].
  - by exists w, [].
  - destruct (callback_calm id w Hcalm) as (w1 & evs1 & Hcb & Hcalm1 & Hassets1).
    destruct (IH w1 Hcalm1) as (w2 & evs2 & Hrest & Hcalm2 & Hassets2).
    rewrite (bind_Return _ _ _ _ _ _ Hcb), (bind_Return _ _ _ _ _ _ Hrest). cbn.
    eexists _, _. split; [|split; [done|congruence]].
    by rewrite Hassets1.
Qed.

Lemma Promise_all_fulfilled {A B} (g : A → B) (l : list A) :
  Promise_all ((fun x => Fulfilled (g x)) <$> l) = Fulfilled (g <$> l).
Proof. induction l as [|a l IH]; cbn; [done|]. by rewrite IH. Qed.

Lemma foldl_insert_lookup {V} (f : string → V) (ids : list string) (m0 : gmap string V) k :
  foldl (fun m kv => <[kv.1 := kv.2]> m) m0 ((fun id => (id, f id)) <$> ids) !! k
  = if decide (k ∈ ids) then Some (f k) else m0 !! k.
Proof.
  revert m0. induction ids as [|id ids IH]; intros m0; cbn.
  - rewrite decide_False; [done|]. apply not_elem_of_nil.
  - rewrite IH. destruct (decide (k ∈ ids)) as [Hin|Hnin].
    + rewrite decide_True; [done|]. by apply list_elem_of_further.
    + destruct (decide (k = id)) as [->|Hne].
      * rewrite lookup_insert_eq, decide_True; [done|]. apply list_elem_of_here.
      * rewrite lookup_insert_ne by done. rewrite decide_False; [done|].
        intros [?|?]%elem_of_cons; done.
Qed.

(** X5: [getAssetsByIds] resolves with an object that has exactly the ids
    asked for as keys: a stored id maps to its record, an id that is not
    stored to [null].  The store is left as it was. *)
Theorem getAssetsByIds_maps_every_id ids w :
  calm w →
  ∃ m w' evs,
    getAssetsByIds ids w = (Return (Fulfilled m), w', evs)
    ∧ (∀ id, id ∈ ids → m !! id = Some (assets w !! id))
    ∧ (∀ id, id ∉ ids → m !! id = None)
    ∧ assets w' = assets w.
Proof.
  intros Hcalm. unfold getAssetsByIds, async.
  destruct (array_map_callbacks_calm ids w Hcalm) as (w' & evs & Hmap & _ & Hassets).
  rewrite (bind_Return _ _ _ _ _ _ Hmap).
  rewrite (Promise_all_fulfilled (fun id => (id, assets w !! id))). cbn.
  eexists _, _, _. split; [reflexivity|]. unfold fromEntries. split_and!; [| |done].
  - intros id Hin. by rewrite foldl_insert_lookup, decide_True.
  - intros id Hin. by rewrite foldl_insert_lookup, decide_False.
Qed.

Lemma getAssetsByIds_maps_every_id_witness :
  ∃ m w' evs,
    getAssetsByIds ["logo"; "missing"] logo_world = (Return (Fulfilled m), w', evs)
    ∧ (∀ id, id ∈ ["logo"; "missing"] → m !! id = Some (assets logo_world !! id))
    ∧ (∀ id, id ∉ ["logo"; "missing"] → m !! id = None)
    ∧ assets w' = assets logo_world.
Proof.
  apply (getAssetsByIds_maps_every_id ["logo"; "missing"] logo_world).
  split; [by left|]. split; constructor.
Defined.

End GetMany.

(** ** The asset store, whatever the platform does *)

Section Effects.

Import AssetStore.

Lemma next_fate_assets w f w' : next_fate w = (f, w') → assets w' = assets w.
Proof.
  unfold next_fate. destruct (fates w); by intros [= <- <-].
Qed.

(** What a transaction does to the store: nothing when its promise is
    rejected, and what its body did when it is fulfilled. *)
Lemma runTransaction_effect {T} mode (ex : IDBObjectStore → M T) w r w' evs :
  runTransaction mode ex w = (r, w', evs) →
  ∃ p, r = Return p
       ∧ match p with
         | Rejected _ => assets w' = assets w
         | Fulfilled a =>
             ∃ w1 w2 evs2, assets w1 = assets w
                           ∧ ex (mkStore STORE_NAME mode) w1 = (Return a, w2, evs2)
                           ∧ assets w' = assets w2
         end.
Proof.
  destruct (openDatabase_result w)
    as (q & w1 & ev0 & Ho & _ & _ & Hassets & _ & _ & _ & _).
  rewrite (runTransaction_unfold _ _ _ _ _ _ Ho).
  destruct q as [db|e].
  - destruct (ex _ w1) as [[[a|e] w2] evs2] eqn:Hex.
    + destruct (next_fate w2) as [[|err|err] w3] eqn:Hfate; intros [= <- <- <-];
        eexists; (split; [reflexivity|]); cbn; [|done..].
      exists w1, w2, evs2. split_and!; [done..|]. by eapply next_fate_assets.
    + intros [= <- <- <-]. eexists; (split; [reflexivity|]); cbn. done.
  - intros [= <- <- <-]. eexists; (split; [reflexivity|]); cbn. done.
Qed.

Lemma resolveDeferred_effect {A} store r
    (run : gmap string StoredAssetRecord → A * gmap string StoredAssetRecord) w res w2 evs :
  resolveDeferred store r run w = (res, w2, evs) →
  match res with
  | Return a => a = (run (assets w)).1 ∧ assets w2 = (run (assets w)).2
  | Throw _ => assets w2 = assets w
  end.
Proof.
  unfold resolveDeferred.
  destruct (os_mode store), (is_write r), (faults w) as [|[e|] fs];
    destruct (run (assets w)) as [a m]; by intros [= <- <- <-].
Qed.

Lemma getAsset_effect id w r w' evs :
  getAsset id w = (r, w', evs) → assets w' = assets w ∧ ∃ p, r = Return p.
Proof.
  unfold getAsset. intros Hrun.
  apply runTransaction_effect in Hrun as (p & -> & Hp). split; [|by eexists].
  destruct p as [a|e]; [|done].
  destruct Hp as (w1 & w2 & evs2 & Hassets1 & Hex & ->).
  unfold bind, store_get in Hex.
  destruct (resolveDeferred _ _ _ w1) as [[[a'|e] w3] evs3] eqn:Hreq; [|done].
  apply resolveDeferred_effect in Hreq as [_ Hm]. cbn in *.
  injection Hex as <- <- <-. congruence.
Qed.

Lemma saveAsset_effect fresh now file options w r w' evs :
  saveAsset fresh now file options w = (r, w', evs) →
  let id := nullish (opt_id options) fresh in
  let existing := if truthy_string (opt_id options) then assets w !! id else None in
  ∃ p, r = Return p
       ∧ match p with
         | Fulfilled _ => assets w' = <[id := saved_record id now file options existing]> (assets w)
         | Rejected _ => assets w' = assets w
         end.
Proof.
  intros Hs. cbn.
  destruct r as [[m|e]|e].
  - eexists; split; [reflexivity|]. by apply saveAsset_fulfilled in Hs as [_ ?].
  - eexists; split; [reflexivity|]. unfold saveAsset in Hs.
    by apply runTransaction_effect in Hs as (p & [= <-] & Hp).
  - unfold saveAsset in Hs. by apply runTransaction_effect in Hs as (p & [=] & _).
Qed.

Lemma callback_effect id w :
  ∃ q w1 evs1,
    async (bind (bind (getAsset id) await) (fun asset => ret (id, asset))) w
    = (Return q, w1, evs1)
    ∧ assets w1 = assets w.
Proof.
  unfold async, bind.
  destruct (getAsset id w) as [[r0 w0] evs0] eqn:Hg.
  apply getAsset_effect in Hg as [Hw (p & ->)].
  destruct p as [a|e]; cbn; by eexists _, _, _.
Qed.

Lemma callbacks_effect ids w r w' evs :
  array_map (fun id => async (bind (bind (getAsset id) await)
                                   (fun asset => ret (id, asset)))) ids w = (r, w', evs) →
  assets w' = assets w ∧ ∃ ps, r = Return ps.
Proof.
  revert w r w' evs. induction ids as [|id ids IH]; intros w r w' evs; cbn [array_map].
  - intros [= <- <- <-]. split; [done|]. by eexists.
  - destruct (callback_effect id w) as (q & w1 & evs1 & Hcb & Hw1).
    rewrite (bind_Return _ _ _ _ _ _ Hcb). unfold bind.
    destruct (array_map _ ids w1) as [[r2 w2] evs2] eqn:Hrest.
    apply IH in Hrest as [Hw2 (ps & ->)]. cbn.
    intros [= <- <- <-]. split; [congruence|by eexists].
Qed.

(** The store is changed only by a save, a delete or a clear whose
    promise is fulfilled, and then by one [put], one [delete] or one
    [clear]. *)
Lemma perform_effect op w r w' evs :
  perform op w = (r, w', evs) →
  assets w' = assets w
  ∨ (r = Return (Fulfilled tt) ∧ mode_of op = readwrite
     ∧ (assets w' = ∅
        ∨ (∃ id, assets w' = delete id (assets w))
        ∨ (∃ id now file options existing,
             assets w' = <[id := saved_record id now file options existing]> (assets w)))).
Proof.
  destruct op as [fresh now file options|fresh now dataUrl options|id|reader id|url id
                 |id| |ids|]; cbn [perform mode_of]; unfold forget.
  - destruct (saveAsset _ _ _ _ w) as [[r0 w0] evs0] eqn:Hs.
    apply saveAsset_effect in Hs as (p & -> & Hp).
    destruct p as [m|e]; intros [= <- <- <-]; [right|by left].
    split_and!; [done..|]. right; right. by eexists _, _, _, _, _.
  - unfold saveAssetFromDataUrl, async, bind, lift.
    destruct (DataUrl.dataUrlToBlob dataUrl) as [blob|e]; cbn; [|intros [= <- <- <-]; by left].
    destruct (saveAsset _ _ _ _ w) as [[r0 w0] evs0] eqn:Hs.
    apply saveAsset_effect in Hs as (p & -> & Hp).
    destruct p as [m|e]; cbn; intros [= <- <- <-]; [right|by left].
    split_and!; [done..|]. right; right. by eexists _, _, _, _, _.
  - destruct (getAsset id w) as [[r0 w0] evs0] eqn:Hg.
    apply getAsset_effect in Hg as [Hw (p & ->)].
    destruct p; intros [= <- <- <-]; by left.
  - unfold getAssetDataUrl, async, bind.
    destruct (getAsset id w) as [[r0 w0] evs0] eqn:Hg.
    apply getAsset_effect in Hg as [Hw (p & ->)].
    destruct p as [[asset|]|e]; cbn; [destruct reader; cbn|..];
      intros [= <- <- <-]; by left.
  - unfold getAssetObjectUrl, async, bind.
    destruct (getAsset id w) as [[r0 w0] evs0] eqn:Hg.
    apply getAsset_effect in Hg as [Hw (p & ->)].
    destruct p as [[asset|]|e]; cbn; intros [= <- <- <-]; by left.
  - unfold deleteAsset.
    destruct (runTransaction _ _ w) as [[r0 w0] evs0] eqn:Hrun.
    apply runTransaction_effect in Hrun as (p & -> & Hp).
    destruct p as [[]|e]; intros [= <- <- <-]; [right|by left].
    destruct Hp as (w1 & w2 & evs2 & Hw1 & Hex & ->).
    apply resolveDeferred_effect in Hex as [_ Hm]. cbn in Hm.
    split_and!; [done..|]. right; left. exists id. by rewrite Hm, Hw1.
  - unfold listAllAssets.
    destruct (runTransaction _ _ w) as [[r0 w0] evs0] eqn:Hrun.
    apply runTransaction_effect in Hrun as (p & -> & Hp).
    destruct p as [l|e]; intros [= <- <- <-]; left; [|done].
    destruct Hp as (w1 & w2 & evs2 & Hw1 & Hex & ->).
    unfold bind, store_getAll in Hex.
    destruct (resolveDeferred _ _ _ w1) as [[[a'|e] w3] evs3] eqn:Hreq; [|done].
    apply resolveDeferred_effect in Hreq as [_ Hm]. cbn in *.
    injection Hex as <- <- <-. congruence.
  - unfold getAssetsByIds, async, bind.
    destruct (array_map _ ids w) as [[r0 w0] evs0] eqn:Hmap.
    apply callbacks_effect in Hmap as [Hw (ps & ->)].
    destruct (Promise_all ps); cbn; intros [= <- <- <-]; by left.
  - unfold clearAllAssets.
    destruct (runTransaction _ _ w) as [[r0 w0] evs0] eqn:Hrun.
    apply runTransaction_effect in Hrun as (p & -> & Hp).
    destruct p as [[]|e]; intros [= <- <- <-]; [right|by left].
    destruct Hp as (w1 & w2 & evs2 & Hw1 & Hex & ->).
    apply resolveDeferred_effect in Hex as [_ Hm]. cbn in Hm.
    split_and!; [done..|]. by left.
Qed.

End Effects.

Section StoreInvariants.

Import AssetStore.

(** X6: The store changes only through a write that resolves: an operation
    that reads leaves the store as it was, whatever its outcome. *)
Theorem reads_leave_the_store op w r w' evs :
  mode_of op = readonly →
  perform op w = (r, w', evs) →
  assets w' = assets w.
Proof.
  intros Hmode Hp. destruct (perform_effect op w r w' evs Hp) as [?|(_ & Hrw & _)]; [done|].
  congruence.
Qed.

Lemma reads_leave_the_store_witness :
  assets (perform (OpGetMany ["logo"; "missing"]) logo_world).1.2 = assets logo_world.
Proof.
  apply (reads_leave_the_store (OpGetMany ["logo"; "missing"]) logo_world _ _ _
           eq_refl (triple_eta _)).
Defined.

(** X7: An operation whose promise is rejected leaves the store as it was:
    a save, delete or clear that fails writes nothing. *)
Theorem rejected_operation_writes_nothing op w e w' evs :
  perform op w = (Return (Rejected e), w', evs) →
  assets w' = assets w.
Proof.
  intros Hp. by destruct (perform_effect op w _ w' evs Hp) as [?|([=] & _)].
Qed.

Lemma rejected_operation_writes_nothing_witness :
  assets (perform (OpSave "7f3c" 100 text_blob no_options) failing_world).1.2
  = assets failing_world.
Proof.
  apply (rejected_operation_writes_nothing (OpSave "7f3c" 100 text_blob no_options)
           failing_world boom _ ((perform (OpSave "7f3c" 100 text_blob no_options) failing_world).2)).
  reflexivity.
Defined.

Lemma or_string_nonempty a b : b ≠ "" → or_string a b ≠ "".
Proof. unfold or_string. destruct a as [s|]; [|done]. by case_decide. Qed.

Lemma store_ok_saved_record id now file options existing m :
  store_ok m → store_ok (<[id := saved_record id now file options existing]> m).
Proof.
  intros Hok k r. destruct (decide (k = id)) as [->|Hne].
  - rewrite lookup_insert_eq. intros [= <-]. cbn -[or_string]. split_and!; [done| |done].
    by apply or_string_nonempty, or_string_nonempty.
  - rewrite lookup_insert_ne by done. apply Hok.
Qed.

Lemma perform_store_ok op w r w' evs :
  store_ok (assets w) → perform op w = (r, w', evs) → store_ok (assets w').
Proof.
  intros Hok Hp.
  destruct (perform_effect op w r w' evs Hp)
    as [->|(_ & _ & [->|[(id & ->)|(id & now & file & options & existing & ->)]])].
  - done.
  - intros k r0. by rewrite lookup_empty.
  - intros k r0 Hk. apply lookup_delete_Some in Hk as [_ Hk]. by apply Hok.
  - by apply store_ok_saved_record.
Qed.

Lemma perform_returns op w : ∃ p w' evs, perform op w = (Return p, w', evs).
Proof. destruct (perform_runs op w) as (p & w' & evs & _ & Hp & _). by exists p, w', evs. Qed.

(** A property of the world that every operation keeps is kept by every
    sequence of operations. *)
Lemma array_map_perform_ind (P : World → Prop) :
  (∀ op w r w' evs, P w → perform op w = (r, w', evs) → P w') →
  ∀ ops w r w' evs, P w → array_map perform ops w = (r, w', evs) → P w'.
Proof.
  intros Hstep ops. induction ops as [|op ops IH]; intros w r w' evs HP; cbn [array_map].
  - by intros [= <- <- <-].
  - destruct (perform_returns op w) as (p & w1 & evs1 & Hp).
    rewrite (bind_Return _ _ _ _ _ _ Hp). unfold bind.
    destruct (array_map perform ops w1) as [[r2 w2] evs2] eqn:Hrest.
    assert (P w2) by (eapply IH; [|exact Hrest]; by eapply Hstep).
    destruct r2; cbn; by intros [= <- <- <-].
Qed.

(** X8: Whatever sequence of operations runs, and whatever the platform
    answers, every record in the store stays under its own id, with a
    type that is not empty and the size of its payload. *)
Theorem operations_keep_the_store_ok ops w r w' evs :
  store_ok (assets w) →
  array_map perform ops w = (r, w', evs) →
  store_ok (assets w').
Proof.
  intros Hok. apply (array_map_perform_ind (fun w => store_ok (assets w))); [|done].
  intros op w0 r0 w0' evs0 H0 Hp. by eapply perform_store_ok.
Qed.

Lemma operations_keep_the_store_ok_witness :
  store_ok (assets (array_map perform
                      [OpSave "7f3c" 100 typeless_blob no_options; OpDelete "logo"]
                      calm_world).1.2).
Proof.
  eapply (operations_keep_the_store_ok
            [OpSave "7f3c" 100 typeless_blob no_options; OpDelete "logo"] calm_world).
  - intros k r0 Hk. exfalso. revert Hk. cbn. by rewrite lookup_empty.
  - apply triple_eta.
Defined.

End StoreInvariants.

Section Connection.

Import AssetStore.

Lemma open_calls_app a b : open_calls (a ++ b) = open_calls a ++ open_calls b.
Proof. unfold open_calls. apply omap_app. Qed.

Lemma tx_shape_open_calls mode p evs : tx_shape mode p evs → open_calls evs = [].
Proof.
  unfold open_calls.
  destruct 1; cbn; rewrite omap_app, (requests_silent _ reqs) by done; done.
Qed.

Lemma openDatabase_open_calls w q w1 ev0 :
  openDatabase w = (Return q, w1, ev0) →
  dbPromise w1 = Some q
  ∧ (is_Some (dbPromise w) → ev0 = [] ∧ w1 = w)
  ∧ (open_calls ev0 = [] ∨ open_calls ev0 = [(DB_NAME, DB_VERSION)]).
Proof.
  unfold openDatabase. destruct w as [[q0|] idb m fs ft]; cbn.
  - intros [= <- <- <-]. split_and!; [done|done|by left].
  - unfold async, bind, getIndexedDB; cbn.
    destruct idb as [|[e|e|]]; cbn; intros [= <- <- <-];
      (split_and!; [done|by intros [? [=]]|]); cbn; auto.
Qed.

Lemma run_shape_open_calls mode w p evs w' :
  run_shape mode w p evs w' →
  is_Some (dbPromise w')
  ∧ (is_Some (dbPromise w) → open_calls evs = [])
  ∧ (open_calls evs = [] ∨ open_calls evs = [(DB_NAME, DB_VERSION)]).
Proof.
  intros (q & w1 & ev0 & Ho & Hq).
  destruct (openDatabase_open_calls _ _ _ _ Ho) as (Hdb1 & Hmemo & Hcalls).
  destruct q as [db|e].
  - destruct Hq as (evs1 & -> & Htx & Hdb' & _).
    rewrite open_calls_app, (tx_shape_open_calls _ _ _ Htx), app_nil_r.
    split_and!; [by rewrite Hdb', Hdb1| |done].
    intros Hs. by destruct (Hmemo Hs) as [-> _].
  - destruct Hq as (-> & -> & ->). split_and!; [by rewrite Hdb1| |done].
    intros Hs. by destruct (Hmemo Hs) as [-> _].
Qed.

Lemma runs_open_calls mode w ps evs w' :
  runs mode w ps evs w' →
  (is_Some (dbPromise w) → open_calls evs = [] ∧ is_Some (dbPromise w'))
  ∧ (open_calls evs = []
     ∨ (open_calls evs = [(DB_NAME, DB_VERSION)] ∧ is_Some (dbPromise w'))).
Proof.
  induction 1 as [w|w p evs w1 ps evs' w2 Hrun Hruns [IHmemo IH]].
  - split; [done|by left].
  - destruct (run_shape_open_calls _ _ _ _ _ Hrun) as (Hdb1 & Hmemo & Hcalls).
    destruct (IHmemo Hdb1) as [Hrest Hdb2]. rewrite open_calls_app, Hrest, app_nil_r.
    split; [intros Hs; by rewrite (Hmemo Hs)|].
    destruct Hcalls as [->| ->]; auto.
Qed.

Lemma perform_open_calls op w r w' evs :
  perform op w = (r, w', evs) →
  (is_Some (dbPromise w) → open_calls evs = [] ∧ is_Some (dbPromise w'))
  ∧ (open_calls evs = []
     ∨ (open_calls evs = [(DB_NAME, DB_VERSION)] ∧ is_Some (dbPromise w'))).
Proof.
  destruct (perform_runs op w) as (p & w1 & evs1 & ps & -> & Hruns & _).
  intros [= <- <- <-]. by eapply runs_open_calls.
Qed.

(** X9: The database is opened at most once, however many operations run
    and whatever they return: [open] is called with the one name and
    version, and never again once a connection promise is held. *)
Theorem database_is_opened_at_most_once ops w r w' evs :
  array_map perform ops w = (r, w', evs) →
  (open_calls evs = [] ∨ open_calls evs = [(DB_NAME, DB_VERSION)])
  ∧ (is_Some (dbPromise w) → open_calls evs = []).
Proof.
  intros Hall.
  assert (Hgen : (is_Some (dbPromise w) → open_calls evs = [] ∧ is_Some (dbPromise w'))
                 ∧ (open_calls evs = []
                    ∨ (open_calls evs = [(DB_NAME, DB_VERSION)] ∧ is_Some (dbPromise w')))).
  { revert w r w' evs Hall. induction ops as [|op ops IH]; intros w r w' evs; cbn [array_map].
    - intros [= <- <- <-]. split; [done|by left].
    - destruct (perform_returns op w) as (p & w1 & evs1 & Hp).
      rewrite (bind_Return _ _ _ _ _ _ Hp). unfold bind.
      destruct (array_map perform ops w1) as [[r2 w2] evs2] eqn:Hrest.
      destruct (perform_open_calls _ _ _ _ _ Hp) as [Hmemo1 Hcalls1].
      destruct (IH _ _ _ _ Hrest) as [Hmemo2 Hcalls2].
      intros Heq. assert (evs = evs1 ++ evs2 ∧ w' = w2) as [-> ->].
      { destruct r2; cbn in Heq; injection Heq as <- <- <-; by rewrite ?app_nil_r. }
      clear Heq.
      rewrite open_calls_app. split.
      + intros Hs. destruct (Hmemo1 Hs) as [-> Hs1]. by destruct (Hmemo2 Hs1) as [-> ?].
      + destruct Hcalls1 as [->|[-> Hs1]].
        * done.
        * destruct (Hmemo2 Hs1) as [-> ?]. by right. }
  destruct Hgen as [Hmemo Hcalls]. split.
  - destruct Hcalls as [?|[? _]]; auto.
  - intros Hs. by destruct (Hmemo Hs).
Qed.

Lemma database_is_opened_at_most_once_witness :
  open_calls (array_map perform [OpList; OpGet "logo"; OpClear] calm_world).2
  = [(DB_NAME, DB_VERSION)].
Proof.
  destruct (database_is_opened_at_most_once [OpList; OpGet "logo"; OpClear] calm_world _ _ _
              (triple_eta _)) as [[Hnone|Hone] _].
  - discriminate Hnone.
  - exact Hone.
Defined.

End Connection.

Section OpenFailure.

Import AssetStore.

Lemma openDatabase_fails w e :
  open_fails w e →
  openDatabase w = (Return (Rejected e), set_dbPromise (Rejected e) w,
                    [EvGetIndexedDB; EvOpen DB_NAME DB_VERSION]).
Proof.
  intros [Hdb Hidb]. unfold openDatabase, async, bind, getIndexedDB.
  rewrite Hdb. by destruct Hidb as [-> | ->].
Qed.

Lemma runs_open_fails mode w ps evs w' e :
  runs mode w ps evs w' → ps ≠ [] → open_fails w e →
  Forall (fun p => p = Rejected e) ps
  ∧ evs = [EvGetIndexedDB; EvOpen DB_NAME DB_VERSION]
  ∧ w' = set_dbPromise (Rejected e) w.
Proof.
  intros Hruns Hne Hfail. destruct Hruns as [|w p evs w1 ps evs' w2 Hrun Hruns]; [done|].
  destruct Hrun as (q & w0 & ev0 & Ho & Hq).
  rewrite (openDatabase_fails w e Hfail) in Ho. injection Ho as <- <- <-.
  destruct Hq as (-> & -> & ->).
  destruct (runs_rejected_memo _ _ _ _ _ e Hruns eq_refl) as (Hall & -> & ->).
  split_and!; [by constructor|done|done].
Qed.

Lemma settles_all_rejected ps p e :
  ps ≠ [] → Forall (fun p => p = Rejected e) ps → settles ps p → p = Rejected e.
Proof.
  intros Hne Hall Hs. destruct (rejected_all ps e Hne Hall) as (rest & Hrej).
  unfold settles in Hs. by rewrite Hrej in Hs.
Qed.

(** X10: A failure to open the database is kept: the operation that meets it
    is rejected with the error of the open, and so is every operation
    after it, without another call of [open]; the store is not
    touched. *)
Theorem open_failure_is_kept op1 op2 w e :
  open_fails w e →
  transaction_count op1 ≠ 0 → transaction_count op2 ≠ 0 →
  ∃ w1,
    perform op1 w
    = (Return (Rejected e), w1, [EvGetIndexedDB; EvOpen DB_NAME DB_VERSION])
    ∧ perform op2 w1 = (Return (Rejected e), w1, [])
    ∧ assets w1 = assets w.
Proof.
  intros Hfail H1 H2.
  destruct (perform_runs op1 w) as (p1 & w1 & evs1 & ps1 & Hp1 & Hruns1 & Hlen1 & Hs1).
  assert (Hne1 : ps1 ≠ []) by (intros ->; cbn in Hlen1; congruence).
  destruct (runs_open_fails _ _ _ _ _ e Hruns1 Hne1 Hfail) as (Hall1 & -> & ->).
  rewrite (settles_all_rejected _ _ _ Hne1 Hall1 Hs1) in Hp1.
  exists (set_dbPromise (Rejected e) w). split; [exact Hp1|]. split; [|done].
  destruct (perform_runs op2 (set_dbPromise (Rejected e) w))
    as (p2 & w2 & evs2 & ps2 & Hp2 & Hruns2 & Hlen2 & Hs2).
  assert (Hne2 : ps2 ≠ []) by (intros ->; cbn in Hlen2; congruence).
  destruct (runs_rejected_memo _ _ _ _ _ e Hruns2 eq_refl) as (Hall2 & -> & ->).
  by rewrite (settles_all_rejected _ _ _ Hne2 Hall2 Hs2) in Hp2.
Qed.

Lemma open_failure_is_kept_witness :
  ∃ w1,
    perform (OpSave "7f3c" 100 text_blob no_options)
            (mkWorld None (IDBFactory (OpenError boom)) ∅ [] [])
    = (Return (Rejected boom), w1, [EvGetIndexedDB; EvOpen DB_NAME DB_VERSION])
    ∧ perform (OpGet "7f3c") w1 = (Return (Rejected boom), w1, [])
    ∧ assets w1 = ∅.
Proof.
  apply (open_failure_is_kept (OpSave "7f3c" 100 text_blob no_options) (OpGet "7f3c")
           (mkWorld None (IDBFactory (OpenError boom)) ∅ [] []) boom).
  - split; [reflexivity|by right].
  - discriminate.
  - discriminate.
Defined.

End OpenFailure.

(** ** Data URLs: edges *)

Section DataUrlEdges.

Import AssetStore DataUrl.

Lemma list_ascii_of_string_app (a b : string) :
  String.list_ascii_of_string (a +:+ b)
  = String.list_ascii_of_string a ++ String.list_ascii_of_string b.
Proof. induction a as [|c a IH]; [done|]. cbn. by rewrite <- IH. Qed.

Lemma dataUrlToBlob_no_comma dataUrl :
  ","%char ∉ chars dataUrl → dataUrlToBlob dataUrl = Throw InvalidCharacterError.
Proof.
  unfold chars. intros Hc. unfold dataUrlToBlob. rewrite (split_on_no_sep _ _ Hc). reflexivity.
Qed.

(** X11: A data URL without a comma has no payload: [atob] is given
    [undefined], and the save is rejected with its
    [InvalidCharacterError] before the database is opened or a
    transaction begun. *)
Theorem saveAssetFromDataUrl_without_comma fresh now dataUrl options w :
  ","%char ∉ chars dataUrl →
  dataUrlToBlob dataUrl = Throw InvalidCharacterError
  ∧ saveAssetFromDataUrl fresh now dataUrl options w
    = (Return (Rejected InvalidCharacterError), w, []).
Proof.
  intros Hc. pose proof (dataUrlToBlob_no_comma dataUrl Hc) as Hd. split; [done|].
  unfold saveAssetFromDataUrl, async, bind, lift. by rewrite Hd.
Qed.

Lemma saveAssetFromDataUrl_without_comma_witness :
  dataUrlToBlob "data:text/plain;base64" = Throw InvalidCharacterError
  ∧ saveAssetFromDataUrl "7f3c" 100 "data:text/plain;base64" no_options bare_world
    = (Return (Rejected InvalidCharacterError), bare_world, []).
Proof.
  apply (saveAssetFromDataUrl_without_comma "7f3c" 100 "data:text/plain;base64"
           no_options bare_world).
  apply (bool_decide_unpack _). vm_compute. exact I.
Defined.

Lemma split_on_two meta data rest :
  ","%char ∉ meta → ","%char ∉ data →
  ∃ more, split_on ","%char (meta ++ ","%char :: data ++ ","%char :: rest)
          = meta :: data :: more.
Proof.
  intros Hm Hd. rewrite split_on_app by done. rewrite split_on_app by done.
  by eexists.
Qed.

(** X12: Only the text between the first and the second comma is decoded:
    whatever follows a second comma is dropped without notice. *)
Theorem dataUrlToBlob_drops_after_second_comma (meta data rest : string) :
  ","%char ∉ chars meta → ","%char ∉ chars data →
  dataUrlToBlob (meta +:+ "," +:+ data +:+ "," +:+ rest)
  = dataUrlToBlob (meta +:+ "," +:+ data).
Proof.
  unfold chars. intros Hm Hd. unfold dataUrlToBlob.
  rewrite !list_ascii_of_string_app.
  change (String.list_ascii_of_string ",") with [","%char].
  cbn [app].
  destruct (split_on_two _ _ (String.list_ascii_of_string rest) Hm Hd) as (more & ->).
  rewrite (split_on_app _ _ _ Hm), (split_on_no_sep _ _ Hd). reflexivity.
Qed.

Lemma dataUrlToBlob_drops_after_second_comma_witness :
  dataUrlToBlob ("data:text/plain;base64" +:+ "," +:+ "aGk=" +:+ "," +:+ "!!")
  = dataUrlToBlob ("data:text/plain;base64" +:+ "," +:+ "aGk=").
Proof.
  apply (dataUrlToBlob_drops_after_second_comma "data:text/plain;base64" "aGk=" "!!").
  - apply (bool_decide_unpack _). vm_compute. exact I.
  - apply (bool_decide_unpack _). vm_compute. exact I.
Defined.

Lemma dataUrlToBlob_readAsDataURL b :
  blob_wf b → ","%char ∉ chars (blob_type b) →
  dataUrlToBlob (readAsDataURL b) = Return (mkBlob (blob_bytes b) (media_type b) None).
Proof.
  unfold chars. intros Hwf Hcomma.
  destruct (media_type_wf b Hwf) as (Hp & Hnorm & Hne).
  assert (Hc : ","%char ∉ String.list_ascii_of_string (media_type b)).
  { unfold media_type. case_decide; [|done]. intros Hin. not_in_literal Hin. }
  unfold dataUrlToBlob, readAsDataURL.
  rewrite String.list_ascii_of_string_of_list_ascii.
  rewrite decode_media_type by (done || apply base64_no_comma).
  cbn [lookup list_lookup default fmap option_fmap option_map nullish].
  unfold id. rewrite mime_exec_media by done.
  cbn [fmap option_fmap option_map].
  rewrite atob_base64, fill_bytes_all.
  change (String.string_of_list_ascii (ascii_of_byte <$> blob_bytes b))
    with (String.string_of_list_byte (blob_bytes b)).
  rewrite String.list_byte_of_string_of_list_byte.
  rewrite String.string_of_list_ascii_of_string.
  unfold or_string. rewrite decide_False by done.
  unfold new_Blob. by rewrite Hnorm.
Qed.

Lemma getAssetDataUrl_calm id w r :
  calm w → assets w !! id = Some r →
  ∃ w' evs,
    getAssetDataUrl ReadLoads id w
    = (Return (Fulfilled (Some (mkAssetDataUrl (rec_id r) (rec_name r) (rec_type r)
                                  (rec_size r) (rec_createdAt r) (rec_updatedAt r)
                                  (readAsDataURL (rec_blob r))))), w', evs).
Proof.
  intros Hcalm Hr.
  destruct (getAsset_calm id w Hcalm) as (w' & evs & Hget & _ & _).
  unfold getAssetDataUrl, async, bind. rewrite Hget, Hr. cbn. by eexists _, _.
Qed.

(** X13: A data URL written by [blobToDataUrl], saved with
    [saveAssetFromDataUrl] and read back with [getAssetDataUrl], comes
    back as the same string, whatever the options of the save. *)
Theorem dataUrl_survives_the_store b fresh now options w :
  calm w → blob_wf b → ","%char ∉ chars (blob_type b) →
  ∃ url m w1 evs1 a w2 evs2,
    blobToDataUrl ReadLoads b = Fulfilled url
    ∧ saveAssetFromDataUrl fresh now url options w = (Return (Fulfilled m), w1, evs1)
    ∧ getAssetDataUrl ReadLoads (meta_id m) w1 = (Return (Fulfilled (Some a)), w2, evs2)
    ∧ du_dataUrl a = url
    ∧ du_id a = meta_id m
    ∧ du_size a = blob_size b.
Proof.
  intros Hcalm Hwf Hcomma.
  pose proof (dataUrlToBlob_readAsDataURL b Hwf Hcomma) as Hdec.
  destruct (media_type_wf b Hwf) as (_ & _ & Hne).
  set (b' := mkBlob (blob_bytes b) (media_type b) None) in *.
  set (options' := mkOptions (opt_id options) (opt_name options)
                     (Some (or_string (opt_type options) (blob_type b')))
                     (opt_createdAt options) (opt_updatedAt options)).
  destruct (saveAsset_calm_world fresh now b' options' w Hcalm)
    as (w1 & evs1 & Hsave & Hcalm1 & Hassets1).
  set (id := nullish (opt_id options') fresh) in *.
  set (record := saved_record id now b' options' _) in *.
  destruct (getAssetDataUrl_calm id w1 record Hcalm1) as (w2 & evs2 & Hget).
  { by rewrite Hassets1, lookup_insert_eq. }
  eexists _, (strip_blob record), w1, _, _, w2, evs2.
  split; [reflexivity|]. split_and!.
  - unfold saveAssetFromDataUrl, async, bind, lift. rewrite Hdec.
    fold b' options'. rewrite Hsave. cbn. by rewrite app_nil_r.
  - exact Hget.
  - cbn. unfold readAsDataURL, media_type. cbn. by rewrite decide_False.
  - done.
  - done.
Qed.

Lemma dataUrl_survives_the_store_witness :
  ∃ url m w1 evs1 a w2 evs2,
    blobToDataUrl ReadLoads text_blob = Fulfilled url
    ∧ saveAssetFromDataUrl "7f3c" 100 url no_options calm_world
      = (Return (Fulfilled m), w1, evs1)
    ∧ getAssetDataUrl ReadLoads (meta_id m) w1 = (Return (Fulfilled (Some a)), w2, evs2)
    ∧ du_dataUrl a = url
    ∧ du_id a = meta_id m
    ∧ du_size a = blob_size text_blob.
Proof.
  apply (dataUrl_survives_the_store text_blob "7f3c" 100 no_options calm_world).
  - split; [by right|]. split; constructor.
  - reflexivity.
  - apply (bool_decide_unpack _). vm_compute. exact I.
Defined.

End DataUrlEdges.

(** ** Importing a document *)

Section ImportDocumentFile.

Import Backup.

Lemma get_property_truthy data k v :
  get_property data k = Return v → truthy v = true →
  ∃ fields, data = JObject fields ∧ v = own_property fields k.
Proof.
  destruct data as [|b|x|s|items|fields]; cbn; try discriminate;
    try (intros [= <-]; discriminate).
  intros [= <-] _. by exists fields.
Qed.

(** X14: [importDocument] resolves with the parsed value exactly when the
    file is read, its content parses as JSON, and the value is an
    object whose [id], [title] and [content] are all truthy: an array, a
    string or a number is never passed on.  Every other file is
    rejected: with "Failed to read file", with the error of the parser,
    with the [TypeError] of reading a property of [null], or with
    "Invalid document file format". *)
Theorem importDocument_resolves_with_objects (file : File) :
  (∀ data,
     importDocument file = Fulfilled data ↔
       file_unreadable file = false
       ∧ file_json file = Return data
       ∧ ∃ fields, data = JObject fields
                   ∧ truthy (own_property fields "id") = true
                   ∧ truthy (own_property fields "title") = true
                   ∧ truthy (own_property fields "content") = true)
  ∧ (∀ e,
       importDocument file = Rejected e →
       (file_unreadable file = true ∧ e = NewError "Failed to read file")
       ∨ file_json file = Throw e
       ∨ (file_json file = Return JNull ∧ get_property JNull "id" = Throw e)
       ∨ e = NewError "Invalid document file format").
Proof.
  unfold importDocument. split.
  - intros data. split.
    + destruct (file_unreadable file); [discriminate|].
      destruct (file_json file) as [data'|e]; [|discriminate].
      destruct (get_property data' "id") as [v1|e] eqn:H1; [|discriminate].
      destruct (truthy v1) eqn:Ht1; [|discriminate]. cbn.
      destruct (get_property data' "title") as [v2|e] eqn:H2; [|discriminate].
      destruct (truthy v2) eqn:Ht2; [|discriminate]. cbn.
      destruct (get_property data' "content") as [v3|e] eqn:H3; [|discriminate].
      destruct (truthy v3) eqn:Ht3; [|discriminate]. cbn.
      intros [= <-]. split; [done|]. split; [done|].
      destruct (get_property_truthy _ _ _ H1 Ht1) as (fields & -> & ->).
      cbn in H2, H3. injection H2 as <-. injection H3 as <-.
      by exists fields.
    + intros (-> & -> & fields & -> & H1 & H2 & H3). cbn.
      by rewrite H1, H2, H3.
  - intros e. destruct (file_unreadable file); [intros [= <-]; by left|].
    destruct (file_json file) as [data|e']; [|intros [= <-]; auto].
    destruct (get_property data "id") as [v1|e'] eqn:H1.
    2:{ intros [= <-]. destruct data; try discriminate. auto. }
    destruct (truthy v1) eqn:Ht1; cbn; [|intros [= <-]; auto].
    destruct (get_property_truthy _ _ _ H1 Ht1) as (fields & -> & ->). cbn.
    destruct (truthy (own_property fields "title")); cbn; [|intros [= <-]; auto].
    destruct (truthy (own_property fields "content")); cbn; [|intros [= <-]; auto].
    discriminate.
Qed.

End ImportDocumentFile.

(** ** Restoring what was imported *)

Section RestoreAfterImport.

Import Backup.

Variable Storage : Type.
Variable saveDocument : JValue → Storage → Storage.

Lemma owned_by_null userId doc e :
  owned_by userId doc = Throw e →
  doc = JNull ∧ e = PlatformError "TypeError" "Cannot read properties of null (reading 'userId')".
Proof.
  unfold owned_by. destruct doc as [|b|x|s|its|fields]; cbn; try done.
  - by intros [= <-].
  - by destruct (own_property fields "userId") as [[]|].
Qed.

Lemma owned_cons userId doc items :
  owned userId (doc :: items)
  = if is_owned userId doc then doc :: owned userId items else owned userId items.
Proof.
  unfold owned. rewrite filter_cons. destruct (is_owned userId doc).
  - by rewrite decide_True.
  - by rewrite decide_False.
Qed.

Lemma restore_each_all items userId st :
  JNull ∉ items →
  restore_each Storage saveDocument items userId st
  = (Return tt, foldl (fun st doc => saveDocument doc st) st (owned userId items)).
Proof.
  revert st. induction items as [|doc items IH]; intros st Hnull; [done|].
  apply not_elem_of_cons in Hnull as [Hne Hnull].
  cbn [restore_each]. rewrite owned_cons. unfold is_owned.
  destruct (owned_by userId doc) as [[]|e] eqn:Hown.
  - cbn [foldl]. by apply IH.
  - by apply IH.
  - by apply owned_by_null in Hown as [-> _].
Qed.

Lemma restore_each_stops pre post userId st :
  JNull ∉ pre →
  restore_each Storage saveDocument (pre ++ JNull :: post) userId st
  = (Throw (PlatformError "TypeError" "Cannot read properties of null (reading 'userId')"),
     foldl (fun st doc => saveDocument doc st) st (owned userId pre)).
Proof.
  revert st. induction pre as [|doc pre IH]; intros st Hnull; [done|].
  apply not_elem_of_cons in Hnull as [Hne Hnull].
  change ((doc :: pre) ++ JNull :: post) with (doc :: (pre ++ JNull :: post)).
  cbn [restore_each]. rewrite owned_cons. unfold is_owned.
  destruct (owned_by userId doc) as [[]|e] eqn:Hown.
  - cbn [foldl]. by apply IH.
  - by apply IH.
  - by apply owned_by_null in Hown as [-> _].
Qed.

Lemma importBackup_documents file data :
  importBackup file = Fulfilled data →
  ∃ d, get_property data "documents" = Return (Some d) ∧ d ≠ JNull.
Proof.
  unfold importBackup. destruct (file_unreadable file); [discriminate|].
  destruct (file_json file) as [data'|e]; [|discriminate].
  destruct (get_property data' "version") as [v|e]; [|discriminate].
  destruct (truthy v); [|discriminate]. cbn.
  destruct (get_property data' "documents") as [d|e] eqn:Hd; [|discriminate].
  destruct (truthy d) eqn:Htd; [|discriminate]. cbn. intros [= <-].
  destruct d as [d|]; [|discriminate]. exists d. split; [done|]. by intros ->.
Qed.

(** X15: What [importBackup] lets through is not always a bundle that
    [restoreBackup] can restore.  On a value that [importBackup]
    resolved with, [restoreBackup] saves the elements of [documents]
    whose [userId] is the given string, in order, and returns, when
    [documents] is an array without a [null] in it.  On an array with a
    [null] it throws at the first one, after having saved the matching
    elements before it; on anything but an array it throws without
    saving, since only an array has a [forEach]. *)
Theorem restore_of_an_imported_backup (file : File) (data : JValue)
    (userId : string) (st : Storage) :
  importBackup file = Fulfilled data →
  ∃ d, get_property data "documents" = Return (Some d)
       ∧ match d with
         | JArray items =>
             (JNull ∉ items →
                restoreBackup_parsed Storage saveDocument data userId st
                = (Return tt,
                   foldl (fun st doc => saveDocument doc st) st (owned userId items)))
             ∧ (∀ pre post, items = pre ++ JNull :: post → JNull ∉ pre →
                  restoreBackup_parsed Storage saveDocument data userId st
                  = (Throw (PlatformError "TypeError"
                              "Cannot read properties of null (reading 'userId')"),
                     foldl (fun st doc => saveDocument doc st) st (owned userId pre)))
         | _ =>
             restoreBackup_parsed Storage saveDocument data userId st
             = (Throw (PlatformError "TypeError"
                         "backup.documents.forEach is not a function"), st)
         end.
Proof.
  intros Himport.
  destruct (importBackup_documents file data Himport) as (d & Hd & Hnull).
  exists d. split; [done|]. unfold restoreBackup_parsed. rewrite Hd.
  destruct d as [|b|x|s|items|fields]; try done. split.
  - intros Hn. by apply restore_each_all.
  - intros pre post -> Hn. by apply restore_each_stops.
Qed.

End RestoreAfterImport.

Lemma restore_of_an_imported_backup_witness :
  ∃ d, Backup.get_property
         (Backup.JObject [("version", Backup.JString "1.0");
                          ("documents", Backup.JString "none")]) "documents"
       = Return (Some d)
       ∧ match d with
         | Backup.JArray items =>
             (Backup.JNull ∉ items →
                Backup.restoreBackup_parsed (list Backup.JValue) (fun doc st => st ++ [doc])
                  (Backup.JObject [("version", Backup.JString "1.0");
                                   ("documents", Backup.JString "none")]) "ana" []
                = (Return tt,
                   foldl (fun st doc => st ++ [doc]) [] (Backup.owned "ana" items)))
             ∧ (∀ pre post, items = pre ++ Backup.JNull :: post → Backup.JNull ∉ pre →
                  Backup.restoreBackup_parsed (list Backup.JValue) (fun doc st => st ++ [doc])
                    (Backup.JObject [("version", Backup.JString "1.0");
                                     ("documents", Backup.JString "none")]) "ana" []
                  = (Throw (PlatformError "TypeError"
                              "Cannot read properties of null (reading 'userId')"),
                     foldl (fun st doc => st ++ [doc]) [] (Backup.owned "ana" pre)))
         | _ =>
             Backup.restoreBackup_parsed (list Backup.JValue) (fun doc st => st ++ [doc])
               (Backup.JObject [("version", Backup.JString "1.0");
                                ("documents", Backup.JString "none")]) "ana" []
             = (Throw (PlatformError "TypeError"
                         "backup.documents.forEach is not a function"), [])
         end.
Proof.
  apply (restore_of_an_imported_backup (list Backup.JValue) (fun doc st => st ++ [doc])
           (Backup.mkFile false
              (Return (Backup.JObject [("version", Backup.JString "1.0");
                                       ("documents", Backup.JString "none")])))).
  reflexivity.
Defined.

(** ** Reading the snapshots back *)

Section Numerals.

Import Backup.
Local Open Scope N_scope.

Lemma replace_first_unfold (pat s : list ascii) :
  replace_first pat s
  = if bool_decide (take (length pat) s = pat) then drop (length pat) s
    else match s with
         | [] => []
         | c :: s' => c :: replace_first pat s'
         end.
Proof. by destruct s. Qed.

Lemma replace_first_prefix (pat x : list ascii) : replace_first pat (pat ++ x) = x.
Proof.
  rewrite replace_first_unfold, bool_decide_eq_true_2.
  - by rewrite drop_app_length.
  - by rewrite take_app_length.
Qed.

Lemma digit_value_char r : r < 10 → digit_value 10 (pretty_N_char r) = Some r.
Proof.
  intros Hr.
  assert (Hc : r = 0 ∨ r = 1 ∨ r = 2 ∨ r = 3 ∨ r = 4 ∨ r = 5 ∨ r = 6
               ∨ r = 7 ∨ r = 8 ∨ r = 9) by lia.
  destruct Hc as [->|[->|[->|[->|[->|[->|[->|[->|[->| ->]]]]]]]]]; reflexivity.
Qed.

Lemma parse_digits_app radix l1 l2 acc :
  Forall (fun c => is_Some (digit_value radix c)) l1 →
  parse_digits radix (l1 ++ l2) acc = parse_digits radix l2 (parse_digits radix l1 acc).
Proof.
  intros Hl. revert acc. induction Hl as [|c l1 [d Hd] _ IH]; intros acc; cbn; [done|].
  by rewrite Hd, IH.
Qed.

(** The characters of the digits of [x], most significant first. *)
Lemma pretty_N_go_chars x :
  0 < x →
  String.list_ascii_of_string (pretty_N_go x "")
  = String.list_ascii_of_string (pretty_N_go (x `div` 10) "") ++ [pretty_N_char (x `mod` 10)].
Proof.
  intros Hx. by rewrite pretty_N_go_digits, list_ascii_of_string_app.
Qed.

Lemma pretty_N_go_all_digits x :
  Forall (fun c => is_Some (digit_value 10 c)) (String.list_ascii_of_string (pretty_N_go x "")).
Proof.
  induction (N.lt_wf_0 x) as [x _ IH].
  destruct (decide (x = 0)) as [->|Hx]; [constructor|].
  rewrite pretty_N_go_chars by lia. apply Forall_app. split.
  - apply IH, N.div_lt; lia.
  - constructor; [|constructor]. rewrite digit_value_char; [done|]. by apply N.mod_lt.
Qed.

Lemma parse_digits_pretty_go x :
  parse_digits 10 (String.list_ascii_of_string (pretty_N_go x "")) None
  = if decide (x = 0) then None else Some x.
Proof.
  induction (N.lt_wf_0 x) as [x _ IH].
  destruct (decide (x = 0)) as [->|Hx]; [done|].
  rewrite pretty_N_go_chars by lia.
  rewrite parse_digits_app by apply pretty_N_go_all_digits.
  rewrite IH by (apply N.div_lt; lia). cbn [parse_digits].
  rewrite digit_value_char by (by apply N.mod_lt). f_equal.
  assert (default 0 (if decide (x `div` 10 = 0) then None else Some (x `div` 10))
          = x `div` 10) as ->.
  { case_decide as H0; [by rewrite H0|done]. }
  symmetry. apply N.div_mod'.
Qed.

Lemma pretty_chars_digits (n : N) :
  String.list_ascii_of_string (pretty n) ≠ []
  ∧ Forall (fun c => is_Some (digit_value 10 c)) (String.list_ascii_of_string (pretty n))
  ∧ parse_digits 10 (String.list_ascii_of_string (pretty n)) None = Some n.
Proof.
  unfold pretty, pretty_N. case_decide as H0.
  - subst. split; [done|]. split; [|done]. by repeat constructor.
  - split_and!.
    + rewrite pretty_N_go_chars by lia. by destruct (String.list_ascii_of_string _).
    + apply pretty_N_go_all_digits.
    + by rewrite parse_digits_pretty_go, decide_False.
Qed.

Lemma decimal_digit_cases c :
  is_Some (digit_value 10 c) →
  c = "0"%char ∨ c = "1"%char ∨ c = "2"%char ∨ c = "3"%char ∨ c = "4"%char
  ∨ c = "5"%char ∨ c = "6"%char ∨ c = "7"%char ∨ c = "8"%char ∨ c = "9"%char.
Proof.
  destruct c as [[] [] [] [] [] [] [] []]; vm_compute; intros [d Hd];
    try discriminate; auto 10.
Qed.

(** On a text of decimal digits [parseInt] reads all of them. *)
Lemma parseInt_decimal l :
  l ≠ [] → Forall (fun c => is_Some (digit_value 10 c)) l →
  parseInt l = (fun n => Z.of_N n) <$> parse_digits 10 l None.
Proof.
  intros Hne Hl. destruct Hl as [|c1 l Hc1 Hl]; [done|].
  assert (Hend : ∀ (s : list ascii),
            match parse_digits 10 s None with
            | Some n => Some (1 * Z.of_N n)%Z
            | None => None
            end = (fun n => Z.of_N n) <$> parse_digits 10 s None).
  { intros s. destruct (parse_digits 10 s None); cbn -[Z.mul]; [|done].
    by rewrite Z.mul_1_l. }
  unfold parseInt. cbn [trim_start].
  destruct (decimal_digit_cases c1 Hc1)
    as [->|[->|[->|[->|[->|[->|[->|[->|[->| ->]]]]]]]]];
    replace (is_white_space _) with false by (by vm_compute);
    try apply Hend.
  destruct Hl as [|c2 l Hc2 Hl]; [apply Hend|].
  destruct (decimal_digit_cases c2 Hc2)
    as [->|[->|[->|[->|[->|[->|[->|[->|[->| ->]]]]]]]]];
    apply Hend.
Qed.

Lemma parseInt_pretty (n : N) :
  parseInt (String.list_ascii_of_string (pretty n)) = Some (Z.of_N n).
Proof.
  destruct (pretty_chars_digits n) as (Hne & Hall & Hparse).
  by rewrite parseInt_decimal, Hparse.
Qed.

End Numerals.

Section SnapshotList.

Import Backup.

Lemma auto_backup_key_chars (t : N) :
  String.list_ascii_of_string (auto_backup_key t)
  = String.list_ascii_of_string PREFIX ++ String.list_ascii_of_string (pretty t).
Proof. unfold auto_backup_key. apply list_ascii_of_string_app. Qed.

Lemma key_time_of_write (t : N) :
  (Z.of_N t ≤ MAX_TIME)%Z →
  Date_getTime (parseInt (replace_first (String.list_ascii_of_string PREFIX)
                                        (String.list_ascii_of_string (auto_backup_key t))))
  = Some (Z.of_N t).
Proof.
  intros Ht. rewrite auto_backup_key_chars, replace_first_prefix, parseInt_pretty.
  cbn [Date_getTime mbind option_bind]. rewrite Z.abs_eq by lia.
  by apply Z.leb_le in Ht as ->.
Qed.

(** X16: The time [getAutoBackups] reads out of a key that [startAutoBackup]
    wrote, at a time a [Date] can hold, is the time of the write; and
    two writes share a key only when they share that time. *)
Theorem snapshot_key_carries_its_time (t : N) :
  (Z.of_N t ≤ MAX_TIME)%Z →
  Date_getTime (parseInt (replace_first (String.list_ascii_of_string PREFIX)
                                        (String.list_ascii_of_string (auto_backup_key t))))
  = Some (Z.of_N t)
  ∧ ∀ t', auto_backup_key t' = auto_backup_key t → t' = t.
Proof.
  intros Ht. split; [by apply key_time_of_write|].
  intros t' Heq. by apply auto_backup_key_inj.
Qed.

Lemma snapshot_key_carries_its_time_witness :
  Date_getTime (parseInt (replace_first (String.list_ascii_of_string PREFIX)
                            (String.list_ascii_of_string (auto_backup_key 1700000000000))))
  = Some 1700000000000%Z
  ∧ ∀ t', auto_backup_key t' = auto_backup_key 1700000000000 → t' = 1700000000000%N.
Proof.
  apply (snapshot_key_carries_its_time 1700000000000). by vm_compute.
Defined.

Lemma map_throwing_Return {A B} (f : A → completion B) (g : A → B) l :
  (∀ x, x ∈ l → f x = Return (g x)) → map_throwing f l = Return (g <$> l).
Proof.
  induction l as [|x l IH]; intros Hf; cbn; [done|].
  rewrite (Hf x) by apply list_elem_of_here.
  rewrite IH; [done|]. intros y Hy. by apply Hf, list_elem_of_further.
Qed.

Lemma map_throwing_Throw {A B} (f : A → completion B) l x e :
  x ∈ l → f x = Throw e → ∃ e', map_throwing f l = Throw e'.
Proof.
  induction l as [|y l IH]; intros Hx Hf; [by apply elem_of_nil in Hx|].
  cbn. apply elem_of_cons in Hx as [<-|Hx].
  - rewrite Hf. by eexists.
  - destruct (f y); [|by eexists].
    destruct (IH Hx Hf) as (e' & ->). by eexists.
Qed.

Lemma sort_insert_perm {A} (cmp : A → A → option Z) x l : sort_insert cmp x l ≡ₚ x :: l.
Proof.
  induction l as [|y l IH]; cbn; [done|].
  destruct (sorts_after (cmp x y)); [|done].
  by rewrite IH, Permutation_swap.
Qed.

Lemma Array_sort_perm {A} (cmp : A → A → option Z) l : Array_sort cmp l ≡ₚ l.
Proof.
  unfold Array_sort. induction l as [|x l IH]; cbn; [done|].
  by rewrite sort_insert_perm, IH.
Qed.

(** Sorting with a comparator that decides a transitive relation among
    the elements of the list gives a list sorted by that relation. *)
Lemma sort_insert_sorted {A} (cmp : A → A → option Z) (R : A → A → Prop) x l :
  (∀ y, y ∈ l → if sorts_after (cmp x y) then R y x else R x y) →
  (∀ a b c, R a b → R b c → R a c) →
  StronglySorted R l → StronglySorted R (sort_insert cmp x l).
Proof.
  intros Hx Htrans Hl. induction Hl as [|y l Hl IH Hy]; cbn.
  - repeat constructor.
  - pose proof (Hx y ltac:(apply list_elem_of_here)) as Hxy.
    destruct (sorts_after (cmp x y)).
    + constructor.
      * apply IH. intros z Hz. by apply Hx, list_elem_of_further.
      * apply Forall_forall. intros z Hz.
        rewrite Forall_forall in Hy.
        apply (elem_of_Permutation_proper _ _ _ (sort_insert_perm cmp x l)) in Hz.
        apply elem_of_cons in Hz as [->|Hz]; [done|by apply Hy].
    + constructor; [by constructor|].
      constructor; [done|]. rewrite Forall_forall in Hy |- *.
      intros z Hz. by eapply Htrans, Hy.
Qed.

Lemma Array_sort_sorted {A} (cmp : A → A → option Z) (R : A → A → Prop) l :
  (∀ x y, x ∈ l → y ∈ l → if sorts_after (cmp x y) then R y x else R x y) →
  (∀ a b c, R a b → R b c → R a c) →
  StronglySorted R (Array_sort cmp l).
Proof.
  intros Hcmp Htrans. unfold Array_sort.
  induction l as [|x l IH]; cbn; [constructor|].
  apply sort_insert_sorted; [|done|].
  - intros y Hy. apply Hcmp; [apply list_elem_of_here|].
    apply list_elem_of_further.
    by apply (elem_of_Permutation_proper _ _ _ (Array_sort_perm cmp l)) in Hy.
  - apply IH. intros a b Ha Hb. by apply Hcmp; apply list_elem_of_further.
Qed.

Lemma snapshot_keys_perm (ls : gmap string string) :
  filter (fun k => is_auto_backup k = true) (elements (dom ls)) ≡ₚ autoBackups ls.
Proof. unfold autoBackups. by rewrite merge_sort_Permutation. Qed.

Section WithParser.

Variable JSON_parse : string → completion JValue.

(** X17: When every snapshot key in storage was written by [startAutoBackup]
    at a time a [Date] can hold, and every snapshot parses,
    [getAutoBackups] returns one entry per snapshot key, each with the
    time of its write and its parsed content, the newest first by that
    time. *)
Theorem getAutoBackups_newest_first (ls : gmap string string) :
  (∀ k, k ∈ autoBackups ls → ∃ t, k = auto_backup_key t ∧ (Z.of_N t ≤ MAX_TIME)%Z) →
  (∀ k, k ∈ autoBackups ls → ∃ b, JSON_parse (or_string (ls !! k) "{}") = Return b) →
  ∃ l, getAutoBackups JSON_parse ls = Return l
       ∧ ab_key <$> l ≡ₚ autoBackups ls
       ∧ (∀ a, a ∈ l →
            ∃ t, ab_key a = auto_backup_key t
                 ∧ ab_timestamp a = Some (Z.of_N t)
                 ∧ JSON_parse (or_string (ls !! ab_key a) "{}") = Return (ab_backup a))
       ∧ StronglySorted not_older l.
Proof.
  intros Hkeys Hparse. unfold getAutoBackups.
  set (keys := filter _ (elements (dom ls))).
  assert (Hperm : keys ≡ₚ autoBackups ls) by apply snapshot_keys_perm.
  set (f := fun key : string => _).
  set (g := fun key : string =>
              mkAutoBackup key
                (Date_getTime (parseInt (replace_first (String.list_ascii_of_string PREFIX)
                                                       (String.list_ascii_of_string key))))
                (match JSON_parse (or_string (ls !! key) "{}") with
                 | Return b => b
                 | Throw _ => JNull
                 end)).
  assert (Hf : ∀ k, k ∈ keys → f k = Return (g k)).
  { intros k Hk. rewrite Hperm in Hk. destruct (Hparse k Hk) as (b & Hb).
    subst f g. cbn beta. by rewrite Hb. }
  rewrite (map_throwing_Return f g keys Hf).
  assert (Hentry : ∀ a, a ∈ g <$> keys →
            ∃ t, ab_key a = auto_backup_key t
                 ∧ ab_timestamp a = Some (Z.of_N t)
                 ∧ JSON_parse (or_string (ls !! ab_key a) "{}") = Return (ab_backup a)).
  { intros a Ha. apply list_elem_of_fmap in Ha as (k & -> & Hk). rewrite Hperm in Hk.
    destruct (Hkeys k Hk) as (t & -> & Ht). destruct (Hparse _ Hk) as (b & Hb).
    exists t. subst g. cbn. rewrite key_time_of_write by done.
    by rewrite Hb. }
  eexists. split; [reflexivity|]. split_and!.
  - by rewrite Array_sort_perm, <- list_fmap_compose, <- Hperm, list_fmap_id.
  - intros a Ha. apply Hentry.
    by apply (elem_of_Permutation_proper _ _ _ (Array_sort_perm newest_first (g <$> keys))) in Ha.
  - apply Array_sort_sorted.
    + intros x y Hx Hy.
      destruct (Hentry x Hx) as (tx & _ & Htx & _).
      destruct (Hentry y Hy) as (ty & _ & Hty & _).
      unfold newest_first, not_older. rewrite Htx, Hty. cbn.
      destruct (0 <? Z.of_N ty - Z.of_N tx)%Z eqn:Hcmp.
      * apply Z.ltb_lt in Hcmp. eexists _, _. split_and!; [done..|lia].
      * apply Z.ltb_ge in Hcmp. eexists _, _. split_and!; [done..|lia].
    + intros a b c (ta & tb & Ha & Hb & Hab) (tb' & tc & Hb' & Hc & Hbc).
      exists ta, tc. split_and!; [done..|]. simplify_eq. lia.
Qed.

(** X18: One snapshot that does not parse makes [getAutoBackups] throw:
    none of the others is returned. *)
Theorem getAutoBackups_throws_on_a_bad_snapshot (ls : gmap string string) k e :
  k ∈ autoBackups ls →
  JSON_parse (or_string (ls !! k) "{}") = Throw e →
  ∃ e', getAutoBackups JSON_parse ls = Throw e'.
Proof.
  intros Hk He. unfold getAutoBackups.
  set (keys := filter _ (elements (dom ls))).
  assert (Hin : k ∈ keys) by (unfold keys; by rewrite (snapshot_keys_perm ls)).
  match goal with |- context [map_throwing ?f keys] =>
    destruct (map_throwing_Throw f keys k e Hin) as (e' & ->)
  end.
  - by rewrite He.
  - by eexists.
Qed.

End WithParser.

End SnapshotList.

Section SnapshotWitnesses.

Import Backup.

Lemma steady_snapshot_keys :
  autoBackups (auto_backup_run steady_ticks ∅)
  = auto_backup_key <$> [1700000600000; 1700001200000; 1700001800000;
                         1700002400000; 1700003000000]%N.
Proof. by vm_compute. Qed.

Lemma getAutoBackups_newest_first_witness :
  ∃ l, getAutoBackups (fun _ => Return (JObject [])) (auto_backup_run steady_ticks ∅)
       = Return l
       ∧ ab_key <$> l ≡ₚ autoBackups (auto_backup_run steady_ticks ∅)
       ∧ (∀ a, a ∈ l →
            ∃ t, ab_key a = auto_backup_key t
                 ∧ ab_timestamp a = Some (Z.of_N t)
                 ∧ (fun _ : string => Return (JObject []))
                     (or_string (auto_backup_run steady_ticks ∅ !! ab_key a) "{}")
                   = Return (ab_backup a))
       ∧ StronglySorted not_older l.
Proof.
  apply (getAutoBackups_newest_first (fun _ => Return (JObject []))
           (auto_backup_run steady_ticks ∅)).
  - intros k. rewrite steady_snapshot_keys. intros Hk.
    apply list_elem_of_fmap in Hk as (t & -> & Ht). exists t. split; [reflexivity|].
    repeat (apply elem_of_cons in Ht as [->|Ht]; [by vm_compute|]).
    exfalso. revert Ht. apply not_elem_of_nil.
  - intros k _. by eexists.
Defined.

Lemma getAutoBackups_throws_on_a_bad_snapshot_witness :
  ∃ e', getAutoBackups
          (fun s => if decide (s = "s3") then Throw (PlatformError "SyntaxError" "Unexpected token")
                    else Return (JObject []))
          (auto_backup_run steady_ticks ∅)
        = Throw e'.
Proof.
  apply (getAutoBackups_throws_on_a_bad_snapshot _ (auto_backup_run steady_ticks ∅)
           (auto_backup_key 1700001200000) (PlatformError "SyntaxError" "Unexpected token")).
  - rewrite steady_snapshot_keys. apply list_elem_of_fmap. eexists. split; [reflexivity|].
    apply list_elem_of_further, list_elem_of_here.
  - by vm_compute.
Defined.

End SnapshotWitnesses.

(** ** The auto-backup timer and what a snapshot leaves alone *)

Section Timer.

Import Backup.

Lemma stopAutoBackup_clears t :
  timers_ok t →
  timers_active (stopAutoBackup t) = ∅ ∧ autoBackupInterval (stopAutoBackup t) = None.
Proof.
  unfold timers_ok, stopAutoBackup. destruct (autoBackupInterval t) as [h|] eqn:Hh.
  - intros (ms & Hact). cbn. split; [|done]. rewrite Hact. apply delete_singleton_eq.
  - intros Hact. by rewrite Hh.
Qed.

Lemma startAutoBackup_sets m t :
  timers_ok t →
  ∃ h, autoBackupInterval (startAutoBackup m t) = Some h
       ∧ timers_active (startAutoBackup m t) = {[h := (nullish m 10 * 60 * 1000)%Z]}.
Proof.
  intros Hok. destruct (stopAutoBackup_clears t Hok) as [Hact Hnone].
  unfold startAutoBackup, setInterval. cbn. eexists. split; [done|].
  by rewrite Hact, insert_empty.
Qed.

Lemma timer_call_ok t c : timers_ok t → timers_ok (timer_call t c).
Proof.
  intros Hok. destruct c as [m|]; cbn [timer_call].
  - destruct (startAutoBackup_sets m t Hok) as (h & Hh & Hact).
    unfold timers_ok. rewrite Hh. by eexists.
  - destruct (stopAutoBackup_clears t Hok) as [Hact Hnone].
    unfold timers_ok. by rewrite Hnone.
Qed.

Lemma timer_calls_ok calls : timers_ok (foldl timer_call no_timers calls).
Proof.
  induction calls as [|c calls IH] using rev_ind; [done|].
  rewrite foldl_app. cbn [foldl]. by apply timer_call_ok.
Qed.

(** X19: However [startAutoBackup] and [stopAutoBackup] are called, at most
    one timer of the module is alive: after a start it is the one just
    set, with the period asked for (ten minutes by default), and after
    a stop there is none. *)
Theorem at_most_one_auto_backup_timer (calls : list TimerCall) :
  let t := foldl timer_call no_timers calls in
  size (timers_active t) ≤ 1
  ∧ (∀ m, last calls = Some (Start m) →
       ∃ h, autoBackupInterval t = Some h
            ∧ timers_active t = {[h := (nullish m 10 * 60 * 1000)%Z]})
  ∧ (last calls = Some Stop → timers_active t = ∅ ∧ autoBackupInterval t = None).
Proof.
  cbn zeta. split_and!.
  - pose proof (timer_calls_ok calls) as Hok. unfold timers_ok in Hok.
    destruct (autoBackupInterval _) as [h|].
    + destruct Hok as (ms & ->). by rewrite map_size_singleton.
    + rewrite Hok, map_size_empty. lia.
  - intros m Hlast. destruct calls as [|c calls _] using rev_ind; [done|].
    rewrite last_snoc in Hlast. injection Hlast as ->.
    rewrite foldl_app. cbn [foldl timer_call]. apply startAutoBackup_sets, timer_calls_ok.
  - intros Hlast. destruct calls as [|c calls _] using rev_ind; [done|].
    rewrite last_snoc in Hlast. injection Hlast as ->.
    rewrite foldl_app. cbn [foldl timer_call]. apply stopAutoBackup_clears, timer_calls_ok.
Qed.

End Timer.

Section OtherEntries.

Import Backup.

Lemma prefix_append (p s : string) : String.prefix p (p +:+ s) = true.
Proof.
  induction p as [|c p IH]; [by destruct s|].
  change (String c p +:+ s) with (String c (p +:+ s)). cbn [String.prefix].
  by destruct (ascii_dec c c).
Qed.

Lemma is_auto_backup_key now : is_auto_backup (auto_backup_key now) = true.
Proof. apply prefix_append. Qed.

Lemma foldl_delete_lookup (m : gmap string string) (l : list string) k :
  k ∉ l → foldl (fun ls k => delete k ls) m l !! k = m !! k.
Proof.
  revert m. induction l as [|x l IH]; intros m Hk; cbn; [done|].
  apply not_elem_of_cons in Hk as [Hne Hk].
  by rewrite IH, lookup_delete_ne.
Qed.

Lemma auto_backup_tick_other now snapshot (ls : gmap string string) k :
  is_auto_backup k = false → auto_backup_tick now snapshot ls !! k = ls !! k.
Proof.
  intros Hk. unfold auto_backup_tick.
  assert (Hne : auto_backup_key now ≠ k).
  { intros <-. by rewrite is_auto_backup_key in Hk. }
  case_decide.
  - rewrite foldl_delete_lookup; [by rewrite lookup_insert_ne|].
    intros (i & Hin%list_elem_of_lookup_2 & _)%elem_of_take.
    apply (autoBackups_spec (<[auto_backup_key now := snapshot]> ls)) in Hin as [_ Hin].
    congruence.
  - by rewrite lookup_insert_ne.
Qed.

(** X20: The auto backup writes and removes snapshot entries only: an entry
    of [localStorage] whose key does not start with [auto_backup_] is
    never changed or removed, however many snapshots are taken. *)
Theorem auto_backup_keeps_other_entries ticks (ls : gmap string string) k :
  is_auto_backup k = false →
  auto_backup_run ticks ls !! k = ls !! k.
Proof.
  intros Hk. unfold auto_backup_run. revert ls.
  induction ticks as [|[now snapshot] ticks IH]; intros ls; cbn; [done|].
  by rewrite IH, auto_backup_tick_other.
Qed.

Lemma auto_backup_keeps_other_entries_witness :
  auto_backup_run six_ticks {["documents" := "[]"]} !! "documents" = Some "[]".
Proof.
  rewrite (auto_backup_keeps_other_entries six_ticks {["documents" := "[]"]} "documents").
  - reflexivity.
  - reflexivity.
Defined.

(** X21: After a snapshot has been taken, at most five snapshot entries are
    in storage, however many there were before. *)
Theorem auto_backup_run_bound ticks (ls : gmap string string) :
  ticks ≠ [] → length (autoBackups (auto_backup_run ticks ls)) ≤ 5.
Proof.
  intros Hne. destruct ticks as [|[now snapshot] ticks _] using rev_ind; [done|].
  unfold auto_backup_run. rewrite foldl_app. cbn. apply auto_backup_tick_bound.
Qed.

Lemma auto_backup_run_bound_witness :
  length (autoBackups (auto_backup_run six_ticks ∅)) ≤ 5.
Proof. apply (auto_backup_run_bound six_ticks ∅). discriminate. Defined.

Lemma auto_backup_tick_evicts_oldest_witness : (1700000000000 < 1700000600000)%N.
Proof.
  apply (auto_backup_tick_evicts_oldest 1700003000000 "s6"
           (auto_backup_run (take 5 steady_ticks) ∅) 13
           1700000000000 1700000600000).
  - intros k Hk.
    assert (Hks : autoBackups (<[auto_backup_key 1700003000000 := "s6"]>
                                 (auto_backup_run (take 5 steady_ticks) ∅))
                  = auto_backup_key <$> [1700000000000; 1700000600000; 1700001200000;
                                         1700001800000; 1700002400000; 1700003000000]%N)
      by (by vm_compute).
    rewrite Hks in Hk. apply list_elem_of_fmap in Hk as (t & -> & Ht).
    exists t. split; [reflexivity|].
    repeat (apply elem_of_cons in Ht as [->|Ht]; [by vm_compute|]).
    exfalso. revert Ht. apply not_elem_of_nil.
  - apply (bool_decide_unpack _). by vm_compute.
  - apply (bool_decide_unpack _). by vm_compute.
  - apply (bool_decide_unpack _). by vm_compute.
Defined.

End OtherEntries.

Section NewestSnapshot.

Import Backup.

(** X29: On a clock that does not run backwards and keeps its number of
    digits, the snapshot just written is never the one evicted: when
    every snapshot key in storage after the write carries a time of one
    width that is not later than the time of the write, the entry
    written is still there when the callback is done. *)
Theorem auto_backup_keeps_the_newest now snapshot (ls : gmap string string) (width : nat) :
  (∀ k, k ∈ autoBackups (<[auto_backup_key now := snapshot]> ls) →
        ∃ t, k = auto_backup_key t ∧ String.length (pretty t) = width ∧ (t ≤ now)%N) →
  auto_backup_tick now snapshot ls !! auto_backup_key now = Some snapshot.
Proof.
  intros Hkeys. unfold auto_backup_tick.
  set (ls1 := <[auto_backup_key now := snapshot]> ls) in *.
  set (ks := autoBackups ls1) in *.
  destruct (autoBackups_spec ls1) as (Hsorted & Hnodup & Hin). fold ks in Hsorted, Hnodup, Hin.
  assert (Hnow : auto_backup_key now ∈ ks).
  { apply Hin. split; [|apply is_auto_backup_key].
    apply elem_of_dom. exists snapshot. apply lookup_insert_eq. }
  case_decide as Hlen; [|apply lookup_insert_eq].
  set (n := length ks - 5).
  rewrite foldl_delete_lookup; [apply lookup_insert_eq|].
  intros Htake.
  rewrite <- (take_drop n ks) in Hsorted, Hnodup.
  assert (Hdrop : ∃ k2, k2 ∈ drop n ks).
  { destruct (drop n ks) as [|k2 rest] eqn:Hd.
    - apply (f_equal length) in Hd. rewrite length_drop in Hd. cbn in Hd. lia.
    - exists k2. apply list_elem_of_here. }
  destruct Hdrop as (k2 & Hk2).
  assert (Hk2' : k2 ∈ ks).
  { rewrite <- (take_drop n ks). apply elem_of_app. by right. }
  destruct (Hkeys k2 Hk2') as (t2 & -> & Hw2 & Ht2).
  destruct (Hkeys _ Hnow) as (t1 & Heq & Hw1 & _).
  apply auto_backup_key_inj in Heq as <-.
  assert (Hle : (now ≤ t2)%N).
  { apply auto_backup_key_le; [congruence|].
    by apply (StronglySorted_app_1_elem_of String.le (take n ks) (drop n ks)). }
  assert (t2 = now) as -> by lia.
  apply NoDup_app in Hnodup as (_ & Hdisj & _). by apply (Hdisj _ Htake).
Qed.

Lemma auto_backup_keeps_the_newest_witness :
  auto_backup_tick 1700003000000 "s6" (auto_backup_run (take 5 steady_ticks) ∅)
  !! auto_backup_key 1700003000000 = Some "s6".
Proof.
  apply (auto_backup_keeps_the_newest 1700003000000 "s6"
           (auto_backup_run (take 5 steady_ticks) ∅) 13).
  intros k Hk.
  assert (Hks : autoBackups (<[auto_backup_key 1700003000000 := "s6"]>
                               (auto_backup_run (take 5 steady_ticks) ∅))
                = auto_backup_key <$> [1700000000000; 1700000600000; 1700001200000;
                                       1700001800000; 1700002400000; 1700003000000]%N)
    by (by vm_compute).
  rewrite Hks in Hk. apply list_elem_of_fmap in Hk as (t & -> & Ht).
  exists t. split; [reflexivity|].
  clear Hks.
  repeat (apply elem_of_cons in Ht as [->|Ht];
          [vm_compute; split; [reflexivity | discriminate]|]).
  exfalso. revert Ht. apply not_elem_of_nil.
Defined.

End NewestSnapshot.

(** ** The auth hook: giving up and resetting *)

Section GivingUp.

Import Auth.

Context {D : Type}.

Lemma attempt_loop_delay (call : nat → Response D) :
  (0 ≤ total_delay (attempt_loop call 3 0 None).2 ≤ 2800)%Z.
Proof.
  cbn. destruct (resp_error (call 0)) as [e0|]; [|cbn; lia].
  destruct (is_transient e0); [|cbn; lia].
  destruct (resp_error (call 1)) as [e1|]; [|cbn; lia].
  destruct (is_transient e1); [|cbn; lia].
  destruct (resp_error (call 2)) as [e2|]; [|cbn; lia].
  destruct (is_transient e2); cbn; lia.
Qed.

Lemma attempt_loop_exhausted (call : nat → Response D) e0 e1 e2 :
  resp_error (call 0) = Some e0 → is_transient e0 = true →
  resp_error (call 1) = Some e1 → is_transient e1 = true →
  resp_error (call 2) = Some e2 → is_transient e2 = true →
  attempt_loop call 3 0 None
  = (mkResult None (Some e2),
     [Call 0; Delay 400; Call 1; Delay 800; Call 2; Delay 1600]).
Proof. intros H0 T0 H1 T1 H2 T2. cbn. by rewrite H0, T0, H1, T1, H2, T2. Qed.

Variable signInWithPassword : SignInRequest → nat → Response D.
Variable auth_signUp : SignUpRequest → nat → Response D.

(** X23: [signIn] and [signUp] never wait more than 2800 ms in all.  When
    the backend fails three times in a transient way they give up with
    the error of the third attempt, after a wait of 1600 ms that no
    attempt follows. *)
Theorem retry_gives_up_after_three_failures
    (origin baseUrl mobileNumber password : string) :
  let sign_in := signInWithPassword (mkSignIn (mobileNumber +:+ "@app.local") password) in
  let sign_up := auth_signUp (mkSignUp (mobileNumber +:+ "@app.local") password
                                       (origin +:+ baseUrl) mobileNumber) in
  (total_delay (signIn signInWithPassword mobileNumber password).2 ≤ 2800)%Z
  ∧ (total_delay (signUp auth_signUp origin baseUrl mobileNumber password).2 ≤ 2800)%Z
  ∧ (∀ e0 e1 e2,
       resp_error (sign_in 0) = Some e0 → is_transient e0 = true →
       resp_error (sign_in 1) = Some e1 → is_transient e1 = true →
       resp_error (sign_in 2) = Some e2 → is_transient e2 = true →
       signIn signInWithPassword mobileNumber password
       = (Fulfilled (mkResult None (Some e2)),
          [Call 0; Delay 400; Call 1; Delay 800; Call 2; Delay 1600]))
  ∧ (∀ e0 e1 e2,
       resp_error (sign_up 0) = Some e0 → is_transient e0 = true →
       resp_error (sign_up 1) = Some e1 → is_transient e1 = true →
       resp_error (sign_up 2) = Some e2 → is_transient e2 = true →
       signUp auth_signUp origin baseUrl mobileNumber password
       = (Fulfilled (mkResult None (Some e2)),
          [Call 0; Delay 400; Call 1; Delay 800; Call 2; Delay 1600])).
Proof.
  intros sign_in sign_up. unfold signIn, signUp. fold sign_in sign_up. split_and!.
  - pose proof (attempt_loop_delay sign_in) as Hd.
    destruct (attempt_loop sign_in 3 0 None). cbn in *. lia.
  - pose proof (attempt_loop_delay sign_up) as Hd.
    destruct (attempt_loop sign_up 3 0 None). cbn in *. lia.
  - intros e0 e1 e2 H0 T0 H1 T1 H2 T2.
    by rewrite (attempt_loop_exhausted sign_in e0 e1 e2).
  - intros e0 e1 e2 H0 T0 H1 T1 H2 T2.
    by rewrite (attempt_loop_exhausted sign_up e0 e1 e2).
Qed.

End GivingUp.

Lemma retry_gives_up_after_three_failures_witness :
  let down := Auth.mkAuthError (Some 503%Z) "upstream error" in
  Auth.signIn (fun _ _ => Auth.mkResponse "" (Some down)) "9876543210" "secret"
  = (Fulfilled (Auth.mkResult None (Some down)),
     [Auth.Call 0; Auth.Delay 400; Auth.Call 1; Auth.Delay 800;
      Auth.Call 2; Auth.Delay 1600]).
Proof.
  intros down.
  destruct (retry_gives_up_after_three_failures
              (D := string)
              (fun _ _ => Auth.mkResponse "" (Some down))
              (fun _ _ => Auth.mkResponse "" (Some down))
              "https://docs.example" "/" "9876543210" "secret")
    as (_ & _ & Hin & _).
  apply (Hin down down down); reflexivity.
Defined.

Section ResetAuth.

Import Auth Pages.

Lemma remove_loop_lookup (l : list string) (ls : gmap string string) k :
  foldl (fun ls k => if is_auth_key k then delete k ls else ls) ls l !! k
  = if decide (k ∈ l ∧ is_auth_key k = true) then None else ls !! k.
Proof.
  revert ls. induction l as [|x l IH]; intros ls; cbn.
  - rewrite decide_False; [done|]. intros [Hk _]. by apply elem_of_nil in Hk.
  - rewrite IH. destruct (decide (k ∈ l ∧ is_auth_key k = true)) as [[Hin Hk]|Hn].
    + rewrite decide_True; [done|]. split; [by apply list_elem_of_further|done].
    + destruct (decide (k = x)) as [->|Hne].
      * destruct (is_auth_key x) eqn:Hx.
        -- rewrite lookup_delete_eq, decide_True; [done|].
           split; [apply list_elem_of_here|done].
        -- rewrite decide_False; [done|]. intros [_ ?]. congruence.
      * rewrite decide_False.
        -- destruct (is_auth_key x); [by rewrite lookup_delete_ne|done].
        -- intros [[?|?]%elem_of_cons ?]; [done|]. by apply Hn.
Qed.

Lemma remove_auth_keys_lookup (ls : gmap string string) k :
  (remove_auth_keys None ls).2 !! k = if is_auth_key k then None else ls !! k.
Proof.
  cbn. rewrite remove_loop_lookup. destruct (is_auth_key k) eqn:Hk.
  - case_decide as Hin; [done|]. destruct (ls !! k) eqn:Hlook; [|done].
    destruct Hin. split; [|done]. apply elem_of_elements, elem_of_dom. by eexists.
  - rewrite decide_False; [done|]. by intros [_ ?].
Qed.

Variable auth_signOut :
  gmap string string → completion (promise unit) * gmap string string.

Lemma resetAuth_lookup (ls : gmap string string) k :
  (resetAuth auth_signOut None ls).2 !! k
  = if is_auth_key k then None else (auth_signOut ls).2 !! k.
Proof.
  unfold resetAuth. destruct (auth_signOut ls) as [called ls1].
  rewrite <- remove_auth_keys_lookup. by destruct called as [[]|].
Qed.

(** X24: [resetAuth] always resolves, whatever [signOut] does and whether or
    not [localStorage] can be read.  When it can, every key that starts
    with [sb-] is gone afterwards and every other entry is as [signOut]
    left it; when it cannot, the storage is as [signOut] left it. *)
Theorem resetAuth_removes_the_auth_keys (ls : gmap string string) :
  (∀ blocked, (resetAuth auth_signOut blocked ls).1 = Fulfilled tt)
  ∧ (∀ k, (resetAuth auth_signOut None ls).2 !! k
          = if is_auth_key k then None else (auth_signOut ls).2 !! k)
  ∧ (∀ e, (resetAuth auth_signOut (Some e) ls).2 = (auth_signOut ls).2).
Proof.
  unfold resetAuth. destruct (auth_signOut ls) as [called ls1]. split_and!.
  - intros blocked. destruct called as [[]|]; by destruct blocked.
  - intros k. rewrite <- remove_auth_keys_lookup.
    by destruct called as [[]|].
  - intros e. by destruct called as [[]|].
Qed.

Lemma hasStale_false (ls : gmap string string) :
  (∀ k, is_Some (ls !! k) → is_auth_key k = false) → hasStale ls = false.
Proof.
  intros Hls. unfold hasStale. apply not_true_is_false. intros Hex.
  apply existsb_exists in Hex as (k & Hk%list_elem_of_In & Hstale).
  apply elem_of_elements, elem_of_dom in Hk.
  rewrite (Hls k Hk) in Hstale. discriminate.
Qed.

(** X25: At its first render the login page has no user yet, whether or
    not a session is stored, so the effect that clears stale tokens
    looks at [localStorage].  When it holds a key that starts with [sb-]
    and contains [auth], the token of a live session included,
    [resetAuth] runs: afterwards no key that starts with [sb-] is left
    and every other entry is as [signOut] left it.  Without such a key
    the storage stays as it is; either way no such key is in storage
    when the effect is done.  When [localStorage] cannot be read, the
    effect throws.  At a render at which the hook holds a user, the
    effect returns and leaves the storage as it is. *)
Theorem stale_tokens_are_cleared {U} (ls : gmap string string) :
  let at_mount := clear_stale_tokens auth_signOut (@initial_user U) in
  ((at_mount None ls).1 = Return tt
   ∧ hasStale (at_mount None ls).2 = false
   ∧ (hasStale ls = true →
      ∀ k, (at_mount None ls).2 !! k
           = if is_auth_key k then None else (auth_signOut ls).2 !! k)
   ∧ (hasStale ls = false → (at_mount None ls).2 = ls))
  ∧ (∀ e, at_mount (Some e) ls = (Throw e, ls))
  ∧ (∀ (user : U) blocked,
       clear_stale_tokens auth_signOut (Some user) blocked ls = (Return tt, ls)).
Proof.
  cbn zeta. unfold initial_user. split_and!.
  - cbn. by destruct (hasStale ls).
  - cbn. destruct (hasStale ls) eqn:Hstale; [|done].
    apply hasStale_false. intros k [v Hk]. cbn in Hk.
    rewrite resetAuth_lookup in Hk. by destruct (is_auth_key k).
  - intros Hstale k. cbn. rewrite Hstale. cbn. apply resetAuth_lookup.
  - intros Hstale. cbn. by rewrite Hstale.
  - done.
  - done.
Qed.

End ResetAuth.

(** A visitor with a stored session opens the login page: the effect of
    the first render removes the session, even when [signOut] leaves it
    where it is. *)
Example login_page_drops_a_stored_session :
  Pages.clear_stale_tokens (fun ls => (Return (Fulfilled tt), ls))
    (@Auth.initial_user string) None
    {["sb-docs-auth-token" := "session"; "theme" := "dark"]}
  = (Return tt, {["theme" := "dark"]}).
Proof. by vm_compute. Qed.

(** ** The login form *)

Section LoginForm.

Import Auth Pages.

Context {D : Type}.

Lemma Navigate_not_Backend (evs : list Event) path : Navigate path ∉ Backend <$> evs.
Proof. intros (ev & [=] & _)%list_elem_of_fmap. Qed.

Lemma SetLoading_not_Backend (evs : list Event) b : SetLoading b ∉ Backend <$> evs.
Proof. intros (ev & [=] & _)%list_elem_of_fmap. Qed.

Section Handler.

Variable hook_signIn : string → string → promise (Result D) * list Event.

(** X26: What [handleLogin] does with the form.  With an empty field it
    asks the backend nothing.  It navigates to the start page exactly
    when both fields are filled in and [signIn] resolved without an
    error.  When it resolves, the last thing it does is to switch the
    loading state off; when [signIn] rejects, it rejects too and the
    loading state stays on. *)
Theorem handleLogin_outcomes (mobileNumber password : string) :
  (mobileNumber = "" ∨ password = "" →
     handleLogin hook_signIn mobileNumber password
     = (Fulfilled tt,
        [PreventDefault; SetLoading true;
         ToastError "Please fill in all fields"; SetLoading false]))
  ∧ (Navigate "/" ∈ (handleLogin hook_signIn mobileNumber password).2 ↔
       mobileNumber ≠ "" ∧ password ≠ ""
       ∧ ∃ res, (hook_signIn mobileNumber password).1 = Fulfilled res ∧ error res = None)
  ∧ ((handleLogin hook_signIn mobileNumber password).1 = Fulfilled tt →
       last (handleLogin hook_signIn mobileNumber password).2 = Some (SetLoading false))
  ∧ (∀ e, mobileNumber ≠ "" → password ≠ "" →
       (hook_signIn mobileNumber password).1 = Rejected e →
       (handleLogin hook_signIn mobileNumber password).1 = Rejected e
       ∧ SetLoading false ∉ (handleLogin hook_signIn mobileNumber password).2).
Proof.
  unfold handleLogin.
  destruct (decide (mobileNumber = "")) as [Hm|Hm];
    [|destruct (decide (password = "")) as [Hp|Hp]].
  1,2: rewrite ?(bool_decide_eq_true_2 _ Hm), ?(bool_decide_eq_true_2 _ Hp), ?orb_true_r;
    cbn [orb fst snd app]; split_and!; [done| |done|intros; done];
    (split; [intros Hin|intros (? & ? & _); done]);
    repeat (apply elem_of_cons in Hin as [[=]|Hin]); by apply elem_of_nil in Hin.
  rewrite (bool_decide_eq_false_2 _ Hm), (bool_decide_eq_false_2 _ Hp). cbn [orb].
  destruct (hook_signIn mobileNumber password) as [[res|e] evs]; cbn [fst snd].
  - split_and!.
    + intros [?|?]; done.
    + split.
      * intros Hin. split; [done|]. split; [done|]. exists res. split; [done|].
        destruct (error res) as [err|]; [|done]. exfalso.
        repeat (apply elem_of_cons in Hin as [[=]|Hin]).
        apply elem_of_app in Hin as [Hin|Hin]; [by apply Navigate_not_Backend in Hin|].
        repeat (apply elem_of_cons in Hin as [[=]|Hin]). by apply elem_of_nil in Hin.
      * intros (_ & _ & res' & [= <-] & Herr). rewrite Herr.
        do 2 apply list_elem_of_further. apply elem_of_app. right.
        apply list_elem_of_further, list_elem_of_here.
    + intros _. rewrite !app_assoc. apply last_snoc.
    + intros e _ _ [=].
  - split_and!.
    + intros [?|?]; done.
    + split; [|intros (_ & _ & res & [=] & _)].
      intros Hin. exfalso. repeat (apply elem_of_cons in Hin as [[=]|Hin]).
      by apply Navigate_not_Backend in Hin.
    + intros [=].
    + intros e' _ _ [= <-]. split; [done|]. intros Hin.
      repeat (apply elem_of_cons in Hin as [[=]|Hin]).
      by apply SetLoading_not_Backend in Hin.
Qed.

End Handler.

Variable signInWithPassword : SignInRequest → nat → Response D.

Lemma backend_calls_Backend (evs : list Event) :
  backend_calls (Backend <$> evs) = calls evs.
Proof.
  unfold backend_calls, calls. induction evs as [|[i|ms] evs IH]; cbn; [done| |done].
  by rewrite IH.
Qed.

(** X27: The login form over the [signIn] of the hook: one submission asks
    the backend at most three times, always resolves, and always ends
    by switching the loading state off. *)
Theorem login_asks_at_most_three_times (mobileNumber password : string) :
  let done := handleLogin (signIn signInWithPassword) mobileNumber password in
  done.1 = Fulfilled tt
  ∧ last done.2 = Some (SetLoading false)
  ∧ length (backend_calls done.2) ≤ 3
  ∧ (mobileNumber = "" ∨ password = "" → backend_calls done.2 = []).
Proof.
  cbn zeta. unfold handleLogin.
  destruct (bool_decide (mobileNumber = "") || bool_decide (password = "")) eqn:Hempty.
  { cbn. split_and!; [done|done|lia|done]. }
  unfold signIn.
  destruct (attempt_loop _ 3 0 None) as [res evs] eqn:Hloop. cbn [fst snd].
  destruct (attempt_loop_calls _ _ _ _ _ _ Hloop) as (n & Hn & _ & Hcalls).
  split_and!.
  - done.
  - rewrite !app_assoc. apply last_snoc.
  - unfold backend_calls. rewrite !omap_app. fold (backend_calls (Backend <$> evs)).
    rewrite backend_calls_Backend, Hcalls. cbn [omap app length].
    rewrite !length_app, length_seq.
    destruct (error res) as [err|]; cbn; lia.
  - intros [->| ->]; cbn in Hempty; [done|].
    by rewrite orb_true_r in Hempty.
Qed.

End LoginForm.

(** ** Importing a document on the start page *)

Section ImportOnTheStartPage.

Import Backup Pages.

Lemma own_property_app fields more k :
  own_property (fields ++ more) k
  = match own_property more k with
    | Some v => Some v
    | None => own_property fields k
    end.
Proof.
  induction fields as [|[k' v] fields IH]; cbn.
  - by destruct (own_property more k).
  - rewrite IH. by destruct (own_property more k).
Qed.

Lemma importDocument_object f document :
  importDocument f = Fulfilled document → ∃ fields, document = JObject fields.
Proof.
  unfold importDocument. destruct (file_unreadable f); [discriminate|].
  destruct (file_json f) as [data|e]; [|discriminate].
  destruct (get_property data "id") as [v1|e] eqn:H1; [|discriminate].
  destruct (truthy v1) eqn:Ht1; [|discriminate]. cbn.
  destruct (get_property_truthy _ _ _ H1 Ht1) as (fields & -> & ->). cbn.
  destruct (truthy (own_property fields "title")); [|discriminate].
  destruct (truthy (own_property fields "content")); [|discriminate].
  cbn. intros [= <-]. by eexists.
Qed.

Lemma saved_app a b : saved (a ++ b) = saved a ++ saved b.
Proof. apply omap_app. Qed.

Variable Storage : Type.
Variable saveDocument : JValue → Storage → completion unit * Storage.

(** X28: With a file that [importDocument] accepts and a signed-in user,
    [handleImportDocument] hands [saveDocument] exactly one document:
    whatever the file says, its id is the freshly generated one, its
    [userId] is the user's, its [lastModified] is the time of the
    import, and its other properties are those of the file.  Without a
    file, without a user, or with a file that [importDocument] rejects,
    it saves nothing. *)
Theorem imported_document_belongs_to_the_user file user fresh now loaded mounted st :
  let evs := (handleImportDocument Storage saveDocument file user fresh now loaded mounted st).2 in
  (∀ f user_id document,
     file = Some f → user = Some user_id → importDocument f = Fulfilled document →
     ∃ doc, saved evs = [doc]
       ∧ get_property doc "id" = Return (Some (JString fresh))
       ∧ get_property doc "userId" = Return (Some (JString user_id))
       ∧ get_property doc "lastModified" = Return (Some (JString now))
       ∧ ∀ k, k ≠ "id" → k ≠ "userId" → k ≠ "lastModified" →
              get_property doc k = get_property document k)
  ∧ (file = None ∨ user = None ∨ (∃ f e, file = Some f ∧ importDocument f = Rejected e) →
     saved evs = [])
  ∧ (∀ doc, doc ∈ saved evs →
     ∃ user_id f document,
       user = Some user_id ∧ file = Some f ∧ importDocument f = Fulfilled document
       ∧ get_property doc "id" = Return (Some (JString fresh))
       ∧ get_property doc "userId" = Return (Some (JString user_id))
       ∧ get_property doc "lastModified" = Return (Some (JString now))
       ∧ ∀ k, k ≠ "id" → k ≠ "userId" → k ≠ "lastModified" →
              get_property doc k = get_property document k)
  ∧ length (saved evs) ≤ 1.
Proof.
  cbn zeta. unfold handleImportDocument.
  destruct file as [f|].
  2:{ cbn. split_and!; [intros; done|done|by intros doc Hin%elem_of_nil|lia]. }
  destruct user as [user_id|].
  2:{ cbn. split_and!; [intros; done|done|by intros doc Hin%elem_of_nil|lia]. }
  destruct (importDocument f) as [document|e] eqn:Himport.
  2:{ cbn [snd]. rewrite saved_app.
      destruct mounted; cbn;
        (split_and!; [intros ? ? ? [= <-] _ Hf; congruence|done|by intros doc Hin%elem_of_nil|lia]). }
  destruct (importDocument_object f document Himport) as (fields & ->).
  set (newDocument := JObject _).
  assert (Hnew : get_property newDocument "id" = Return (Some (JString fresh))
                 ∧ get_property newDocument "userId" = Return (Some (JString user_id))
                 ∧ get_property newDocument "lastModified" = Return (Some (JString now))
                 ∧ ∀ k, k ≠ "id" → k ≠ "userId" → k ≠ "lastModified" →
                        get_property newDocument k = get_property (JObject fields) k).
  { subst newDocument. cbn [get_property spread]. rewrite !own_property_app.
    split_and!; [done..|]. intros k H1 H2 H3. rewrite own_property_app. cbn.
    by rewrite !decide_False. }
  assert (Hsaved : saved (handleImportDocument Storage saveDocument (Some f) (Some user_id)
                            fresh now loaded mounted st).2 = [newDocument]).
  { unfold handleImportDocument. rewrite Himport. fold newDocument.
    destruct (saveDocument newDocument st) as [[[]|e] st1];
      [destruct loaded as [[]|e]|]; cbn [snd]; rewrite saved_app;
      by destruct mounted. }
  unfold handleImportDocument in Hsaved. rewrite Himport in Hsaved.
  fold newDocument in Hsaved. rewrite Hsaved.
  split_and!.
  - intros f' user_id' document' [= <-] [= <-] Hf.
    rewrite Himport in Hf. injection Hf as <-. by exists newDocument.
  - intros [[=]|[[=]|(f' & e & [= <-] & Hf)]]. congruence.
  - intros doc Hin%list_elem_of_singleton; subst doc.
    by exists user_id, f, (JObject fields).
  - cbn. lia.
Qed.

End ImportOnTheStartPage.
